(** * MosaicGenerator: a shallow embedding of the tile placement engine
    The development follows the refactored generator (the page-aware
    [MosaicGenerator] class with an explicit placement strategy).  JavaScript
    numbers that hold grid coordinates are integers ([Z]), which is what the
    program computes while every value stays below [2^53] in magnitude (see
    [exactRange]); the palette weights
    and the draw of the sampler are binary64 floats ([PrimFloat.float]), so the
    cumulative sums are the ones the program computes.  A JavaScript exception
    is an explicit [Throw] result. *)

Set Warnings "-inexact-float".
From Stdlib Require Import ZArith List Bool String Lia PrimFloat.
From stdpp Require Import base list sorting gmap.

Local Open Scope Z_scope.

(** ** Exceptions *)

Inductive JsError : Type :=
| TypeError   (* reading or writing a property of [undefined] *)
| RangeError. (* [Array(n)] with an invalid length *)

Inductive result (A : Type) : Type :=
| Ok (a : A)
| Throw (e : JsError).

Arguments Ok {A} a.
Arguments Throw {A} e.

Definition bind {A B : Type} (m : result A) (k : A -> result B) : result B :=
  match m with
  | Ok a => k a
  | Throw e => Throw e
  end.

Notation "'let*' x ':=' m 'in' k" := (bind m (fun x => k))
  (at level 10, x pattern, m at level 100, k at level 200).

Definition returns {A : Type} (m : result A) : Prop := exists a, m = Ok a.

(** ** Data model *)

Module TileType.
Record t : Type := mk { width : Z; height : Z; weight : float }.
End TileType.

(** The prefix of a tile id.  An id is
    [`<prefix>-${row}-${col}-${Date.now()}-${Math.random()}`]; the time stamp
    and the random suffix only make ids unique and are left out. *)
Inductive IdPrefix : Type := fixed_ | random_ | fill_.

Record TileId : Type := mkId { prefix : IdPrefix; idRow : Z; idCol : Z }.

Module Tile.
Record t : Type := mk {
  row : Z; col : Z; width : Z; height : Z;
  id : TileId; color : Z;
  text : option string; url : option string; fontSize : option float }.
End Tile.

Module FixedTile.
Record t : Type := mk {
  row : Z; col : Z; width : Z; height : Z; color : Z;
  text : option string; url : option string;
  altRow : option Z; altCol : option Z;
  altWidth : option Z; altHeight : option Z;
  fontSize : option float }.
End FixedTile.

Definition MAX_PLACEMENT_ATTEMPTS : nat := 1000.

Definition TILE_TYPES : list TileType.t :=
  [ TileType.mk 1 1 0.3;
    TileType.mk 2 1 0.2;
    TileType.mk 1 2 0.2;
    TileType.mk 2 2 0.1;
    TileType.mk 1 3 0.08;
    TileType.mk 3 1 0.08;
    TileType.mk 2 3 0.02;
    TileType.mk 3 2 0.02 ].

(** The fixed tiles the site declares. *)
Inductive PageType : Type := home | about | projects.

Definition STATIC_TILES : list FixedTile.t :=
  [ FixedTile.mk 1 1 4 1 9 (Some "Charlie Beutter"%string) None
                 (Some 1) (Some 1) None None (Some 1.6%float) ].

Definition PAGE_SPECIFIC_TILES (page : PageType) : list FixedTile.t :=
  match page with
  | home =>
      [ FixedTile.mk 1 6 2 1 10 (Some "About"%string) None
                     (Some 3) (Some 1) None None (Some 1.3%float);
        FixedTile.mk 1 9 2 1 10 (Some "Projects"%string) None
                     (Some 5) (Some 1) None None (Some 1.3%float) ]
  | about =>
      [ FixedTile.mk 1 6 5 1 10 (Some "Hey! I'm Charlie. I code stuff."%string) None
                     (Some 3) (Some 1) None None (Some 1.1%float);
        FixedTile.mk 1 12 2 1 10 (Some "My Github"%string)
                     (Some "https://www.github.com/charliebutter"%string)
                     (Some 5) (Some 1) None None (Some 1.1%float) ]
  | projects =>
      [ FixedTile.mk 1 6 5 1 10 (Some "Fantasy Name Generator"%string)
                     (Some "https://fantasy-names.charliebeutter.com/"%string)
                     (Some 3) (Some 1) None None (Some 1.2%float);
        FixedTile.mk 1 12 2 1 10 (Some "Circuits"%string)
                     (Some "https://circuits.charliebeutter.com"%string)
                     (Some 5) (Some 1) None None (Some 1.2%float) ]
  end.

(** [[...STATIC_TILES, ...currentPageTiles]] of [generateMosaic]. *)
Definition allFixedTiles (page : PageType) : list FixedTile.t :=
  STATIC_TILES ++ PAGE_SPECIFIC_TILES page.

(** ** The generator object *)

(** A row of the grid is a JavaScript array: it holds [false] or [true] at
    the indices [0 .. gridWidth-1], and an assignment at any other integer
    key adds a property (the length is never read).  Reading an absent key
    yields [undefined]. *)
Abbreviation Row := (gmap Z bool).

Record MosaicGenerator : Type := mkGenerator {
  grid : list Row;
  gridWidth : Z;
  gridHeight : Z;
  fixedTiles : list FixedTile.t }.

Definition setGrid (this : MosaicGenerator) (g : list Row) : MosaicGenerator :=
  mkGenerator g (gridWidth this) (gridHeight this) (fixedTiles this).

(** The draws of one [generatePattern] call, by the call site that makes
    them.  [rowDraw i] and [colDraw i] stand for
    [Math.floor(Math.random() * gridHeight)] and
    [Math.floor(Math.random() * gridWidth)] at attempt [i]; the colour draws
    stand for [Math.floor(Math.random() * 8)]. *)
Record RandomSource : Type := mkRandom {
  shapeDraw : nat -> float;
  rowDraw : nat -> Z;
  colDraw : nat -> Z;
  randomColor : nat -> Z;
  fillColor : Z -> Z -> Z }.

Inductive Strategy : Type := primary | alternative | fallback.

Record Position : Type := mkPosition {
  p_row : Z; p_col : Z; p_width : Z; p_height : Z }.

(** ** The weighted sampler *)

(** The [for ... of] loop of [getRandomTileType]: [cumulative] is the running
    sum on entry, [Some] is the early [return]. *)
Fixpoint scanPalette (rand cumulative : float) (types : list TileType.t)
  : option TileType.t :=
  match types with
  | [] => None
  | tileType :: rest =>
      let cumulative := (cumulative + TileType.weight tileType)%float in
      if (rand <? cumulative)%float then Some tileType
      else scanPalette rand cumulative rest
  end.

(** [getRandomTileType] over an arbitrary palette; [None] is [undefined],
    which [palette[0]] is for an empty palette only. *)
Definition getRandomTileTypeFrom (palette : list TileType.t) (rand : float)
  : option TileType.t :=
  match scanPalette rand 0%float palette with
  | Some tileType => Some tileType
  | None => palette !! 0%nat
  end.

Definition getRandomTileType (rand : float) : TileType.t :=
  default (TileType.mk 0 0 0%float) (getRandomTileTypeFrom TILE_TYPES rand).

(** The specification's reading of the sampler: the cumulative weight of
    entry [k] is the sum, in declaration order, of the weights up to and
    including entry [k]. *)
Definition cumulativeWeight (palette : list TileType.t) (k : nat) : float :=
  fold_left (fun acc t => (acc + TileType.weight t)%float)
            (take (S k) palette) 0%float.

Definition exceeds (palette : list TileType.t) (rand : float) (k : nat) : bool :=
  (rand <? cumulativeWeight palette k)%float.

(** No entry of the palette has a cumulative weight above the draw. *)
Definition paletteExhausted (palette : list TileType.t) (rand : float) : bool :=
  forallb (fun k => negb (exceeds palette rand k)) (seq 0 (length palette)).

(** The largest float below 1, [1 - 2^-53], is a draw of [0,1) that no cumulative
    weight of the palette exceeds: the eight weights add up to that very
    float. *)
Definition topDraw : float := 0x1.fffffffffffffp-1%float.

(** ** Grid occupancy

    Coordinates, sizes and loop counters are integers here.  The program adds
    and compares them as binary64 numbers, which gives the same values while
    they stay below [2^53] in magnitude; the sums of [normalizeCoordinate],
    the far-edge tests and the loops of [canPlaceTile] and [placeTile] are
    those of the program in that range (see [exactRange]). *)

Definition normalizeCoordinate (coordinate dimension : Z) : Z :=
  if coordinate <? 0 then dimension + coordinate else coordinate.

(** [Array(n)] throws a [RangeError] unless [0 <= n <= 2^32 - 1]. *)
Definition validArrayLength (n : Z) : bool := (0 <=? n) && (n <? 2 ^ 32).

(** [Array(w).fill(false)] *)
Definition newRow (w : Z) : result Row :=
  if validArrayLength w
  then Ok (list_to_map ((fun c => (c, false)) <$> seqZ 0 w))
  else Throw RangeError.

(** [.map(() => Array(w).fill(false))] over an array of [n] entries. *)
Fixpoint newRows (n : nat) (w : Z) : result (list Row) :=
  match n with
  | O => Ok []
  | S n' =>
      let* r := newRow w in
      let* rs := newRows n' w in
      Ok (r :: rs)
  end.

Definition resetGrid (this : MosaicGenerator) : result MosaicGenerator :=
  if validArrayLength (gridHeight this)
  then let* rows := newRows (Z.to_nat (gridHeight this)) (gridWidth this) in
       Ok (setGrid this rows)
  else Throw RangeError.

Definition constructor (gridWidth gridHeight : Z) (fixedTiles : list FixedTile.t)
  : result MosaicGenerator :=
  resetGrid (mkGenerator [] gridWidth gridHeight fixedTiles).

(** [g[r]]: [None] is [undefined]. *)
Definition rowAt (g : list Row) (r : Z) : option Row :=
  if r <? 0 then None else g !! Z.to_nat r.

(** [g[r][c]] read as a condition: a [TypeError] when [g[r]] is [undefined],
    falsy when the key [c] is absent. *)
Definition readCell (g : list Row) (r c : Z) : result bool :=
  match rowAt g r with
  | None => Throw TypeError
  | Some ro => Ok (default false (ro !! c))
  end.

(** [g[r][c] = true] *)
Definition writeCell (g : list Row) (r c : Z) : result (list Row) :=
  match rowAt g r with
  | None => Throw TypeError
  | Some ro => Ok (<[Z.to_nat r := <[c := true]> ro]> g)
  end.

(** The cells the nested loops
    [for (r = row; r < row + height; r++) for (c = col; c < col + width; c++)]
    visit, in visiting order, for bounds and counters in the range of exact
    arithmetic. *)
Definition rectCells (row col width height : Z) : list (Z * Z) :=
  flat_map (fun r => map (fun c => (r, c)) (seqZ col width)) (seqZ row height).

(** The overlap loops of [canPlaceTile]: [Ok true] is the early
    [return false] at an occupied cell. *)
Fixpoint anyOccupied (g : list Row) (cells : list (Z * Z)) : result bool :=
  match cells with
  | [] => Ok false
  | (r, c) :: rest =>
      let* occ := readCell g r c in
      if occ then Ok true else anyOccupied g rest
  end.

Definition canPlaceTile (this : MosaicGenerator) (row col width height : Z)
  : result bool :=
  if (row + height >? gridHeight this) || (col + width >? gridWidth this)
  then Ok false
  else let* occ := anyOccupied (grid this) (rectCells row col width height) in
       Ok (negb occ).

Fixpoint markCells (g : list Row) (cells : list (Z * Z)) : result (list Row) :=
  match cells with
  | [] => Ok g
  | (r, c) :: rest =>
      let* g' := writeCell g r c in
      markCells g' rest
  end.

Definition placeTile (this : MosaicGenerator) (row col width height : Z)
  : result MosaicGenerator :=
  let* g := markCells (grid this) (rectCells row col width height) in
  Ok (setGrid this g).

(** ** Fixed tiles *)

Definition getNormalizedTilePosition (this : MosaicGenerator)
    (tile : FixedTile.t) (useAlternative : bool) : Position :=
  match useAlternative, FixedTile.altRow tile, FixedTile.altCol tile with
  | true, Some altRow, Some altCol =>
      mkPosition (normalizeCoordinate altRow (gridHeight this - 1))
                 (normalizeCoordinate altCol (gridWidth this - 1))
                 (default (FixedTile.width tile) (FixedTile.altWidth tile))
                 (default (FixedTile.height tile) (FixedTile.altHeight tile))
  | _, _, _ =>
      mkPosition (normalizeCoordinate (FixedTile.row tile) (gridHeight this - 1))
                 (normalizeCoordinate (FixedTile.col tile) (gridWidth this - 1))
                 (FixedTile.width tile)
                 (FixedTile.height tile)
  end.

Definition isValidPlacement (this : MosaicGenerator) (row col width height : Z)
  : result bool :=
  if negb (col + width <=? gridWidth this - 1) then Ok false
  else if negb (row + height <=? gridHeight this - 1) then Ok false
  else canPlaceTile this row col width height.

Definition isValidPosition (this : MosaicGenerator) (p : Position) : result bool :=
  isValidPlacement this (p_row p) (p_col p) (p_width p) (p_height p).

(** [Array.prototype.every] with a callback that may throw. *)
Fixpoint every {A : Type} (f : A -> result bool) (l : list A) : result bool :=
  match l with
  | [] => Ok true
  | x :: rest =>
      let* b := f x in
      if b then every f rest else Ok false
  end.

Definition hasAlternative (tile : FixedTile.t) : bool :=
  match FixedTile.altRow tile, FixedTile.altCol tile with
  | Some _, Some _ => true
  | _, _ => false
  end.

Definition determinePlacementStrategy (this : MosaicGenerator) : result Strategy :=
  let* canPlacePrimary :=
    every (fun tile => isValidPosition this (getNormalizedTilePosition this tile false))
          (fixedTiles this) in
  if canPlacePrimary then Ok primary
  else
    let* canPlaceAlternative :=
      every (fun tile =>
               if negb (hasAlternative tile)
               then isValidPosition this (getNormalizedTilePosition this tile false)
               else isValidPosition this (getNormalizedTilePosition this tile true))
            (fixedTiles this) in
    Ok (if canPlaceAlternative then alternative else fallback).

Definition createTileFromFixed (fixedTile : FixedTile.t) (row col width height : Z)
  : Tile.t :=
  Tile.mk row col width height (mkId fixed_ row col)
          (FixedTile.color fixedTile) (FixedTile.text fixedTile)
          (FixedTile.url fixedTile) (FixedTile.fontSize fixedTile).

(** One fixed tile: validate, mark, push. *)
Definition placeFixedTile (this : MosaicGenerator) (tiles : list Tile.t)
    (fixedTile : FixedTile.t) (useAlternative : bool)
  : result (MosaicGenerator * list Tile.t) :=
  let p := getNormalizedTilePosition this fixedTile useAlternative in
  let* ok := isValidPosition this p in
  if ok then
    let* this' := placeTile this (p_row p) (p_col p) (p_width p) (p_height p) in
    Ok (this', tiles ++ [createTileFromFixed fixedTile (p_row p) (p_col p)
                                             (p_width p) (p_height p)])
  else Ok (this, tiles).

Fixpoint placeFixedLoop (this : MosaicGenerator) (tiles : list Tile.t)
    (useAlternative : bool) (rest : list FixedTile.t)
  : result (MosaicGenerator * list Tile.t) :=
  match rest with
  | [] => Ok (this, tiles)
  | fixedTile :: rest' =>
      let* st := placeFixedTile this tiles fixedTile useAlternative in
      placeFixedLoop (fst st) (snd st) useAlternative rest'
  end.

Definition isCharlie (tile : FixedTile.t) : bool :=
  match FixedTile.text tile with
  | Some s => String.eqb s "Charlie Beutter"
  | None => false
  end.

Definition placeEssentialTiles (this : MosaicGenerator) (tiles : list Tile.t)
  : result (MosaicGenerator * list Tile.t) :=
  match List.find isCharlie (fixedTiles this) with
  | None => Ok (this, tiles)
  | Some charlieTile => placeFixedTile this tiles charlieTile false
  end.

Definition placeFixedTiles (this : MosaicGenerator) (tiles : list Tile.t)
    (strategy : Strategy) : result (MosaicGenerator * list Tile.t) :=
  match strategy with
  | fallback => placeEssentialTiles this tiles
  | primary => placeFixedLoop this tiles false (fixedTiles this)
  | alternative => placeFixedLoop this tiles true (fixedTiles this)
  end.

(** ** Random tiles and gap filling *)

Definition randomTile (rs : RandomSource) (attempt : nat) : Tile.t :=
  let tileType := getRandomTileType (shapeDraw rs attempt) in
  let row := rowDraw rs attempt in
  let col := colDraw rs attempt in
  Tile.mk row col (TileType.width tileType) (TileType.height tileType)
          (mkId random_ row col) (randomColor rs attempt + 1) None None None.

(** One iteration of the attempt loop. *)
Definition placeRandomTile (this : MosaicGenerator) (rs : RandomSource)
    (tiles : list Tile.t) (attempt : nat)
  : result (MosaicGenerator * list Tile.t) :=
  let t := randomTile rs attempt in
  let* ok := canPlaceTile this (Tile.row t) (Tile.col t) (Tile.width t) (Tile.height t) in
  if ok then
    let* this' := placeTile this (Tile.row t) (Tile.col t) (Tile.width t) (Tile.height t) in
    Ok (this', tiles ++ [t])
  else Ok (this, tiles).

(** [n] more iterations, starting at attempt number [attempt]. *)
Fixpoint placeRandomLoop (n : nat) (attempt : nat) (this : MosaicGenerator)
    (rs : RandomSource) (tiles : list Tile.t)
  : result (MosaicGenerator * list Tile.t) :=
  match n with
  | O => Ok (this, tiles)
  | S n' =>
      let* st := placeRandomTile this rs tiles attempt in
      placeRandomLoop n' (S attempt) (fst st) rs (snd st)
  end.

Definition placeRandomTiles (this : MosaicGenerator) (rs : RandomSource)
    (tiles : list Tile.t) : result (MosaicGenerator * list Tile.t) :=
  placeRandomLoop MAX_PLACEMENT_ATTEMPTS 0 this rs tiles.

Definition fillTile (rs : RandomSource) (cell : Z * Z) : Tile.t :=
  Tile.mk (fst cell) (snd cell) 1 1 (mkId fill_ (fst cell) (snd cell))
          (fillColor rs (fst cell) (snd cell) + 1) None None None.

Fixpoint fillLoop (g : list Row) (rs : RandomSource) (tiles : list Tile.t)
    (cells : list (Z * Z)) : result (list Row * list Tile.t) :=
  match cells with
  | [] => Ok (g, tiles)
  | (row, col) :: rest =>
      let* occ := readCell g row col in
      if occ then fillLoop g rs tiles rest
      else
        let* g' := writeCell g row col in
        fillLoop g' rs (tiles ++ [fillTile rs (row, col)]) rest
  end.

Definition fillEmptyCells (this : MosaicGenerator) (rs : RandomSource)
    (tiles : list Tile.t) : result (MosaicGenerator * list Tile.t) :=
  let* st := fillLoop (grid this) rs tiles
               (rectCells 0 0 (gridWidth this) (gridHeight this)) in
  Ok (setGrid this (fst st), snd st).

(** ** The generation pass *)

Definition generatePattern (this : MosaicGenerator) (rs : RandomSource)
  : result (MosaicGenerator * list Tile.t) :=
  let* this := resetGrid this in
  let tiles := [] in
  let* placementStrategy := determinePlacementStrategy this in
  let* st := placeFixedTiles this tiles placementStrategy in
  let* st := placeRandomTiles (fst st) rs (snd st) in
  fillEmptyCells (fst st) rs (snd st).

(** [new MosaicGenerator(w, h, fixed).generatePattern()]: the returned list. *)
Definition generate (gridWidth gridHeight : Z) (fixedTiles : list FixedTile.t)
    (rs : RandomSource) : result (list Tile.t) :=
  let* this := constructor gridWidth gridHeight fixedTiles in
  let* st := generatePattern this rs in
  Ok (snd st).

(** ** Rendering helpers and the page component *)

(** The truthiness of an optional string: [undefined] and [''] are falsy. *)
Definition truthy (s : option string) : bool :=
  match s with
  | Some s => negb (String.eqb s "")
  | None => false
  end.

(** [tile.text === label] *)
Definition textIs (tile : Tile.t) (label : string) : bool :=
  match Tile.text tile with
  | Some s => String.eqb s label
  | None => false
  end.

(** [Boolean(tile.url || [...].includes(tile.text || ''))] *)
Definition isClickableTile (tile : Tile.t) : bool :=
  truthy (Tile.url tile)
  || existsb (String.eqb (default ""%string (Tile.text tile)))
             ["About"%string; "Projects"%string; "Charlie Beutter"%string].

(** What a click handler does: [setCurrentPage(page); generateMosaic(true)],
    [window.open(url, '_blank')], or nothing. *)
Inductive ClickEffect : Type :=
| Navigate (page : PageType)
| OpenUrl (url : string)
| NoEffect.

Definition handleTileClick (tile : Tile.t) : ClickEffect :=
  if textIs tile "About" then Navigate about
  else if textIs tile "Projects" then Navigate projects
  else if textIs tile "Charlie Beutter" then Navigate home
  else if truthy (Tile.url tile) then OpenUrl (default ""%string (Tile.url tile))
  else NoEffect.

(** The [onClick] of [renderTile]: the handler for a clickable tile,
    [undefined] otherwise. *)
Definition clickTile (tile : Tile.t) : ClickEffect :=
  if isClickableTile tile then handleTileClick tile else NoEffect.

(** [staticTile.text === tile.text] on optional strings. *)
Definition sameText (a b : option string) : bool :=
  match a, b with
  | Some x, Some y => String.eqb x y
  | None, None => true
  | _, _ => false
  end.

(** [tile.text && STATIC_TILES.some(staticTile => staticTile.text === tile.text)],
    read as a condition. *)
Definition isStaticTile (tile : Tile.t) : bool :=
  truthy (Tile.text tile)
  && existsb (fun staticTile => sameText (FixedTile.text staticTile) (Tile.text tile))
             STATIC_TILES.

Definition shouldAnimate (isInitialLoad : bool) (tile : Tile.t) : bool :=
  isInitialLoad || negb (isStaticTile tile).

Definition TILE_SIZE : Z := 60.

(** [Math.floor(window.innerWidth / TILE_SIZE) + 1] and the same for the
    height, on integer pixel sizes. *)
Definition calculateGridDimensions (innerWidth innerHeight : Z) : Z * Z :=
  (innerWidth / TILE_SIZE + 1, innerHeight / TILE_SIZE + 1).

(** The list [generateMosaic] hands to [setTiles]; [gridDimensions] is
    [(width, height)]. *)
Definition generateMosaic (gridDimensions : Z * Z) (currentPage : PageType)
    (rs : RandomSource) : result (list Tile.t) :=
  generate (fst gridDimensions) (snd gridDimensions) (allFixedTiles currentPage) rs.

(** ** The earlier generator (MosaicGrid.tsx)

    The class of the earlier file has the same fields, constructor,
    [normalizeCoordinate], [resetGrid], [canPlaceTile], [placeTile] and
    [getRandomTileType]; those are the definitions above.  Its [FixedTile]
    interface has no [altWidth] and [altHeight], and its [generatePattern]
    places each fixed tile by itself: at the primary position, else at the
    alternate one. *)

Module Legacy.

(** A tile id: [`fixed-${row}-${col}-...`] for a fixed tile,
    [`${row}-${col}-...`], without prefix, for the others. *)
Record TileId : Type := mkId { fixedPrefix : bool; idRow : Z; idCol : Z }.

Module Tile.
Record t : Type := mk {
  row : Z; col : Z; width : Z; height : Z;
  id : TileId; color : Z;
  text : option string; url : option string; fontSize : option float }.
End Tile.

Definition FIXED_TILES : list FixedTile.t :=
  [ FixedTile.mk 1 1 4 1 9 (Some "Charlie Beutter"%string) None
                 (Some 3) (Some 1) None None (Some 1.6%float);
    FixedTile.mk 1 6 2 1 10 (Some "Github"%string)
                 (Some "https://github.com/charliebutter"%string)
                 (Some 3) (Some 1) None None (Some 1.3%float);
    FixedTile.mk 1 9 5 1 10 (Some "Fantasy Name Generator"%string)
                 (Some "https://fantasy-names.charliebeutter.com"%string)
                 None None None None (Some 1.3%float);
    FixedTile.mk 1 15 2 1 10 (Some "Circuits"%string)
                 (Some "https://circuits.charliebeutter.com"%string)
                 None None None None (Some 1.3%float);
    FixedTile.mk (-1) 1 1 1 10 (Some "v1.2"%string) None
                 None None None None (Some 1.0%float) ].

(** The tile pushed for a fixed tile placed at [(row, col)]. *)
Definition fixedTileAt (fixedTile : FixedTile.t) (row col : Z) : Tile.t :=
  Tile.mk row col (FixedTile.width fixedTile) (FixedTile.height fixedTile)
          (mkId true row col) (FixedTile.color fixedTile)
          (FixedTile.text fixedTile) (FixedTile.url fixedTile)
          (FixedTile.fontSize fixedTile).

(** The test the loop writes out at both positions:
    [col + width <= gridWidth - 1 && row + height <= gridHeight - 1
     && canPlaceTile(row, col, width, height)]. *)
Definition fits (this : MosaicGenerator) (row col width height : Z) : result bool :=
  if negb (col + width <=? gridWidth this - 1) then Ok false
  else if negb (row + height <=? gridHeight this - 1) then Ok false
  else canPlaceTile this row col width height.

(** The body of the fixed-tile loop. *)
Definition placeFixed (this : MosaicGenerator) (tiles : list Tile.t)
    (fixedTile : FixedTile.t) : result (MosaicGenerator * list Tile.t) :=
  let width := FixedTile.width fixedTile in
  let height := FixedTile.height fixedTile in
  let normalizedRow :=
    normalizeCoordinate (FixedTile.row fixedTile) (gridHeight this - 1) in
  let normalizedCol :=
    normalizeCoordinate (FixedTile.col fixedTile) (gridWidth this - 1) in
  let* ok := fits this normalizedRow normalizedCol width height in
  if ok then
    let* this' := placeTile this normalizedRow normalizedCol width height in
    Ok (this', tiles ++ [fixedTileAt fixedTile normalizedRow normalizedCol])
  else
    match FixedTile.altRow fixedTile, FixedTile.altCol fixedTile with
    | Some altRow, Some altCol =>
        let normalizedAltRow := normalizeCoordinate altRow (gridHeight this - 1) in
        let normalizedAltCol := normalizeCoordinate altCol (gridWidth this - 1) in
        let* okAlt := fits this normalizedAltRow normalizedAltCol width height in
        if okAlt then
          let* this' :=
            placeTile this normalizedAltRow normalizedAltCol width height in
          Ok (this', tiles ++ [fixedTileAt fixedTile normalizedAltRow normalizedAltCol])
        else Ok (this, tiles)
    | _, _ => Ok (this, tiles)
    end.

Fixpoint fixedLoop (this : MosaicGenerator) (tiles : list Tile.t)
    (rest : list FixedTile.t) : result (MosaicGenerator * list Tile.t) :=
  match rest with
  | [] => Ok (this, tiles)
  | fixedTile :: rest' =>
      let* st := placeFixed this tiles fixedTile in
      fixedLoop (fst st) (snd st) rest'
  end.

Definition randomTile (rs : RandomSource) (attempt : nat) : Tile.t :=
  let tileType := getRandomTileType (shapeDraw rs attempt) in
  let row := rowDraw rs attempt in
  let col := colDraw rs attempt in
  Tile.mk row col (TileType.width tileType) (TileType.height tileType)
          (mkId false row col) (randomColor rs attempt + 1) None None None.

Definition placeRandom (this : MosaicGenerator) (rs : RandomSource)
    (tiles : list Tile.t) (attempt : nat)
  : result (MosaicGenerator * list Tile.t) :=
  let t := randomTile rs attempt in
  let* ok := canPlaceTile this (Tile.row t) (Tile.col t) (Tile.width t) (Tile.height t) in
  if ok then
    let* this' := placeTile this (Tile.row t) (Tile.col t) (Tile.width t) (Tile.height t) in
    Ok (this', tiles ++ [t])
  else Ok (this, tiles).

Fixpoint randomLoop (n : nat) (attempt : nat) (this : MosaicGenerator)
    (rs : RandomSource) (tiles : list Tile.t)
  : result (MosaicGenerator * list Tile.t) :=
  match n with
  | O => Ok (this, tiles)
  | S n' =>
      let* st := placeRandom this rs tiles attempt in
      randomLoop n' (S attempt) (fst st) rs (snd st)
  end.

Definition fillTile (rs : RandomSource) (cell : Z * Z) : Tile.t :=
  Tile.mk (fst cell) (snd cell) 1 1 (mkId false (fst cell) (snd cell))
          (fillColor rs (fst cell) (snd cell) + 1) None None None.

Fixpoint fillLoop (g : list Row) (rs : RandomSource) (tiles : list Tile.t)
    (cells : list (Z * Z)) : result (list Row * list Tile.t) :=
  match cells with
  | [] => Ok (g, tiles)
  | (row, col) :: rest =>
      let* occ := readCell g row col in
      if occ then fillLoop g rs tiles rest
      else
        let* g' := writeCell g row col in
        fillLoop g' rs (tiles ++ [fillTile rs (row, col)]) rest
  end.

Definition generatePattern (this : MosaicGenerator) (rs : RandomSource)
  : result (MosaicGenerator * list Tile.t) :=
  let* this := resetGrid this in
  let tiles := [] in
  let* st := fixedLoop this tiles (fixedTiles this) in
  let* st := randomLoop 1000 0 (fst st) rs (snd st) in
  let* filled := fillLoop (grid (fst st)) rs (snd st)
                   (rectCells 0 0 (gridWidth (fst st)) (gridHeight (fst st))) in
  Ok (setGrid (fst st) (fst filled), snd filled).

(** [new MosaicGenerator(w, h, fixed).generatePattern()]: the returned list. *)
Definition generate (gridWidth gridHeight : Z) (fixedTiles : list FixedTile.t)
    (rs : RandomSource) : result (list Tile.t) :=
  let* this := constructor gridWidth gridHeight fixedTiles in
  let* st := generatePattern this rs in
  Ok (snd st).

(** [calculateGridDimensions] and [generateMosaic] of the earlier
    component, on integer pixel sizes. *)
Definition calculateGridDimensions (innerWidth innerHeight : Z) : Z * Z :=
  (innerWidth / 60 + 1, innerHeight / 60 + 1).

Definition generateMosaic (gridDimensions : Z * Z) (rs : RandomSource)
  : result (list Tile.t) :=
  generate (fst gridDimensions) (snd gridDimensions) FIXED_TILES rs.

(** The tile's rectangle contains the cell, and how many tiles of a list
    cover a cell. *)
Definition covers (t : Tile.t) (r c : Z) : bool :=
  (Tile.row t <=? r) && (r <? Tile.row t + Tile.height t)
  && (Tile.col t <=? c) && (c <? Tile.col t + Tile.width t).

Definition coverCount (tiles : list Tile.t) (r c : Z) : nat :=
  length (List.filter (fun t => covers t r c) tiles).

(** The normalized primary and alternate rectangles of a spec: the
    alternate one keeps the width and the height. *)
Definition primaryOf (W H : Z) (f : FixedTile.t) : Position :=
  mkPosition (normalizeCoordinate (FixedTile.row f) (H - 1))
             (normalizeCoordinate (FixedTile.col f) (W - 1))
             (FixedTile.width f) (FixedTile.height f).

Definition alternateOf (W H : Z) (f : FixedTile.t) : option Position :=
  match FixedTile.altRow f, FixedTile.altCol f with
  | Some altRow, Some altCol =>
      Some (mkPosition (normalizeCoordinate altRow (H - 1))
                       (normalizeCoordinate altCol (W - 1))
                       (FixedTile.width f) (FixedTile.height f))
  | _, _ => None
  end.

Definition tileAt (f : FixedTile.t) (p : Position) : Tile.t :=
  fixedTileAt f (p_row p) (p_col p).

(** No row the fixed-tile loop would read is negative. *)
Definition rowsNonneg (W H : Z) (fixed : list FixedTile.t) : Prop :=
  forall f, In f fixed ->
    0 <= p_row (primaryOf W H f)
    /\ (forall p, alternateOf W H f = Some p -> 0 <= p_row p).

(** No tile of the list covers a cell of the rectangle. *)
Definition rectFree (tiles : list Tile.t) (p : Position) : bool :=
  forallb (fun cell => Nat.eqb (coverCount tiles (fst cell) (snd cell)) 0)
          (rectCells (p_row p) (p_col p) (p_width p) (p_height p)).

(** The rectangle passes the two far-edge tests of the usable span and is
    free of the tiles placed so far. *)
Definition fitsFree (W H : Z) (tiles : list Tile.t) (p : Position) : bool :=
  (p_col p + p_width p <=? W - 1) && (p_row p + p_height p <=? H - 1)
  && rectFree tiles p.

(** The fixed tiles the loop keeps, from the sizes and the specs alone:
    each spec at its primary rectangle if that fits and is free, else at its
    alternate one under the same test, else not at all. *)
Definition layoutStep (W H : Z) (tiles : list Tile.t) (f : FixedTile.t)
  : list Tile.t :=
  if fitsFree W H tiles (primaryOf W H f)
  then tiles ++ [tileAt f (primaryOf W H f)]
  else match alternateOf W H f with
       | Some q => if fitsFree W H tiles q then tiles ++ [tileAt f q] else tiles
       | None => tiles
       end.

Definition layout (W H : Z) (fixed : list FixedTile.t) : list Tile.t :=
  fold_left (layoutStep W H) fixed [].

(** Where each of the five [FIXED_TILES] ends up on a [W] by [H] grid of
    two rows or more ([None]: dropped). *)
Definition shippedOrigins (W H : Z) : list (option (Z * Z)) :=
  [ if (6 <=? W) && (3 <=? H) then Some (1, 1) else None;
    if (9 <=? W) && (3 <=? H) then Some (1, 6)
    else if (4 <=? W) && (5 <=? H) then Some (3, 1) else None;
    if (15 <=? W) && (3 <=? H) then Some (1, 9) else None;
    if (18 <=? W) && (3 <=? H) then Some (1, 15) else None;
    if (3 <=? W) && negb ((H =? 3) && (6 <=? W))
       && negb ((H =? 5) && (4 <=? W) && (W <=? 8))
    then Some (H - 2, 1) else None ].

Definition tilesAt (fixed : list FixedTile.t) (origins : list (option (Z * Z)))
  : list Tile.t :=
  flat_map (fun fo => match snd fo with
                      | Some (row, col) => [fixedTileAt (fst fo) row col]
                      | None => []
                      end)
           (combine fixed origins).

End Legacy.

(** The rectangle and kind of a tile of the earlier generator, as a tile of
    the later one (the kind of a gap tile is that of a random tile). *)
Definition asTile (t : Legacy.Tile.t) : Tile.t :=
  Tile.mk (Legacy.Tile.row t) (Legacy.Tile.col t)
          (Legacy.Tile.width t) (Legacy.Tile.height t)
          (mkId (if Legacy.fixedPrefix (Legacy.Tile.id t) then fixed_ else random_)
                (Legacy.idRow (Legacy.Tile.id t)) (Legacy.idCol (Legacy.Tile.id t)))
          (Legacy.Tile.color t) (Legacy.Tile.text t) (Legacy.Tile.url t)
          (Legacy.Tile.fontSize t).

(** * Specification vocabulary and examples *)

(** The truth value of [g[r][c]] where the row exists; [false] elsewhere. *)
Definition occupied (g : list Row) (r c : Z) : bool :=
  match rowAt g r with
  | Some ro => default false (ro !! c)
  | None => false
  end.

Definition hasRow (g : list Row) (r : Z) : Prop := 0 <= r < Z.of_nat (length g).

(** The tile's rectangle [[row, row+height) x [col, col+width)] contains the
    cell [(r, c)]. *)
Definition covers (t : Tile.t) (r c : Z) : bool :=
  (Tile.row t <=? r) && (r <? Tile.row t + Tile.height t)
  && (Tile.col t <=? c) && (c <? Tile.col t + Tile.width t).

(** How many tiles of the list cover the cell. *)
Definition coverCount (tiles : list Tile.t) (r c : Z) : nat :=
  length (List.filter (fun t => covers t r c) tiles).

(** The bound each kind of tile is placed under: the usable span for a
    fixed tile, the full grid for a random or a gap tile. *)
Definition tileBound (W H : Z) (t : Tile.t) : Prop :=
  match prefix (Tile.id t) with
  | fixed_ =>
      Tile.row t + Tile.height t <= H - 1 /\ Tile.col t + Tile.width t <= W - 1
  | _ =>
      Tile.row t + Tile.height t <= H /\ Tile.col t + Tile.width t <= W
  end.

Definition sameConfig (W H : Z) (fixed : list FixedTile.t)
    (this : MosaicGenerator) : Prop :=
  gridWidth this = W /\ gridHeight this = H /\ fixedTiles this = fixed.

(** The grid has one row per grid row, a cell is marked exactly when one
    tile covers it and is covered by no tile otherwise, and every tile obeys
    the bound of its kind. *)
Definition GridInv (W H : Z) (g : list Row) (tiles : list Tile.t) : Prop :=
  length g = Z.to_nat H
  /\ (forall r c, coverCount tiles r c = Nat.b2n (occupied g r c))
  /\ Forall (tileBound W H) tiles.

Definition Inv (W H : Z) (fixed : list FixedTile.t)
    (this : MosaicGenerator) (tiles : list Tile.t) : Prop :=
  sameConfig W H fixed this /\ GridInv W H (grid this) tiles.

(** The normalized rectangle and the emitted tile of a fixed-tile spec on a
    [W] by [H] grid. *)
Definition positionOn (W H : Z) (tile : FixedTile.t) (useAlternative : bool)
  : Position :=
  getNormalizedTilePosition (mkGenerator [] W H []) tile useAlternative.

Definition fixedTileOn (W H : Z) (useAlternative : bool) (tile : FixedTile.t)
  : Tile.t :=
  let p := positionOn W H tile useAlternative in
  createTileFromFixed tile (p_row p) (p_col p) (p_width p) (p_height p).

Definition usesAlternative (s : Strategy) : bool :=
  match s with alternative => true | _ => false end.

(** The shape of a returned list: the tiles of a sub-sequence of the
    fixed-tile specs, then the tiles of the successful attempts in attempt
    order, then the gap tiles of a sub-sequence of the row-major scan. *)
Definition segmented (W H : Z) (fixed : list FixedTile.t) (rs : RandomSource)
    (s : Strategy) (tiles : list Tile.t) : Prop :=
  exists placed attempts filled,
    placed `sublist_of` fixed
    /\ attempts `sublist_of` seq 0 MAX_PLACEMENT_ATTEMPTS
    /\ filled `sublist_of` rectCells 0 0 W H
    /\ (s = fallback ->
        placed = []
        \/ exists charlieTile, List.find isCharlie fixed = Some charlieTile
                               /\ placed = [charlieTile])
    /\ tiles = map (fixedTileOn W H (usesAlternative s)) placed
               ++ map (randomTile rs) attempts
               ++ map (fillTile rs) filled.

(** The rows the fixed-tile checks would read exist: no normalized row,
    primary or alternate, is negative. *)
Definition fixedRowsNonneg (W H : Z) (fixed : list FixedTile.t) : Prop :=
  forall f, In f fixed ->
    0 <= p_row (positionOn W H f false) /\ 0 <= p_row (positionOn W H f true).

Definition drawsNonneg (rs : RandomSource) : Prop :=
  forall i, 0 <= rowDraw rs i /\ 0 <= colDraw rs i.

(** Row-major order of cells: by row, then by column. *)
Definition rowMajorLt (a b : Z * Z) : Prop :=
  fst a < fst b \/ (fst a = fst b /\ snd a < snd b).

(** A random source whose draws are the same at every attempt. *)
Definition constantSource (shape : float) (row col : Z) : RandomSource :=
  mkRandom (fun _ => shape) (fun _ => row) (fun _ => col) (fun _ => 0) (fun _ _ => 0).

(** A random source that sweeps the cells of a three-column grid with the
    widest shape of the palette. *)
Definition sweepSource : RandomSource :=
  mkRandom (fun _ => 0.95%float)
           (fun i => Z.of_nat i mod 3) (fun i => Z.of_nat (i / 3) mod 3)
           (fun i => Z.of_nat i mod 8) (fun r c => (r + c) mod 8).

(** The value of a computation that returned. *)
Definition valueOf {A : Type} (m : result A) (d : A) : A :=
  match m with Ok a => a | Throw _ => d end.

(** The essential tile of the site, as the static tile list declares it. *)
Definition charlieExample : FixedTile.t :=
  FixedTile.mk 1 1 4 1 9 (Some "Charlie Beutter"%string) None
               (Some 1) (Some 1) None None (Some 1.6%float).

Definition cellsOf (p : Position) : list (Z * Z) :=
  rectCells (p_row p) (p_col p) (p_width p) (p_height p).

Definition rectsOverlap (p q : Position) : Prop :=
  exists r c, In (r, c) (cellsOf p) /\ In (r, c) (cellsOf q).

Definition rectsDisjoint (p q : Position) : Prop :=
  forall r c, In (r, c) (cellsOf p) -> ~ In (r, c) (cellsOf q).

(** The rectangle lies in the usable span [[0, H-1) x [0, W-1)]. *)
Definition fitsUsableSpan (W H : Z) (p : Position) : Prop :=
  0 <= p_row p /\ 0 <= p_col p
  /\ p_row p + p_height p <= H - 1 /\ p_col p + p_width p <= W - 1.

(** The rectangle reaches past the far edge of the usable span. *)
Definition pastUsableSpan (W H : Z) (p : Position) : Prop :=
  p_row p + p_height p > H - 1 \/ p_col p + p_width p > W - 1.

Definition isFixedTile (t : Tile.t) : bool :=
  match prefix (Tile.id t) with fixed_ => true | _ => false end.

(** Two specs whose primary rectangles share the cell [(1, 2)] and whose
    alternate rectangles lie apart, on rows 3 and 5. *)
Definition overlapA : FixedTile.t :=
  FixedTile.mk 1 1 2 1 10 (Some "About"%string) None
               (Some 3) (Some 1) None None None.
Definition overlapB : FixedTile.t :=
  FixedTile.mk 1 2 2 1 10 (Some "Projects"%string) None
               (Some 5) (Some 1) None None None.

(** The number of cells of a tile's rectangle, and of a list of tiles. *)
Definition cellCount (t : Tile.t) : Z :=
  Z.max 0 (Tile.width t) * Z.max 0 (Tile.height t).

Definition totalCells (tiles : list Tile.t) : Z :=
  fold_right (fun t acc => cellCount t + acc) 0 tiles.

(** The tile lies inside the grid. *)
Definition inGrid (W H : Z) (t : Tile.t) : bool :=
  (0 <=? Tile.row t) && (0 <=? Tile.col t)
  && (Tile.row t + Tile.height t <=? H) && (Tile.col t + Tile.width t <=? W).

(** A spec anchored five columns left of the right edge of the usable span. *)
Definition offGridSpec : FixedTile.t :=
  FixedTile.mk 0 (-5) 1 1 10 None None None None None None None.

(** A batch that forces the fallback strategy on a 5 by 3 grid (the first
    spec is too wide), with the essential tile anchored five rows above the
    bottom of the usable span. *)
Definition fallbackBatch : list FixedTile.t :=
  [ FixedTile.mk 0 0 9 1 10 (Some "About"%string) None None None None None None;
    FixedTile.mk (-5) 0 1 1 9 (Some "Charlie Beutter"%string) None
                 None None None None None ].

(** How many cells of the list the tile's rectangle contains. *)
Definition countIn (t : Tile.t) (cells : list (Z * Z)) : nat :=
  length (List.filter (fun cell => covers t (fst cell) (snd cell)) cells).

(** Every normalized origin of a fixed-tile spec, primary or alternate, is
    inside the first quadrant. *)
Definition fixedOriginsNonneg (W H : Z) (fixed : list FixedTile.t) : Prop :=
  forall f ua, In f fixed ->
    0 <= p_row (positionOn W H f ua) /\ 0 <= p_col (positionOn W H f ua).

(** The two far-edge tests of [isValidPlacement], on a rectangle. *)
Definition withinFarEdges (W H : Z) (p : Position) : bool :=
  (p_col p + p_width p <=? W - 1) && (p_row p + p_height p <=? H - 1).

(** The strategy as a table over the far-edge tests of the single specs. *)
Definition strategyTable (W H : Z) (fixed : list FixedTile.t) : Strategy :=
  if forallb (fun f => withinFarEdges W H (positionOn W H f false)) fixed
  then primary
  else if forallb (fun f => withinFarEdges W H (positionOn W H f true)) fixed
       then alternative
       else fallback.

(** The tile of the essential spec of the site: both its positions are
    row 1, column 1. *)
Definition charlieTile : Tile.t :=
  Tile.mk 1 1 4 1 (mkId fixed_ 1 1) 9 (Some "Charlie Beutter"%string) None
          (Some 1.6%float).

(** ** The range of exact arithmetic

    The program's numbers are binary64.  Sums, increments and comparisons of
    integers are those of [Z] as long as every value stays below [2^53] in
    magnitude; beyond that a sum rounds, and a loop over such values runs not
    at all or does not advance.  A grid size, a coordinate or an extent of
    magnitude at most [2^50] keeps every sum the generator forms (a grid size
    plus a coordinate plus an extent) inside the exact range.  Theorems that
    range over arbitrary sizes and coordinates are stated for such inputs. *)
Definition exactRange (n : Z) : bool := (- 2 ^ 50 <=? n) && (n <=? 2 ^ 50).

Definition optionInRange (o : option Z) : bool :=
  match o with Some n => exactRange n | None => true end.

Definition specInRange (f : FixedTile.t) : bool :=
  exactRange (FixedTile.row f) && exactRange (FixedTile.col f)
  && exactRange (FixedTile.width f) && exactRange (FixedTile.height f)
  && optionInRange (FixedTile.altRow f) && optionInRange (FixedTile.altCol f)
  && optionInRange (FixedTile.altWidth f) && optionInRange (FixedTile.altHeight f).

(** The arguments of [new MosaicGenerator(W, H, fixed)]. *)
Definition inputsInRange (W H : Z) (fixed : list FixedTile.t) : bool :=
  exactRange W && exactRange H && forallb specInRange fixed.

(** The sizes of a generator and the arguments of [canPlaceTile] or
    [placeTile]. *)
Definition rectInRange (this : MosaicGenerator) (row col width height : Z) : bool :=
  exactRange (gridWidth this) && exactRange (gridHeight this)
  && exactRange row && exactRange col && exactRange width && exactRange height.

(** * Lemmas and theorems *)

Lemma bind_Ok {A B : Type} (m : result A) (k : A -> result B) (b : B) :
  bind m k = Ok b -> exists a, m = Ok a /\ k a = Ok b.
Proof. destruct m as [a|e]; simpl; [eauto | discriminate]. Qed.

(** ** Sampler: proofs *)

Section Sampler.

Lemma fold_left_weights_app (l1 l2 : list TileType.t) (a : float) :
  fold_left (fun acc t => (acc + TileType.weight t)%float) (l1 ++ l2) a
  = fold_left (fun acc t => (acc + TileType.weight t)%float) l2
      (fold_left (fun acc t => (acc + TileType.weight t)%float) l1 a).
Proof. apply fold_left_app. Qed.

(** The loop entered after [done] entries, with their sum as accumulator. *)
Lemma scanPalette_spec (rand : float) (rest done : list TileType.t) :
  let acc := fold_left (fun acc t => (acc + TileType.weight t)%float) done 0%float in
  (forall j, (j < length done)%nat -> exceeds (done ++ rest) rand j = false) ->
  match scanPalette rand acc rest with
  | Some t =>
      exists k, (done ++ rest) !! k = Some t
                /\ exceeds (done ++ rest) rand k = true
                /\ forall j, (j < k)%nat -> exceeds (done ++ rest) rand j = false
  | None =>
      forall j, (j < length (done ++ rest))%nat -> exceeds (done ++ rest) rand j = false
  end.
Proof.
  revert done. induction rest as [|t rest IH]; intros done acc Hdone.
  - simpl. rewrite app_nil_r in *. exact Hdone.
  - simpl.
    assert (Hcum : exceeds (done ++ t :: rest) rand (length done)
                   = (rand <? acc + TileType.weight t)%float).
    { unfold exceeds, cumulativeWeight.
      replace (take (S (length done)) (done ++ t :: rest)) with (done ++ [t]).
      - rewrite fold_left_weights_app. reflexivity.
      - replace (done ++ t :: rest) with ((done ++ [t]) ++ rest)
          by (rewrite <- app_assoc; reflexivity).
        rewrite take_app_le by (rewrite length_app; simpl; lia).
        rewrite take_ge by (rewrite length_app; simpl; lia). reflexivity. }
    destruct (rand <? acc + TileType.weight t)%float eqn:Hlt.
    + exists (length done). split; [|split].
      * rewrite lookup_app_r by lia. rewrite Nat.sub_diag. reflexivity.
      * exact Hcum.
      * exact Hdone.
    + specialize (IH (done ++ [t])).
      replace ((done ++ [t]) ++ rest) with (done ++ t :: rest) in IH
        by (rewrite <- app_assoc; reflexivity).
      rewrite fold_left_weights_app in IH. simpl in IH. apply IH.
      intros j Hj. rewrite length_app in Hj. simpl in Hj.
      destruct (decide (j = length done)) as [->|Hne]; [exact Hcum|].
      apply Hdone. lia.
Qed.

Lemma paletteExhausted_spec (palette : list TileType.t) (rand : float) :
  paletteExhausted palette rand = true
  <-> forall j, (j < length palette)%nat -> exceeds palette rand j = false.
Proof.
  unfold paletteExhausted. rewrite forallb_forall. split.
  - intros H j Hj. apply negb_true_iff, H, in_seq. lia.
  - intros H j Hj. apply negb_true_iff, H. apply in_seq in Hj. lia.
Qed.

Lemma getRandomTileTypeFrom_spec (palette : list TileType.t) (rand : float) :
  (exists k t, palette !! k = Some t
               /\ getRandomTileTypeFrom palette rand = Some t
               /\ exceeds palette rand k = true
               /\ forall j, (j < k)%nat -> exceeds palette rand j = false)
  \/ (paletteExhausted palette rand = true
      /\ getRandomTileTypeFrom palette rand = palette !! 0%nat).
Proof.
  pose proof (scanPalette_spec rand palette []) as H. simpl in H.
  unfold getRandomTileTypeFrom.
  destruct (scanPalette rand 0%float palette) as [t|].
  - left. destruct H as (k & Hk & He & Hf); [intros j Hj; inversion Hj|].
    exists k, t. auto.
  - right. split; [|reflexivity]. apply paletteExhausted_spec.
    apply H. intros j Hj; inversion Hj.
Qed.

End Sampler.

(** C6: for every draw (in particular every draw in [0,1)), the sampler
    returns the first palette entry, in declaration order, whose cumulative
    weight strictly exceeds the draw; when no entry does, it returns the first
    palette entry. *)
Theorem C6_sampler_first_exceeding (rand : float) :
  (exists k t, TILE_TYPES !! k = Some t
               /\ getRandomTileType rand = t
               /\ (rand <? cumulativeWeight TILE_TYPES k)%float = true
               /\ forall j, (j < k)%nat ->
                    (rand <? cumulativeWeight TILE_TYPES j)%float = false)
  \/ ((forall j, (j < length TILE_TYPES)%nat ->
         (rand <? cumulativeWeight TILE_TYPES j)%float = false)
      /\ TILE_TYPES !! 0%nat = Some (getRandomTileType rand)).
Proof.
  unfold getRandomTileType.
  destruct (getRandomTileTypeFrom_spec TILE_TYPES rand)
    as [(k & t & Hk & Hs & He & Hf) | [Hex Hs]].
  - left. exists k, t. rewrite Hs. auto.
  - right. split.
    + apply paletteExhausted_spec, Hex.
    + rewrite Hs. reflexivity.
Qed.

(** C7 (as the code has it): when the draw exhausts the palette without a
    cumulative-weight match, the sampler returns the first entry of the
    palette. *)
Theorem C7_sampler_fallback_first (rand : float) :
  paletteExhausted TILE_TYPES rand = true ->
  TILE_TYPES !! 0%nat = Some (getRandomTileType rand).
Proof.
  intros Hex. unfold getRandomTileType.
  destruct (getRandomTileTypeFrom_spec TILE_TYPES rand)
    as [(k & t & Hk & _ & He & _) | [_ ->]]; [|reflexivity].
  exfalso. apply paletteExhausted_spec with (j := k) in Hex.
  - rewrite He in Hex. discriminate.
  - apply lookup_lt_Some in Hk. exact Hk.
Qed.

Lemma C7_sampler_fallback_first_witness :
  paletteExhausted TILE_TYPES topDraw = true
  /\ TILE_TYPES !! 0%nat = Some (getRandomTileType topDraw).
Proof.
  split; [vm_compute; reflexivity|].
  apply (C7_sampler_fallback_first topDraw). vm_compute. reflexivity.
Defined.

(** C7 (as stated) fails: at [topDraw], a draw of [0,1), the palette is
    exhausted and the sampler's result is not the last palette entry. *)
Lemma C7_counterexample :
  (0 <=? topDraw)%float = true /\ (topDraw <? 1)%float = true
  /\ paletteExhausted TILE_TYPES topDraw = true
  /\ last TILE_TYPES = Some (TileType.mk 3 2 0.02)
  /\ getRandomTileType topDraw <> TileType.mk 3 2 0.02.
Proof.
  repeat split; try (vm_compute; reflexivity).
  intros H. apply (f_equal TileType.width) in H. vm_compute in H. discriminate.
Qed.

(** ** Occupancy: the view of the grid the proofs use *)

Section GridLemmas.

Implicit Types (g : list Row) (r c : Z) (cells : list (Z * Z)).

Lemma rowAt_Some g r : hasRow g r -> exists ro, rowAt g r = Some ro.
Proof.
  intros [H0 H1]. unfold rowAt.
  destruct (r <? 0) eqn:E; [apply Z.ltb_lt in E; lia|].
  destruct (lookup_lt_is_Some_2 g (Z.to_nat r)) as [ro Hro]; [lia|eauto].
Qed.

Lemma rowAt_hasRow g r ro : rowAt g r = Some ro -> hasRow g r.
Proof.
  unfold rowAt, hasRow. destruct (r <? 0) eqn:E; [discriminate|].
  apply Z.ltb_ge in E. intros H. apply lookup_lt_Some in H. lia.
Qed.

Lemma rowAt_None g r : rowAt g r = None -> ~ hasRow g r.
Proof.
  intros HN Hr. destruct (rowAt_Some g r Hr) as [ro Hro]. congruence.
Qed.

Lemma readCell_Ok g r c b :
  readCell g r c = Ok b <-> hasRow g r /\ b = occupied g r c.
Proof.
  unfold readCell, occupied. split.
  - destruct (rowAt g r) as [ro|] eqn:E; [|discriminate].
    intros [= <-]. split; [eapply rowAt_hasRow; eauto | reflexivity].
  - intros [Hr ->]. destruct (rowAt_Some g r Hr) as [ro ->]. reflexivity.
Qed.

Lemma readCell_hasRow g r c : hasRow g r -> readCell g r c = Ok (occupied g r c).
Proof. intros Hr. apply readCell_Ok. auto. Qed.

Lemma readCell_Throw g r c e :
  readCell g r c = Throw e -> ~ hasRow g r /\ e = TypeError.
Proof.
  unfold readCell. destruct (rowAt g r) as [ro|] eqn:E; [discriminate|].
  intros [= <-]. split; [apply rowAt_None; exact E | reflexivity].
Qed.

Lemma writeCell_Ok g r c g' :
  writeCell g r c = Ok g' ->
  hasRow g r /\ length g' = length g
  /\ forall r' c', occupied g' r' c'
                   = occupied g r' c' || ((r' =? r) && (c' =? c)).
Proof.
  unfold writeCell. destruct (rowAt g r) as [ro|] eqn:E; [|discriminate].
  intros [= <-]. pose proof (rowAt_hasRow _ _ _ E) as Hr.
  split; [exact Hr|]. split; [apply length_insert|].
  intros r' c'. unfold occupied, rowAt in *.
  destruct (r <? 0) eqn:Er; [discriminate|]. apply Z.ltb_ge in Er.
  destruct (r' <? 0) eqn:Er'.
  { apply Z.ltb_lt in Er'. replace (r' =? r) with false by (symmetry; apply Z.eqb_neq; lia).
    reflexivity. }
  apply Z.ltb_ge in Er'.
  destruct (Z.eqb_spec r' r) as [->|Hne].
  - rewrite list_lookup_insert_eq by (apply lookup_lt_Some in E; exact E).
    rewrite E. simpl.
    destruct (Z.eqb_spec c' c) as [->|Hc].
    + rewrite lookup_insert_eq. simpl. rewrite orb_true_r. reflexivity.
    + rewrite lookup_insert_ne by congruence. rewrite orb_false_r. reflexivity.
  - rewrite list_lookup_insert_ne by lia. simpl. rewrite orb_false_r. reflexivity.
Qed.

Lemma writeCell_hasRow g r c : hasRow g r -> exists g', writeCell g r c = Ok g'.
Proof.
  intros Hr. destruct (rowAt_Some g r Hr) as [ro Hro].
  unfold writeCell. rewrite Hro. eauto.
Qed.

Lemma writeCell_Throw g r c e :
  writeCell g r c = Throw e -> ~ hasRow g r /\ e = TypeError.
Proof.
  unfold writeCell. destruct (rowAt g r) as [ro|] eqn:E; [discriminate|].
  intros [= <-]. split; [apply rowAt_None; exact E | reflexivity].
Qed.

Lemma rectCells_In row col width height r c :
  In (r, c) (rectCells row col width height)
  <-> (row <= r < row + height) /\ (col <= c < col + width).
Proof.
  unfold rectCells. rewrite in_flat_map. split.
  - intros (r0 & Hr0 & Hin). apply in_map_iff in Hin.
    destruct Hin as (c0 & [= <- <-] & Hc0).
    apply list_elem_of_In, elem_of_seqZ in Hr0.
    apply list_elem_of_In, elem_of_seqZ in Hc0. lia.
  - intros [Hr Hc]. exists r. split.
    + apply list_elem_of_In, elem_of_seqZ. lia.
    + apply in_map_iff. exists c. split; [reflexivity|].
      apply list_elem_of_In, elem_of_seqZ. lia.
Qed.

Lemma anyOccupied_false g cells :
  anyOccupied g cells = Ok false
  <-> forall r c, In (r, c) cells -> hasRow g r /\ occupied g r c = false.
Proof.
  induction cells as [|[r0 c0] cells IH]; simpl.
  - split; [intros _ r c []|reflexivity].
  - split.
    + intros H. apply bind_Ok in H. destruct H as (occ & Hread & H).
      apply readCell_Ok in Hread. destruct Hread as [Hr ->].
      destruct (occupied g r0 c0) eqn:Eo; [discriminate|].
      intros r c [[= <- <-]|Hin]; [auto|]. apply IH; assumption.
    + intros H. destruct (H r0 c0 (or_introl eq_refl)) as [Hr Ho].
      rewrite (readCell_hasRow _ _ _ Hr), Ho. simpl. apply IH.
      intros r c Hin. apply H. right. exact Hin.
Qed.

Lemma anyOccupied_true g cells :
  anyOccupied g cells = Ok true ->
  exists r c, In (r, c) cells /\ occupied g r c = true.
Proof.
  induction cells as [|[r0 c0] cells IH]; simpl; [discriminate|].
  intros H. apply bind_Ok in H. destruct H as (occ & Hread & H).
  apply readCell_Ok in Hread. destruct Hread as [Hr ->].
  destruct (occupied g r0 c0) eqn:Eo.
  - exists r0, c0. auto.
  - destruct (IH H) as (r & c & Hin & Ho). exists r, c. auto.
Qed.

(** The overlap loops throw only at a cell whose row does not exist. *)
Lemma anyOccupied_returns g cells :
  (forall r c, In (r, c) cells -> hasRow g r) -> returns (anyOccupied g cells).
Proof.
  induction cells as [|[r0 c0] cells IH]; simpl; intros H.
  - eexists; reflexivity.
  - rewrite (readCell_hasRow g r0 c0) by (apply (H r0 c0); auto). simpl.
    destruct (occupied g r0 c0); [eexists; reflexivity|].
    apply IH. intros r c Hin. apply (H r c). auto.
Qed.

Lemma markCells_Ok g cells g' :
  markCells g cells = Ok g' ->
  length g' = length g
  /\ (forall r c, In (r, c) cells -> hasRow g r)
  /\ forall r c, occupied g' r c = true
                 <-> occupied g r c = true \/ In (r, c) cells.
Proof.
  revert g. induction cells as [|[r0 c0] cells IH]; simpl; intros g H.
  - injection H as <-. split; [reflexivity|]. split; [intros r c []|]. tauto.
  - apply bind_Ok in H. destruct H as (g1 & Hw & H).
    apply writeCell_Ok in Hw. destruct Hw as (Hr & Hlen & Hocc).
    destruct (IH _ H) as (Hlen' & Hrows & Hocc').
    split; [congruence|]. split.
    + intros r c [[= <- <-]|Hin]; [exact Hr|].
      specialize (Hrows r c Hin). unfold hasRow in *. rewrite Hlen in Hrows. exact Hrows.
    + intros r c. rewrite Hocc', Hocc, orb_true_iff, andb_true_iff.
      rewrite !Z.eqb_eq. split.
      * intros [[?|[-> ->]]|?]; auto.
      * intros [?|[[= -> ->]|?]]; auto.
Qed.

Lemma markCells_returns g cells :
  (forall r c, In (r, c) cells -> hasRow g r) -> returns (markCells g cells).
Proof.
  revert g. induction cells as [|[r0 c0] cells IH]; simpl; intros g H.
  - eexists; reflexivity.
  - destruct (writeCell_hasRow g r0 c0) as [g1 Hw]; [apply (H r0 c0); auto|].
    rewrite Hw. simpl. apply IH. intros r c Hin.
    apply writeCell_Ok in Hw. destruct Hw as (_ & Hlen & _).
    unfold hasRow. rewrite Hlen. apply (H r c). auto.
Qed.

End GridLemmas.

(** ** Coverage bookkeeping *)

Section Invariant.

Variables (W H : Z) (fixed : list FixedTile.t).

Lemma covers_rectCells (t : Tile.t) (r c : Z) :
  covers t r c = true
  <-> In (r, c) (rectCells (Tile.row t) (Tile.col t) (Tile.width t) (Tile.height t)).
Proof.
  rewrite rectCells_In. unfold covers.
  rewrite !andb_true_iff, !Z.leb_le, !Z.ltb_lt. lia.
Qed.

Lemma coverCount_snoc (tiles : list Tile.t) (t : Tile.t) (r c : Z) :
  coverCount (tiles ++ [t]) r c
  = (coverCount tiles r c + Nat.b2n (covers t r c))%nat.
Proof.
  unfold coverCount. rewrite List.filter_app, length_app. simpl.
  destruct (covers t r c); reflexivity.
Qed.

Lemma sameConfig_setGrid (this : MosaicGenerator) (g : list Row) :
  sameConfig W H fixed this -> sameConfig W H fixed (setGrid this g).
Proof. unfold sameConfig. simpl. tauto. Qed.

Lemma canPlaceTile_true (this : MosaicGenerator) (row col width height : Z) :
  canPlaceTile this row col width height = Ok true
  <-> row + height <= gridHeight this /\ col + width <= gridWidth this
      /\ forall r c, In (r, c) (rectCells row col width height) ->
           hasRow (grid this) r /\ occupied (grid this) r c = false.
Proof.
  unfold canPlaceTile.
  destruct (row + height >? gridHeight this) eqn:E1; simpl.
  { apply Z.gtb_lt in E1. split; [discriminate | lia]. }
  destruct (col + width >? gridWidth this) eqn:E2; simpl.
  { apply Z.gtb_lt in E2. split; [discriminate | lia]. }
  pose proof (Zgt_cases (row + height) (gridHeight this)) as C1. rewrite E1 in C1.
  pose proof (Zgt_cases (col + width) (gridWidth this)) as C2. rewrite E2 in C2.
  split.
  - intros Hb. apply bind_Ok in Hb. destruct Hb as (occ & Hany & [= Hocc]).
    destruct occ; [discriminate|].
    pose proof (proj1 (anyOccupied_false _ _) Hany). auto.
  - intros (_ & _ & Hcells). apply (proj2 (anyOccupied_false _ _)) in Hcells.
    rewrite Hcells. reflexivity.
Qed.

(** [canPlaceTile] returns whenever the rows it would read exist; on a grid
    of [gridHeight] rows a non-negative [row] is enough. *)
Lemma canPlaceTile_returns (this : MosaicGenerator) (row col width height : Z) :
  length (grid this) = Z.to_nat (gridHeight this) ->
  0 <= row ->
  returns (canPlaceTile this row col width height).
Proof.
  intros Hlen Hrow. unfold canPlaceTile.
  destruct (row + height >? gridHeight this) eqn:E1; simpl; [eexists; reflexivity|].
  destruct (col + width >? gridWidth this) eqn:E2; simpl; [eexists; reflexivity|].
  pose proof (Zgt_cases (row + height) (gridHeight this)) as C1. rewrite E1 in C1.
  destruct (anyOccupied_returns (grid this) (rectCells row col width height))
    as [b Hb].
  - intros r c Hin. apply rectCells_In in Hin. unfold hasRow. rewrite Hlen. lia.
  - rewrite Hb. eexists; reflexivity.
Qed.

Lemma placeTile_Ok (this this' : MosaicGenerator) (row col width height : Z) :
  placeTile this row col width height = Ok this' ->
  this' = setGrid this (grid this')
  /\ length (grid this') = length (grid this)
  /\ forall r c, occupied (grid this') r c = true
                 <-> occupied (grid this) r c = true
                     \/ In (r, c) (rectCells row col width height).
Proof.
  unfold placeTile. intros Hp. apply bind_Ok in Hp.
  destruct Hp as (g & Hm & [= <-]). simpl.
  apply markCells_Ok in Hm. destruct Hm as (Hlen & _ & Hocc). auto.
Qed.

Lemma placeTile_returns (this : MosaicGenerator) (row col width height : Z) :
  (forall r c, In (r, c) (rectCells row col width height) -> hasRow (grid this) r) ->
  returns (placeTile this row col width height).
Proof.
  intros Hrows. unfold placeTile.
  destruct (markCells_returns _ _ Hrows) as [g Hg]. rewrite Hg.
  eexists; reflexivity.
Qed.

(** Placing a tile that [canPlaceTile] accepted keeps the invariant. *)
Lemma place_preserves_Inv (this this' : MosaicGenerator) (tiles : list Tile.t)
    (t : Tile.t) :
  Inv W H fixed this tiles ->
  canPlaceTile this (Tile.row t) (Tile.col t) (Tile.width t) (Tile.height t) = Ok true ->
  placeTile this (Tile.row t) (Tile.col t) (Tile.width t) (Tile.height t) = Ok this' ->
  tileBound W H t ->
  Inv W H fixed this' (tiles ++ [t]).
Proof.
  intros [Hcfg (Hlen & Hcov & Hbnd)] Hcan Hplace Ht.
  apply canPlaceTile_true in Hcan. destruct Hcan as (_ & _ & Hfree).
  apply placeTile_Ok in Hplace. destruct Hplace as (Hthis & Hlen' & Hocc).
  split; [rewrite Hthis; apply sameConfig_setGrid, Hcfg|].
  split; [congruence|]. split.
  - intros r c. rewrite coverCount_snoc, Hcov.
    destruct (covers t r c) eqn:Ec.
    + apply covers_rectCells in Ec. destruct (Hfree r c Ec) as [_ Hf].
      rewrite Hf. replace (occupied (grid this') r c) with true; [reflexivity|].
      symmetry. apply Hocc. auto.
    + simpl. rewrite Nat.add_0_r. f_equal.
      destruct (occupied (grid this) r c) eqn:Eo.
      * symmetry. apply Hocc. auto.
      * destruct (occupied (grid this') r c) eqn:Eo'; [|reflexivity].
        apply Hocc in Eo'. destruct Eo' as [?|Hin]; [congruence|].
        apply covers_rectCells in Hin. congruence.
  - apply Forall_app. split; [exact Hbnd|]. constructor; [exact Ht|constructor].
Qed.

End Invariant.

(** ** The phases of a generation pass *)

Section Phases.

Variables (W H : Z) (fixed : list FixedTile.t).

Lemma position_sameConfig (this : MosaicGenerator) (f : FixedTile.t) (ua : bool) :
  sameConfig W H fixed this ->
  getNormalizedTilePosition this f ua = positionOn W H f ua.
Proof.
  intros (HW & HH & _). unfold positionOn, getNormalizedTilePosition. simpl.
  rewrite HW, HH. reflexivity.
Qed.

Lemma isValidPlacement_true (this : MosaicGenerator) (row col width height : Z) :
  isValidPlacement this row col width height = Ok true
  <-> col + width <= gridWidth this - 1 /\ row + height <= gridHeight this - 1
      /\ canPlaceTile this row col width height = Ok true.
Proof.
  unfold isValidPlacement.
  destruct (Z.leb_spec (col + width) (gridWidth this - 1)); simpl.
  2: { split; [discriminate | lia]. }
  destruct (Z.leb_spec (row + height) (gridHeight this - 1)); simpl.
  2: { split; [discriminate | lia]. }
  tauto.
Qed.

Lemma isValidPlacement_returns (this : MosaicGenerator) (row col width height : Z) :
  length (grid this) = Z.to_nat (gridHeight this) ->
  0 <= row ->
  returns (isValidPlacement this row col width height).
Proof.
  intros Hlen Hrow. unfold isValidPlacement.
  destruct (negb _); [eexists; reflexivity|].
  destruct (negb _); [eexists; reflexivity|].
  apply canPlaceTile_returns; assumption.
Qed.

(** A check that said yes is followed by a [placeTile] that returns. *)
Lemma placeTile_after_check (this : MosaicGenerator) (row col width height : Z) :
  canPlaceTile this row col width height = Ok true ->
  returns (placeTile this row col width height).
Proof.
  intros Hcan. apply canPlaceTile_true in Hcan. destruct Hcan as (_ & _ & Hfree).
  apply placeTile_returns. intros r c Hin. apply (Hfree r c Hin).
Qed.

Lemma fixedTile_bound (this : MosaicGenerator) (f : FixedTile.t) (ua : bool) :
  sameConfig W H fixed this ->
  isValidPosition this (positionOn W H f ua) = Ok true ->
  tileBound W H (fixedTileOn W H ua f).
Proof.
  intros (HW & HH & _) Hv. apply isValidPlacement_true in Hv.
  unfold tileBound, fixedTileOn. simpl. lia.
Qed.

(** One fixed tile: either it is skipped, or it passed the check and its
    tile is appended. *)
Lemma placeFixedTile_spec (this : MosaicGenerator) (tiles : list Tile.t)
    (f : FixedTile.t) (ua : bool) (st : MosaicGenerator * list Tile.t) :
  Inv W H fixed this tiles ->
  placeFixedTile this tiles f ua = Ok st ->
  Inv W H fixed (fst st) (snd st)
  /\ ((isValidPosition this (positionOn W H f ua) = Ok false /\ st = (this, tiles))
      \/ (isValidPosition this (positionOn W H f ua) = Ok true
          /\ snd st = tiles ++ [fixedTileOn W H ua f])).
Proof.
  intros HI Hp. unfold placeFixedTile in Hp.
  rewrite (position_sameConfig this f ua (proj1 HI)) in Hp.
  apply bind_Ok in Hp. destruct Hp as (ok & Hv & Hp). destruct ok.
  - apply bind_Ok in Hp. destruct Hp as (this' & Hplace & [= <-]). simpl.
    split; [|right; split; [exact Hv | reflexivity]].
    pose proof Hv as Hv'. apply isValidPlacement_true in Hv'.
    destruct Hv' as (_ & _ & Hcan).
    apply (place_preserves_Inv W H fixed this this' tiles (fixedTileOn W H ua f)).
    + exact HI.
    + exact Hcan.
    + exact Hplace.
    + eapply fixedTile_bound; [exact (proj1 HI) | exact Hv].
  - injection Hp as <-. split; [exact HI | left; auto].
Qed.

Lemma placeFixedTile_returns (this : MosaicGenerator) (tiles : list Tile.t)
    (f : FixedTile.t) (ua : bool) :
  Inv W H fixed this tiles ->
  0 <= p_row (positionOn W H f ua) ->
  returns (placeFixedTile this tiles f ua).
Proof.
  intros HI Hrow. unfold placeFixedTile.
  rewrite (position_sameConfig this f ua (proj1 HI)).
  destruct HI as [(HW & HH & _) (Hlen & _)].
  destruct (isValidPlacement_returns this (p_row (positionOn W H f ua))
              (p_col (positionOn W H f ua)) (p_width (positionOn W H f ua))
              (p_height (positionOn W H f ua))) as [ok Hok];
    [congruence | exact Hrow |].
  unfold isValidPosition. rewrite Hok. simpl. destruct ok; [|eexists; reflexivity].
  apply isValidPlacement_true in Hok. destruct Hok as (_ & _ & Hcan).
  destruct (placeTile_after_check _ _ _ _ _ Hcan) as [this' Hthis'].
  rewrite Hthis'. eexists; reflexivity.
Qed.

Lemma placeFixedLoop_spec (ua : bool) (rest : list FixedTile.t) :
  forall (this : MosaicGenerator) (tiles : list Tile.t)
         (st : MosaicGenerator * list Tile.t),
  Inv W H fixed this tiles ->
  placeFixedLoop this tiles ua rest = Ok st ->
  Inv W H fixed (fst st) (snd st)
  /\ exists placed, placed `sublist_of` rest
                    /\ snd st = tiles ++ map (fixedTileOn W H ua) placed.
Proof.
  induction rest as [|f rest IH]; simpl; intros this tiles st HI Hloop.
  - injection Hloop as <-. split; [exact HI|]. exists []. simpl.
    rewrite app_nil_r. split; [constructor | reflexivity].
  - apply bind_Ok in Hloop. destruct Hloop as (st1 & Hstep & Hloop).
    destruct (placeFixedTile_spec _ _ _ _ _ HI Hstep) as [HI1 Hcase].
    destruct (IH _ _ _ HI1 Hloop) as [HI2 (placed & Hsub & Heq)].
    split; [exact HI2|].
    destruct Hcase as [[_ ->] | [_ Hsnd]].
    + exists placed. split; [apply sublist_cons; exact Hsub | exact Heq].
    + exists (f :: placed). split; [apply sublist_skip; exact Hsub|].
      rewrite Heq, Hsnd, <- app_assoc. reflexivity.
Qed.

Lemma placeFixedLoop_returns (ua : bool) (rest : list FixedTile.t) :
  forall (this : MosaicGenerator) (tiles : list Tile.t),
  Inv W H fixed this tiles ->
  (forall f, In f rest -> 0 <= p_row (positionOn W H f ua)) ->
  returns (placeFixedLoop this tiles ua rest).
Proof.
  induction rest as [|f rest IH]; simpl; intros this tiles HI Hrows.
  - eexists; reflexivity.
  - destruct (placeFixedTile_returns this tiles f ua HI) as [st1 Hst1]; [auto|].
    rewrite Hst1. simpl.
    apply IH; [|auto]. eapply placeFixedTile_spec; eauto.
Qed.

Lemma In_sublist_singleton {A : Type} (x : A) (l : list A) :
  In x l -> [x] `sublist_of` l.
Proof.
  induction l as [|y l IH]; simpl; [tauto|].
  intros [->|Hin].
  - apply sublist_skip, sublist_nil_l.
  - apply sublist_cons, IH, Hin.
Qed.

(** The fixed-tile phase: the invariant is kept, and the tiles it appends
    are the tiles of a sub-sequence of the specs, all at primary or all at
    alternate positions; under the fallback strategy that sub-sequence is
    empty or the one essential tile. *)
Lemma placeFixedTiles_spec (this : MosaicGenerator) (tiles : list Tile.t)
    (s : Strategy) (st : MosaicGenerator * list Tile.t) :
  Inv W H fixed this tiles ->
  placeFixedTiles this tiles s = Ok st ->
  Inv W H fixed (fst st) (snd st)
  /\ exists placed, placed `sublist_of` fixed
       /\ snd st = tiles ++ map (fixedTileOn W H (usesAlternative s)) placed
       /\ (s = fallback ->
           placed = []
           \/ exists charlieTile, List.find isCharlie fixed = Some charlieTile
                                  /\ placed = [charlieTile]).
Proof.
  intros HI Hp. pose proof (proj1 HI) as (_ & _ & Hfx).
  destruct s; simpl in Hp; rewrite ?Hfx in Hp.
  - destruct (placeFixedLoop_spec _ _ _ _ _ HI Hp) as [HI' (placed & Hsub & Heq)].
    split; [exact HI'|]. exists placed. repeat split; auto. discriminate.
  - destruct (placeFixedLoop_spec _ _ _ _ _ HI Hp) as [HI' (placed & Hsub & Heq)].
    split; [exact HI'|]. exists placed. repeat split; auto. discriminate.
  - unfold placeEssentialTiles in Hp. rewrite Hfx in Hp.
    destruct (List.find isCharlie fixed) as [ch|] eqn:Ef.
    + destruct (placeFixedTile_spec _ _ _ _ _ HI Hp) as [HI' Hcase].
      split; [exact HI'|].
      destruct Hcase as [[_ ->] | [_ Hsnd]].
      * exists []. simpl. rewrite app_nil_r. repeat split; auto. apply sublist_nil_l.
      * exists [ch]. split; [|split; [exact Hsnd | eauto]].
        apply In_sublist_singleton. apply find_some in Ef. apply Ef.
    + injection Hp as <-. split; [exact HI|]. exists []. simpl.
      rewrite app_nil_r. repeat split; auto. apply sublist_nil_l.
Qed.

(** The random phase. *)

Lemma randomTile_bound (this : MosaicGenerator) (rs : RandomSource) (a : nat) :
  sameConfig W H fixed this ->
  canPlaceTile this (Tile.row (randomTile rs a)) (Tile.col (randomTile rs a))
               (Tile.width (randomTile rs a)) (Tile.height (randomTile rs a))
  = Ok true ->
  tileBound W H (randomTile rs a).
Proof.
  intros (HW & HH & _) Hcan. apply canPlaceTile_true in Hcan.
  unfold tileBound. simpl in *. lia.
Qed.

Lemma placeRandomTile_spec (this : MosaicGenerator) (rs : RandomSource)
    (tiles : list Tile.t) (a : nat) (st : MosaicGenerator * list Tile.t) :
  Inv W H fixed this tiles ->
  placeRandomTile this rs tiles a = Ok st ->
  Inv W H fixed (fst st) (snd st)
  /\ (st = (this, tiles) \/ snd st = tiles ++ [randomTile rs a]).
Proof.
  intros HI Hp. unfold placeRandomTile in Hp.
  apply bind_Ok in Hp. destruct Hp as (ok & Hcan & Hp). destruct ok.
  - apply bind_Ok in Hp. destruct Hp as (this' & Hplace & [= <-]). simpl.
    split; [|right; reflexivity].
    apply (place_preserves_Inv W H fixed this this' tiles (randomTile rs a));
      [exact HI | exact Hcan | exact Hplace |].
    eapply randomTile_bound; [exact (proj1 HI) | exact Hcan].
  - injection Hp as <-. split; [exact HI | left; reflexivity].
Qed.

Lemma placeRandomTile_returns (this : MosaicGenerator) (rs : RandomSource)
    (tiles : list Tile.t) (a : nat) :
  Inv W H fixed this tiles ->
  0 <= rowDraw rs a ->
  returns (placeRandomTile this rs tiles a).
Proof.
  intros [(HW & HH & _) (Hlen & _)] Hrow. unfold placeRandomTile.
  destruct (canPlaceTile_returns this (Tile.row (randomTile rs a))
              (Tile.col (randomTile rs a)) (Tile.width (randomTile rs a))
              (Tile.height (randomTile rs a))) as [ok Hok];
    [congruence | exact Hrow |].
  cbv zeta. rewrite Hok. cbn [bind]. destruct ok; [|eexists; reflexivity].
  destruct (placeTile_after_check _ _ _ _ _ Hok) as [this' Hthis'].
  rewrite Hthis'. eexists; reflexivity.
Qed.

Lemma placeRandomLoop_spec (rs : RandomSource) (n : nat) :
  forall (a : nat) (this : MosaicGenerator) (tiles : list Tile.t)
         (st : MosaicGenerator * list Tile.t),
  Inv W H fixed this tiles ->
  placeRandomLoop n a this rs tiles = Ok st ->
  Inv W H fixed (fst st) (snd st)
  /\ exists attempts, attempts `sublist_of` seq a n
                      /\ snd st = tiles ++ map (randomTile rs) attempts.
Proof.
  induction n as [|n IH]; simpl; intros a this tiles st HI Hloop.
  - injection Hloop as <-. split; [exact HI|]. exists []. simpl.
    rewrite app_nil_r. split; [constructor | reflexivity].
  - apply bind_Ok in Hloop. destruct Hloop as (st1 & Hstep & Hloop).
    destruct (placeRandomTile_spec _ _ _ _ _ HI Hstep) as [HI1 Hcase].
    destruct (IH _ _ _ _ HI1 Hloop) as [HI2 (attempts & Hsub & Heq)].
    split; [exact HI2|].
    destruct Hcase as [-> | Hsnd].
    + exists attempts. split; [apply sublist_cons; exact Hsub | exact Heq].
    + exists (a :: attempts). split; [apply sublist_skip; exact Hsub|].
      rewrite Heq, Hsnd, <- app_assoc. reflexivity.
Qed.

Lemma placeRandomLoop_returns (rs : RandomSource) (n : nat) :
  forall (a : nat) (this : MosaicGenerator) (tiles : list Tile.t),
  Inv W H fixed this tiles ->
  (forall i, 0 <= rowDraw rs i) ->
  returns (placeRandomLoop n a this rs tiles).
Proof.
  induction n as [|n IH]; simpl; intros a this tiles HI Hrows.
  - eexists; reflexivity.
  - destruct (placeRandomTile_returns this rs tiles a HI (Hrows a)) as [st1 Hst1].
    rewrite Hst1. simpl.
    apply IH; [|exact Hrows]. eapply placeRandomTile_spec; eauto.
Qed.

End Phases.

(** ** Gap filling, reset and the whole pass *)

Section Pass.

Variables (W H : Z) (fixed : list FixedTile.t).

Lemma covers_fillTile (rs : RandomSource) (r0 c0 r c : Z) :
  covers (fillTile rs (r0, c0)) r c = (r =? r0) && (c =? c0).
Proof.
  apply eq_true_iff_eq. unfold covers. simpl.
  rewrite !andb_true_iff, !Z.leb_le, !Z.ltb_lt, !Z.eqb_eq. lia.
Qed.

Lemma fillLoop_spec (rs : RandomSource) (cells : list (Z * Z)) :
  forall (g : list Row) (tiles : list Tile.t) (st : list Row * list Tile.t),
  GridInv W H g tiles ->
  (forall r c, In (r, c) cells -> r + 1 <= H /\ c + 1 <= W) ->
  fillLoop g rs tiles cells = Ok st ->
  GridInv W H (fst st) (snd st)
  /\ (forall r c, occupied g r c = true -> occupied (fst st) r c = true)
  /\ (forall r c, In (r, c) cells -> occupied (fst st) r c = true)
  /\ exists filled, filled `sublist_of` cells
                    /\ snd st = tiles ++ map (fillTile rs) filled.
Proof.
  induction cells as [|[r0 c0] cells IH]; simpl; intros g tiles st HG Hin Hloop.
  - injection Hloop as <-. simpl. split; [exact HG|]. split; [auto|].
    split; [intros r c []|]. exists []. simpl. rewrite app_nil_r.
    split; [constructor | reflexivity].
  - apply bind_Ok in Hloop. destruct Hloop as (occ & Hread & Hloop).
    apply readCell_Ok in Hread. destruct Hread as [Hrow ->].
    assert (Hin' : forall r c, In (r, c) cells -> r + 1 <= H /\ c + 1 <= W)
      by (intros r c Hc; apply Hin; auto).
    destruct (occupied g r0 c0) eqn:Eo.
    + destruct (IH _ _ _ HG Hin' Hloop) as (HG' & Hmono & Hall & filled & Hsub & Heq).
      split; [exact HG'|]. split; [exact Hmono|]. split.
      * intros r c [[= <- <-]|Hc]; [apply Hmono; exact Eo | apply Hall; exact Hc].
      * exists filled. split; [apply sublist_cons; exact Hsub | exact Heq].
    + apply bind_Ok in Hloop. destruct Hloop as (g1 & Hw & Hloop).
      apply writeCell_Ok in Hw. destruct Hw as (_ & Hlen1 & Hocc1).
      assert (HG1 : GridInv W H g1 (tiles ++ [fillTile rs (r0, c0)])).
      { destruct HG as (Hlen & Hcov & Hbnd). split; [congruence|]. split.
        - intros r c. rewrite coverCount_snoc, Hcov, Hocc1, covers_fillTile.
          destruct ((r =? r0) && (c =? c0)) eqn:Ecell.
          + apply andb_true_iff in Ecell. rewrite !Z.eqb_eq in Ecell.
            destruct Ecell as [-> ->]. rewrite Eo. reflexivity.
          + rewrite orb_false_r. simpl. lia.
        - apply Forall_app. split; [exact Hbnd|]. constructor; [|constructor].
          unfold tileBound. simpl. apply (Hin r0 c0). auto. }
      destruct (IH _ _ _ HG1 Hin' Hloop) as (HG' & Hmono & Hall & filled & Hsub & Heq).
      split; [exact HG'|]. split; [|split].
      * intros r c Ho. apply Hmono. rewrite Hocc1, Ho. reflexivity.
      * intros r c [[= <- <-]|Hc]; [|apply Hall; exact Hc].
        apply Hmono. rewrite Hocc1, !Z.eqb_refl, orb_true_r. reflexivity.
      * exists ((r0, c0) :: filled). split; [apply sublist_skip; exact Hsub|].
        rewrite Heq, <- app_assoc. reflexivity.
Qed.

Lemma fillLoop_returns (rs : RandomSource) (cells : list (Z * Z)) :
  forall (g : list Row) (tiles : list Tile.t),
  (forall r c, In (r, c) cells -> hasRow g r) ->
  returns (fillLoop g rs tiles cells).
Proof.
  induction cells as [|[r0 c0] cells IH]; simpl; intros g tiles Hrows.
  - eexists; reflexivity.
  - rewrite (readCell_hasRow g r0 c0) by (apply (Hrows r0 c0); auto). cbn [bind].
    destruct (occupied g r0 c0).
    + apply IH. intros r c Hc. apply (Hrows r c). auto.
    + destruct (writeCell_hasRow g r0 c0) as [g1 Hw]; [apply (Hrows r0 c0); auto|].
      rewrite Hw. cbn [bind]. apply IH. intros r c Hc.
      apply writeCell_Ok in Hw. destruct Hw as (_ & Hlen & _).
      unfold hasRow. rewrite Hlen. apply (Hrows r c). auto.
Qed.

Lemma fillEmptyCells_spec (this : MosaicGenerator) (rs : RandomSource)
    (tiles : list Tile.t) (st : MosaicGenerator * list Tile.t) :
  Inv W H fixed this tiles ->
  fillEmptyCells this rs tiles = Ok st ->
  Inv W H fixed (fst st) (snd st)
  /\ (forall r c, 0 <= r < H -> 0 <= c < W -> occupied (grid (fst st)) r c = true)
  /\ exists filled, filled `sublist_of` rectCells 0 0 W H
                    /\ snd st = tiles ++ map (fillTile rs) filled.
Proof.
  intros [Hcfg HG] Hf. unfold fillEmptyCells in Hf.
  pose proof Hcfg as (HW & HH & _). rewrite HW, HH in Hf.
  apply bind_Ok in Hf. destruct Hf as (st1 & Hloop & [= <-]). simpl.
  destruct (fillLoop_spec rs (rectCells 0 0 W H) (grid this) tiles st1 HG)
    as (HG' & _ & Hall & filled & Hsub & Heq); [|exact Hloop|].
  { intros r c Hin. apply rectCells_In in Hin. lia. }
  split; [split; [apply sameConfig_setGrid, Hcfg | exact HG']|].
  split; [|eauto].
  intros r c Hr Hc. apply Hall, rectCells_In. lia.
Qed.

Lemma fillEmptyCells_returns (this : MosaicGenerator) (rs : RandomSource)
    (tiles : list Tile.t) :
  Inv W H fixed this tiles ->
  returns (fillEmptyCells this rs tiles).
Proof.
  intros [(HW & HH & _) (Hlen & _)]. unfold fillEmptyCells.
  destruct (fillLoop_returns rs (rectCells 0 0 (gridWidth this) (gridHeight this))
              (grid this) tiles) as [st1 Hst1].
  - intros r c Hin. apply rectCells_In in Hin. unfold hasRow. rewrite Hlen. lia.
  - rewrite Hst1. eexists; reflexivity.
Qed.

(** A fresh row holds [false] at every key it has. *)
Lemma newRow_unoccupied (w : Z) (ro : Row) (c : Z) :
  newRow w = Ok ro -> default false (ro !! c) = false.
Proof.
  unfold newRow. destruct (validArrayLength w); [|discriminate].
  intros [= <-]. destruct (_ !! c) as [b|] eqn:E; [|reflexivity]. simpl.
  apply elem_of_list_to_map_2 in E. apply list_elem_of_fmap in E.
  destruct E as (c' & [= _ ->] & _). reflexivity.
Qed.

Lemma newRows_Ok (n : nat) (w : Z) (rows : list Row) :
  newRows n w = Ok rows ->
  length rows = n
  /\ forall i ro c, rows !! i = Some ro -> default false (ro !! c) = false.
Proof.
  revert rows. induction n as [|n IH]; simpl; intros rows Hr.
  - injection Hr as <-. split; [reflexivity|]. intros i ro c Hi. destruct i; discriminate.
  - apply bind_Ok in Hr. destruct Hr as (ro0 & Hro0 & Hr).
    apply bind_Ok in Hr. destruct Hr as (rs' & Hrs' & [= <-]).
    destruct (IH _ Hrs') as [Hlen Hall]. split; [simpl; congruence|].
    intros [|i] ro c Hi; simpl in Hi.
    + injection Hi as <-. eapply newRow_unoccupied; eauto.
    + eapply Hall; eauto.
Qed.

Lemma newRows_returns (n : nat) (w : Z) :
  returns (newRows n w) <-> n = O \/ validArrayLength w = true.
Proof.
  split.
  - destruct n as [|n]; [auto|]. simpl. intros [rows Hr]. right.
    apply bind_Ok in Hr. destruct Hr as (ro & Hro & _).
    unfold newRow in Hro. destruct (validArrayLength w); [reflexivity|discriminate].
  - intros [->|Hw]; [eexists; reflexivity|].
    induction n as [|n [rows IH]]; simpl; [eexists; reflexivity|].
    unfold newRow. rewrite Hw. cbn [bind]. rewrite IH. eexists; reflexivity.
Qed.

Lemma resetGrid_returns (this : MosaicGenerator) :
  returns (resetGrid this)
  <-> validArrayLength (gridHeight this) = true
      /\ (gridHeight this = 0 \/ validArrayLength (gridWidth this) = true).
Proof.
  unfold resetGrid.
  destruct (validArrayLength (gridHeight this)) eqn:EH.
  2: { split; [intros [x Hx]; discriminate | intros [? _]; discriminate]. }
  unfold validArrayLength in EH. apply andb_true_iff in EH.
  rewrite Z.leb_le, Z.ltb_lt in EH.
  split.
  - intros [this' Hr]. apply bind_Ok in Hr. destruct Hr as (rows & Hrows & _).
    split; [reflexivity|].
    destruct (proj1 (newRows_returns _ _) (ex_intro _ rows Hrows)) as [Hz|Hw];
      [left; lia | right; exact Hw].
  - intros [_ Hor].
    destruct (proj2 (newRows_returns (Z.to_nat (gridHeight this)) (gridWidth this)))
      as [rows Hrows].
    + destruct Hor as [->|Hw]; [left; reflexivity | right; exact Hw].
    + rewrite Hrows. eexists; reflexivity.
Qed.

(** After a reset the invariant holds with no tile placed. *)
Lemma resetGrid_Ok (this this' : MosaicGenerator) :
  sameConfig W H fixed this ->
  resetGrid this = Ok this' ->
  Inv W H fixed this' []
  /\ forall r c, occupied (grid this') r c = false.
Proof.
  intros Hcfg Hr. unfold resetGrid in Hr.
  destruct (validArrayLength (gridHeight this)); [|discriminate].
  apply bind_Ok in Hr. destruct Hr as (rows & Hrows & [= <-]).
  apply newRows_Ok in Hrows. destruct Hrows as [Hlen Hall].
  assert (Hfree : forall r c, occupied rows r c = false).
  { intros r c. unfold occupied, rowAt. destruct (r <? 0); [reflexivity|].
    destruct (rows !! Z.to_nat r) as [ro|] eqn:E; [|reflexivity].
    eapply Hall; eauto. }
  split; [|exact Hfree].
  split; [apply sameConfig_setGrid, Hcfg|]. simpl.
  destruct Hcfg as (_ & HH & _). split; [congruence|]. split.
  - intros r c. rewrite Hfree. reflexivity.
  - constructor.
Qed.

End Pass.

(** ** The strategy decision and the returned list *)

Section Strategy.

Variables (W H : Z) (fixed : list FixedTile.t).

Lemma every_true {A : Type} (f : A -> result bool) (l : list A) :
  every f l = Ok true <-> forall x, In x l -> f x = Ok true.
Proof.
  induction l as [|x l IH]; simpl.
  - split; [intros _ y [] | reflexivity].
  - split.
    + intros He. apply bind_Ok in He. destruct He as (b & Hb & He).
      destruct b; [|discriminate].
      intros y [<-|Hy]; [exact Hb | apply IH; assumption].
    + intros Hall. rewrite (Hall x) by auto. cbn [bind]. apply IH.
      intros y Hy. apply Hall. auto.
Qed.

Lemma every_false {A : Type} (f : A -> result bool) (l : list A) :
  every f l = Ok false -> exists x, In x l /\ f x = Ok false.
Proof.
  induction l as [|x l IH]; simpl; [discriminate|].
  intros He. apply bind_Ok in He. destruct He as (b & Hb & He).
  destruct b.
  - destruct (IH He) as (y & Hy & Hfy). exists y. auto.
  - exists x. auto.
Qed.

Lemma every_returns {A : Type} (f : A -> result bool) (l : list A) :
  (forall x, In x l -> returns (f x)) -> returns (every f l).
Proof.
  induction l as [|x l IH]; simpl; intros Hall.
  - eexists; reflexivity.
  - destruct (Hall x) as [b Hb]; [auto|]. rewrite Hb. cbn [bind].
    destruct b; [|eexists; reflexivity]. apply IH. intros y Hy. apply Hall. auto.
Qed.

(** A tile that declares no alternate position is tested at its primary
    position by both feasibility checks. *)
Lemma position_no_alternative (this : MosaicGenerator) (f : FixedTile.t) :
  hasAlternative f = false ->
  getNormalizedTilePosition this f true = getNormalizedTilePosition this f false.
Proof.
  unfold hasAlternative, getNormalizedTilePosition.
  destruct (FixedTile.altRow f), (FixedTile.altCol f); (discriminate || reflexivity).
Qed.

(** The two feasibility checks, as [every] over one test each. *)
Lemma determinePlacementStrategy_unfold (this : MosaicGenerator) :
  sameConfig W H fixed this ->
  determinePlacementStrategy this
  = (let* canPlacePrimary :=
       every (fun f => isValidPosition this (positionOn W H f false)) fixed in
     if canPlacePrimary then Ok primary
     else
       let* canPlaceAlternative :=
         every (fun f => isValidPosition this (positionOn W H f true)) fixed in
       Ok (if canPlaceAlternative then alternative else fallback)).
Proof.
  intros Hcfg. pose proof Hcfg as (_ & _ & Hfx).
  unfold determinePlacementStrategy. rewrite Hfx.
  assert (E1 : forall l,
    every (fun tile => isValidPosition this (getNormalizedTilePosition this tile false)) l
    = every (fun f => isValidPosition this (positionOn W H f false)) l).
  { induction l as [|x l IH]; cbn [every]; [reflexivity|].
    rewrite (position_sameConfig W H fixed this x false Hcfg), IH. reflexivity. }
  assert (E2 : forall l,
    every (fun tile =>
             if negb (hasAlternative tile)
             then isValidPosition this (getNormalizedTilePosition this tile false)
             else isValidPosition this (getNormalizedTilePosition this tile true)) l
    = every (fun f => isValidPosition this (positionOn W H f true)) l).
  { induction l as [|x l IH]; cbn [every]; [reflexivity|].
    rewrite IH. rewrite <- (position_sameConfig W H fixed this x true Hcfg).
    destruct (hasAlternative x) eqn:Ea; cbn [negb]; [reflexivity|].
    rewrite (position_no_alternative this x Ea). reflexivity. }
  rewrite E1, E2. reflexivity.
Qed.

Lemma determinePlacementStrategy_returns (this : MosaicGenerator) :
  sameConfig W H fixed this ->
  length (grid this) = Z.to_nat H ->
  fixedRowsNonneg W H fixed ->
  returns (determinePlacementStrategy this).
Proof.
  intros Hcfg Hlen Hrows. rewrite (determinePlacementStrategy_unfold this Hcfg).
  pose proof Hcfg as (_ & HH & _).
  destruct (every_returns (fun f => isValidPosition this (positionOn W H f false)) fixed)
    as [b1 Hb1].
  { intros f Hf. apply isValidPlacement_returns; [congruence | apply (Hrows f Hf)]. }
  rewrite Hb1. cbn [bind]. destruct b1; [eexists; reflexivity|].
  destruct (every_returns (fun f => isValidPosition this (positionOn W H f true)) fixed)
    as [b2 Hb2].
  { intros f Hf. apply isValidPlacement_returns; [congruence | apply (Hrows f Hf)]. }
  rewrite Hb2. eexists; reflexivity.
Qed.

Lemma resetGrid_idem (this this' : MosaicGenerator) :
  resetGrid this = Ok this' -> resetGrid this' = Ok this'.
Proof.
  unfold resetGrid. destruct (validArrayLength (gridHeight this)) eqn:EH; [|discriminate].
  intros Hr. apply bind_Ok in Hr. destruct Hr as (rows & Hrows & [= <-]).
  simpl. rewrite EH, Hrows. reflexivity.
Qed.

Lemma constructor_config (this : MosaicGenerator) :
  constructor W H fixed = Ok this -> sameConfig W H fixed this.
Proof.
  unfold constructor, resetGrid. simpl.
  destruct (validArrayLength H); [|discriminate].
  intros Hr. apply bind_Ok in Hr. destruct Hr as (rows & _ & [= <-]).
  repeat split.
Qed.

(** What one pass establishes whenever it returns. *)
Lemma generatePattern_spec (this : MosaicGenerator) (rs : RandomSource)
    (st : MosaicGenerator * list Tile.t) :
  sameConfig W H fixed this ->
  generatePattern this rs = Ok st ->
  exists this0 s,
    resetGrid this = Ok this0
    /\ determinePlacementStrategy this0 = Ok s
    /\ Inv W H fixed (fst st) (snd st)
    /\ (forall r c, 0 <= r < H -> 0 <= c < W -> occupied (grid (fst st)) r c = true)
    /\ segmented W H fixed rs s (snd st).
Proof.
  intros Hcfg Hg. unfold generatePattern in Hg.
  apply bind_Ok in Hg. destruct Hg as (this0 & Hreset & Hg).
  apply bind_Ok in Hg. destruct Hg as (s & Hs & Hg).
  apply bind_Ok in Hg. destruct Hg as (st1 & Hfixed & Hg).
  apply bind_Ok in Hg. destruct Hg as (st2 & Hrandom & Hfill).
  destruct (resetGrid_Ok W H fixed _ _ Hcfg Hreset) as [HI0 _].
  destruct (placeFixedTiles_spec W H fixed _ _ _ _ HI0 Hfixed)
    as (HI1 & placed & Hsub1 & Heq1 & Hfb).
  destruct (placeRandomLoop_spec W H fixed rs _ _ _ _ _ HI1 Hrandom)
    as (HI2 & attempts & Hsub2 & Heq2).
  destruct (fillEmptyCells_spec W H fixed _ _ _ _ HI2 Hfill)
    as (HI3 & Hfull & filled & Hsub3 & Heq3).
  exists this0, s. repeat split; try assumption; try apply HI3.
  exists placed, attempts, filled. repeat split; try assumption.
  rewrite Heq3, Heq2, Heq1. simpl. rewrite <- app_assoc. reflexivity.
Qed.

Lemma generatePattern_returns (this : MosaicGenerator) (rs : RandomSource) :
  sameConfig W H fixed this ->
  validArrayLength W = true -> validArrayLength H = true ->
  fixedRowsNonneg W H fixed ->
  drawsNonneg rs ->
  returns (generatePattern this rs).
Proof.
  intros Hcfg HvW HvH Hrows Hdraws. pose proof Hcfg as (HW & HH & Hfx).
  destruct (proj2 (resetGrid_returns this)) as [this0 Hreset].
  { rewrite HW, HH. auto. }
  destruct (resetGrid_Ok W H fixed _ _ Hcfg Hreset) as [HI0 _].
  destruct (determinePlacementStrategy_returns this0 (proj1 HI0)) as [s Hs];
    [apply HI0 | exact Hrows |].
  assert (Hfixed : returns (placeFixedTiles this0 [] s)).
  { pose proof (proj1 HI0) as (_ & _ & Hfx0).
    destruct s; simpl; rewrite ?Hfx0.
    - apply (placeFixedLoop_returns W H fixed); [exact HI0|].
      intros f Hf. apply (Hrows f Hf).
    - apply (placeFixedLoop_returns W H fixed); [exact HI0|].
      intros f Hf. apply (Hrows f Hf).
    - unfold placeEssentialTiles. rewrite Hfx0.
      destruct (List.find isCharlie fixed) as [ch|] eqn:Ef; [|eexists; reflexivity].
      apply (placeFixedTile_returns W H fixed); [exact HI0|].
      apply find_some in Ef. apply (Hrows ch), Ef. }
  destruct Hfixed as [st1 Hst1].
  destruct (placeFixedTiles_spec W H fixed _ _ _ _ HI0 Hst1) as [HI1 _].
  destruct (placeRandomLoop_returns W H fixed rs MAX_PLACEMENT_ATTEMPTS 0
              (fst st1) (snd st1) HI1) as [st2 Hst2].
  { intros i. apply (Hdraws i). }
  destruct (placeRandomLoop_spec W H fixed rs _ _ _ _ _ HI1 Hst2) as [HI2 _].
  destruct (fillEmptyCells_returns W H fixed (fst st2) rs (snd st2) HI2) as [st3 Hst3].
  exists st3. unfold generatePattern, placeRandomTiles.
  rewrite Hreset. cbn [bind]. rewrite Hs. cbn [bind]. rewrite Hst1. cbn [bind].
  rewrite Hst2. cbn [bind]. exact Hst3.
Qed.

End Strategy.

(** ** The returned list of [new MosaicGenerator(...).generatePattern()] *)

Section Returned.

Variables (W H : Z) (fixed : list FixedTile.t).

Lemma generate_spec (rs : RandomSource) (tiles : list Tile.t) :
  generate W H fixed rs = Ok tiles ->
  exists this0 s final,
    constructor W H fixed = Ok this0
    /\ determinePlacementStrategy this0 = Ok s
    /\ generatePattern this0 rs = Ok (final, tiles)
    /\ Inv W H fixed final tiles
    /\ (forall r c, 0 <= r < H -> 0 <= c < W -> occupied (grid final) r c = true)
    /\ segmented W H fixed rs s tiles.
Proof.
  unfold generate. intros Hg.
  apply bind_Ok in Hg. destruct Hg as (this0 & Hc & Hg).
  apply bind_Ok in Hg. destruct Hg as ([final tiles'] & Hp & [= <-]).
  pose proof (constructor_config W H fixed this0 Hc) as Hcfg.
  destruct (generatePattern_spec W H fixed this0 rs _ Hcfg Hp)
    as (this1 & s & Hreset & Hs & HI & Hfull & Hseg).
  pose proof Hc as Hidem. unfold constructor in Hidem. apply resetGrid_idem in Hidem.
  rewrite Hidem in Hreset. injection Hreset as <-.
  exists this0, s, final. simpl in *. repeat split; try assumption; apply HI.
Qed.

Lemma generate_returns (rs : RandomSource) :
  validArrayLength W = true -> validArrayLength H = true ->
  fixedRowsNonneg W H fixed ->
  drawsNonneg rs ->
  returns (generate W H fixed rs).
Proof.
  intros HvW HvH Hrows Hdraws. unfold generate.
  destruct (proj2 (resetGrid_returns (mkGenerator [] W H fixed))) as [this0 Hc].
  { simpl. auto. }
  unfold constructor. rewrite Hc. cbn [bind].
  destruct (generatePattern_returns W H fixed this0 rs) as [st Hst]; try assumption.
  { apply (constructor_config W H fixed). exact Hc. }
  rewrite Hst. eexists; reflexivity.
Qed.

End Returned.

Lemma sublist_StronglySorted {A : Type} (R : A -> A -> Prop) (l1 l2 : list A) :
  l1 `sublist_of` l2 -> StronglySorted R l2 -> StronglySorted R l1.
Proof.
  induction 1 as [|x l1 l2 Hsub IH|x l1 l2 Hsub IH]; intros Hs.
  - constructor.
  - apply StronglySorted_cons in Hs. destruct Hs as [Hall Hs].
    apply StronglySorted_cons. split; [|auto].
    rewrite Forall_forall in *. intros y Hy. apply Hall.
    eapply elem_of_sublist; eauto.
  - apply StronglySorted_cons in Hs. apply IH, Hs.
Qed.

Lemma seqZ_sorted (len : nat) (m : Z) : StronglySorted Z.lt (seqZ m (Z.of_nat len)).
Proof.
  revert m. induction len as [|len IH]; intros m.
  - rewrite seqZ_nil by lia. constructor.
  - rewrite seqZ_cons by lia. apply StronglySorted_cons. split.
    + apply Forall_seqZ. lia.
    + replace (Z.pred (Z.of_nat (S len))) with (Z.of_nat len) by lia. apply IH.
Qed.

Lemma rectCells_sorted (row col width height : Z) :
  StronglySorted rowMajorLt (rectCells row col width height).
Proof.
  unfold rectCells.
  assert (Hcols : StronglySorted Z.lt (seqZ col width)).
  { destruct (Z.le_gt_cases width 0) as [Hw|Hw].
    - rewrite seqZ_nil by lia. constructor.
    - rewrite <- (Z2Nat.id width) by lia. apply seqZ_sorted. }
  assert (Hrows : StronglySorted Z.lt (seqZ row height)).
  { destruct (Z.le_gt_cases height 0) as [Hh|Hh].
    - rewrite seqZ_nil by lia. constructor.
    - rewrite <- (Z2Nat.id height) by lia. apply seqZ_sorted. }
  induction Hrows as [|r rows Hrows IH Hlt]; simpl; [constructor|].
  apply StronglySorted_app. split; [|split].
  - intros a b Ha Hb. apply list_elem_of_In, in_map_iff in Ha.
    destruct Ha as (c & <- & _).
    apply list_elem_of_In, in_flat_map in Hb. destruct Hb as (r' & Hr' & Hb).
    apply in_map_iff in Hb. destruct Hb as (c' & <- & _).
    left. simpl. rewrite Forall_forall in Hlt. apply Hlt, list_elem_of_In, Hr'.
  - clear IH Hlt Hrows. induction Hcols as [|c cols Hcols IHc Hltc]; simpl; [constructor|].
    apply StronglySorted_cons. split; [|exact IHc].
    apply Forall_forall. intros b Hb. apply list_elem_of_In, in_map_iff in Hb.
    destruct Hb as (c' & <- & Hc'). right. simpl. split; [reflexivity|].
    rewrite Forall_forall in Hltc. apply Hltc, list_elem_of_In, Hc'.
  - exact IH.
Qed.

Lemma STATIC_TILES_charlie : STATIC_TILES = [charlieExample].
Proof. reflexivity. Qed.

(** C8: every fixed tile of the returned list satisfies the usable-span
    bound [row+height <= gridHeight-1] and [col+width <= gridWidth-1]; a random
    or a gap tile satisfies the full-grid bound only ([tileBound] tells the
    kinds apart by the id prefix), and each of the two kinds can occupy the
    cell of the last row and last column. *)
Theorem C8_margin_for_fixed_only (W H : Z) (fixed : list FixedTile.t)
    (rs : RandomSource) (tiles : list Tile.t) :
  generate W H fixed rs = Ok tiles ->
  Forall (tileBound W H) tiles
  /\ (exists t, In t (valueOf (generate 3 3 [] (constantSource 0.1 2 2)) [])
                /\ prefix (Tile.id t) = random_
                /\ Tile.row t + Tile.height t = 3 /\ Tile.col t + Tile.width t = 3)
  /\ (exists t, In t (valueOf (generate 3 3 [] (constantSource 0.1 0 0)) [])
                /\ prefix (Tile.id t) = fill_
                /\ Tile.row t + Tile.height t = 3 /\ Tile.col t + Tile.width t = 3).
Proof.
  intros Hg. split; [|split].
  - destruct (generate_spec W H fixed rs tiles Hg)
      as (this0 & s & final & _ & _ & _ & HI & _).
    apply HI.
  - exists (randomTile (constantSource 0.1 2 2) 0).
    split; [vm_compute; auto|]. vm_compute. auto.
  - exists (fillTile (constantSource 0.1 0 0) (2, 2)).
    split; [vm_compute; tauto|]. vm_compute. auto.
Qed.

Lemma C8_margin_for_fixed_only_witness :
  generate 7 4 [charlieExample] sweepSource
  = Ok (valueOf (generate 7 4 [charlieExample] sweepSource) [])
  /\ Forall (tileBound 7 4) (valueOf (generate 7 4 [charlieExample] sweepSource) []).
Proof.
  assert (Hrun : generate 7 4 [charlieExample] sweepSource
                 = Ok (valueOf (generate 7 4 [charlieExample] sweepSource) []))
    by (vm_compute; reflexivity).
  split; [exact Hrun|].
  exact (proj1 (C8_margin_for_fixed_only 7 4 [charlieExample] sweepSource _ Hrun)).
Defined.

(** C10: the returned list is three contiguous segments: the tiles of the
    placed fixed-tile specs in the order of the specs, then the tiles of the
    successful random attempts in attempt order, then the unit gap tiles in
    row-major order of their cells. *)
Theorem C10_three_segments (W H : Z) (fixed : list FixedTile.t)
    (rs : RandomSource) (tiles : list Tile.t) :
  generate W H fixed rs = Ok tiles ->
  exists fixedPart randomPart gapPart,
    tiles = fixedPart ++ randomPart ++ gapPart
    /\ (exists placed useAlternative,
          placed `sublist_of` fixed
          /\ fixedPart = map (fixedTileOn W H useAlternative) placed)
    /\ Forall (fun t => prefix (Tile.id t) = fixed_) fixedPart
    /\ (exists attempts,
          attempts `sublist_of` seq 0 MAX_PLACEMENT_ATTEMPTS
          /\ randomPart = map (randomTile rs) attempts)
    /\ Forall (fun t => prefix (Tile.id t) = random_) randomPart
    /\ (exists cells,
          cells `sublist_of` rectCells 0 0 W H
          /\ StronglySorted rowMajorLt cells
          /\ gapPart = map (fillTile rs) cells)
    /\ Forall (fun t => prefix (Tile.id t) = fill_
                        /\ Tile.width t = 1 /\ Tile.height t = 1) gapPart.
Proof.
  intros Hg.
  destruct (generate_spec W H fixed rs tiles Hg)
    as (this0 & s & final & _ & _ & _ & _ & _ & Hseg).
  destruct Hseg as (placed & attempts & filled & Hs1 & Hs2 & Hs3 & _ & ->).
  exists (map (fixedTileOn W H (usesAlternative s)) placed),
         (map (randomTile rs) attempts), (map (fillTile rs) filled).
  split; [reflexivity|]. split; [eauto|]. split.
  { apply Forall_forall. intros t Ht. apply list_elem_of_In, in_map_iff in Ht.
    destruct Ht as (f & <- & _). reflexivity. }
  split; [eauto|]. split.
  { apply Forall_forall. intros t Ht. apply list_elem_of_In, in_map_iff in Ht.
    destruct Ht as (a & <- & _). reflexivity. }
  split.
  { exists filled. split; [exact Hs3|]. split; [|reflexivity].
    eapply sublist_StronglySorted; [exact Hs3 | apply rectCells_sorted]. }
  apply Forall_forall. intros t Ht. apply list_elem_of_In, in_map_iff in Ht.
  destruct Ht as (cell & <- & _). auto.
Qed.

Lemma C10_three_segments_witness :
  generate 7 4 [charlieExample] sweepSource
  = Ok (valueOf (generate 7 4 [charlieExample] sweepSource) [])
  /\ exists fixedPart randomPart gapPart,
       valueOf (generate 7 4 [charlieExample] sweepSource) []
       = fixedPart ++ randomPart ++ gapPart
       /\ (exists placed useAlternative,
             placed `sublist_of` [charlieExample]
             /\ fixedPart = map (fixedTileOn 7 4 useAlternative) placed)
       /\ Forall (fun t => prefix (Tile.id t) = fixed_) fixedPart
       /\ (exists attempts,
             attempts `sublist_of` seq 0 MAX_PLACEMENT_ATTEMPTS
             /\ randomPart = map (randomTile sweepSource) attempts)
       /\ Forall (fun t => prefix (Tile.id t) = random_) randomPart
       /\ (exists cells,
             cells `sublist_of` rectCells 0 0 7 4
             /\ StronglySorted rowMajorLt cells
             /\ gapPart = map (fillTile sweepSource) cells)
       /\ Forall (fun t => prefix (Tile.id t) = fill_
                           /\ Tile.width t = 1 /\ Tile.height t = 1) gapPart.
Proof.
  assert (Hrun : generate 7 4 [charlieExample] sweepSource
                 = Ok (valueOf (generate 7 4 [charlieExample] sweepSource) []))
    by (vm_compute; reflexivity).
  split; [exact Hrun|].
  exact (C10_three_segments 7 4 [charlieExample] sweepSource _ Hrun).
Defined.

(** ** The constructor *)

(** C9 (as the code has it): the constructor validates nothing itself; it
    stores its arguments and allocates the grid.  It produces a generator
    exactly when [0 <= gridHeight < 2^32] and either [gridHeight = 0] or
    [0 <= gridWidth < 2^32], and otherwise fails with the [RangeError] of the
    array allocation.  In particular a zero width or a zero height is
    accepted. *)
Theorem C9_constructor_only_allocates (W H : Z) (fixed : list FixedTile.t) :
  (returns (constructor W H fixed)
   <-> 0 <= H < 2 ^ 32 /\ (H = 0 \/ 0 <= W < 2 ^ 32))
  /\ (forall this, constructor W H fixed = Ok this ->
        gridWidth this = W /\ gridHeight this = H /\ fixedTiles this = fixed
        /\ length (grid this) = Z.to_nat H)
  /\ (forall e, constructor W H fixed = Throw e -> e = RangeError).
Proof.
  split; [|split].
  - unfold constructor. rewrite resetGrid_returns. simpl.
    unfold validArrayLength. rewrite !andb_true_iff, !Z.leb_le, !Z.ltb_lt. tauto.
  - intros this Hc. pose proof (constructor_config W H fixed this Hc) as Hcfg.
    unfold constructor in Hc.
    assert (Hinit : sameConfig W H fixed (mkGenerator [] W H fixed))
      by (repeat split).
    destruct (resetGrid_Ok W H fixed _ _ Hinit Hc) as [[_ (Hlen & _)] _].
    destruct Hcfg as (? & ? & ?). auto.
  - intros e. unfold constructor, resetGrid. simpl.
    destruct (validArrayLength H); [|intros [= <-]; reflexivity].
    generalize (Z.to_nat H). intros n.
    destruct (newRows n W) as [rows|e'] eqn:En; simpl; [discriminate|].
    intros [= <-]. revert e' En. induction n as [|n IH]; simpl; [discriminate|].
    intros e'. unfold newRow. destruct (validArrayLength W); simpl.
    + destruct (newRows n W) as [rows|e''] eqn:En'; simpl; [discriminate|].
      intros [= <-]. apply (IH e''). reflexivity.
    + intros [= <-]. reflexivity.
Qed.

(** C9 (as stated) fails: a generator is constructed for a 0 by 0 grid, for
    width 0 with height 5, and for height 0 with a negative width. *)
Lemma C9_counterexample :
  constructor 0 0 [] = Ok (mkGenerator [] 0 0 [])
  /\ constructor 0 5 [] = Ok (mkGenerator (replicate 5 ∅) 0 5 [])
  /\ constructor (-3) 0 [] = Ok (mkGenerator [] (-3) 0 []).
Proof. repeat split. Qed.

(** ** The placement strategy on overlapping and on oversized batches *)

Section Batch.

Variables (W H : Z) (fixed : list FixedTile.t).

Lemma covers_fixedTileOn (ua : bool) (f : FixedTile.t) (r c : Z) :
  covers (fixedTileOn W H ua f) r c = true
  <-> In (r, c) (cellsOf (positionOn W H f ua)).
Proof. rewrite covers_rectCells. reflexivity. Qed.

(** On a grid that satisfies the invariant, a rectangle of the usable span
    none of whose cells is covered passes the fixed-tile check. *)
Lemma isValidPosition_free (this : MosaicGenerator) (tiles : list Tile.t)
    (p : Position) :
  Inv W H fixed this tiles ->
  fitsUsableSpan W H p ->
  (forall r c, In (r, c) (cellsOf p) -> coverCount tiles r c = O) ->
  isValidPosition this p = Ok true.
Proof.
  intros [(HW & HH & _) (Hlen & Hcov & _)] (Hr & Hc & Hrh & Hcw) Hfree.
  apply isValidPlacement_true. rewrite HW, HH. split; [lia|]. split; [lia|].
  apply canPlaceTile_true. rewrite HW, HH. split; [lia|]. split; [lia|].
  intros r c Hin. split.
  - apply rectCells_In in Hin. unfold hasRow. rewrite Hlen. lia.
  - specialize (Hfree r c Hin). rewrite Hcov in Hfree.
    destruct (occupied (grid this) r c); [discriminate | reflexivity].
Qed.

Lemma isValidPosition_past (this : MosaicGenerator) (p : Position) :
  sameConfig W H fixed this ->
  pastUsableSpan W H p ->
  isValidPosition this p <> Ok true.
Proof.
  intros (HW & HH & _) Hpast Hv. apply isValidPlacement_true in Hv.
  unfold pastUsableSpan in Hpast. lia.
Qed.

(** Fixed tiles whose rectangles fit the usable span, are free of the tiles
    placed so far and are disjoint from one another are all placed, in
    order. *)
Lemma placeFixedLoop_all (ua : bool) (rest : list FixedTile.t) :
  forall (this : MosaicGenerator) (tiles : list Tile.t),
  Inv W H fixed this tiles ->
  (forall f, In f rest -> fitsUsableSpan W H (positionOn W H f ua)) ->
  (forall f r c, In f rest -> In (r, c) (cellsOf (positionOn W H f ua)) ->
                 coverCount tiles r c = O) ->
  ForallOrdPairs (fun f g => rectsDisjoint (positionOn W H f ua) (positionOn W H g ua))
                 rest ->
  exists this',
    placeFixedLoop this tiles ua rest
    = Ok (this', tiles ++ map (fixedTileOn W H ua) rest)
    /\ Inv W H fixed this' (tiles ++ map (fixedTileOn W H ua) rest).
Proof.
  induction rest as [|f rest IH]; intros this tiles HI Hfit Hfree Hdisj.
  - exists this. simpl. rewrite app_nil_r. auto.
  - inversion Hdisj as [|f' rest' Hhead Htail]; subst.
    assert (Hv : isValidPosition this (positionOn W H f ua) = Ok true).
    { apply (isValidPosition_free this tiles); [exact HI | apply Hfit; simpl; auto|].
      intros r c Hin. apply (Hfree f r c); simpl; auto. }
    destruct (placeFixedTile_returns W H fixed this tiles f ua HI) as [st1 Hst1].
    { apply (Hfit f). simpl; auto. }
    destruct (placeFixedTile_spec W H fixed _ _ _ _ _ HI Hst1) as [HI1 Hcase].
    destruct Hcase as [[Hno _] | [_ Hsnd]]; [congruence|].
    destruct st1 as [this1 tiles1]. simpl in HI1, Hsnd. subst tiles1.
    destruct (IH this1 (tiles ++ [fixedTileOn W H ua f]) HI1) as (this' & Hloop & HI').
    + intros g Hg. apply Hfit. simpl; auto.
    + intros g r c Hg Hin. rewrite coverCount_snoc.
      rewrite (Hfree g r c) by (simpl; auto). simpl.
      destruct (covers (fixedTileOn W H ua f) r c) eqn:Ec; [|reflexivity].
      apply covers_fixedTileOn in Ec. rewrite Forall_forall in Hhead.
      exfalso. apply (Hhead g (proj2 (list_elem_of_In _ _) Hg) r c Ec Hin).
    + exact Htail.
    + exists this'. cbn [placeFixedLoop map]. rewrite Hst1. cbn [bind].
      rewrite <- app_assoc in Hloop, HI'. split; [exact Hloop | exact HI'].
Qed.

End Batch.

(** C3 (failing input): on a 10 by 10 grid the primary rectangles of
    [overlapA] and [overlapB] share a cell, their alternate rectangles fit the
    usable span and are disjoint, and placing under [alternative] puts both
    tiles on the grid; yet the strategy is [primary]: the first spec is placed
    at its primary position and the second is dropped. *)
Lemma C3_overlapping_primaries_drop_a_tile :
  rectsOverlap (positionOn 10 10 overlapA false) (positionOn 10 10 overlapB false)
  /\ fitsUsableSpan 10 10 (positionOn 10 10 overlapA true)
  /\ fitsUsableSpan 10 10 (positionOn 10 10 overlapB true)
  /\ rectsDisjoint (positionOn 10 10 overlapA true) (positionOn 10 10 overlapB true)
  /\ (exists this, constructor 10 10 [overlapA; overlapB] = Ok this
                   /\ determinePlacementStrategy this = Ok primary
                   /\ exists this',
                        placeFixedTiles this [] alternative
                        = Ok (this', [fixedTileOn 10 10 true overlapA;
                                      fixedTileOn 10 10 true overlapB]))
  /\ (exists tiles, generate 10 10 [overlapA; overlapB] sweepSource = Ok tiles
                    /\ List.filter isFixedTile tiles
                       = [fixedTileOn 10 10 false overlapA]).
Proof.
  split; [|split; [|split; [|split; [|split]]]].
  - exists 1, 2. split; apply rectCells_In; cbn; lia.
  - unfold fitsUsableSpan. cbn. lia.
  - unfold fitsUsableSpan. cbn. lia.
  - intros r c H1 H2. apply rectCells_In in H1, H2. cbn in H1, H2. lia.
  - eexists. split; [vm_compute; reflexivity|].
    split; [vm_compute; reflexivity|]. eexists. vm_compute. reflexivity.
  - eexists. split; vm_compute; reflexivity.
Qed.

(** Where the strategy is [alternative]: it is decided by testing each
    spec alone on the empty grid.  For spec coordinates in the range of exact
    arithmetic, when the primary rectangle of some spec reaches past the
    usable span, every alternate rectangle fits the usable span, and the
    alternate rectangles are disjoint from one another, the strategy is
    [alternative] and every spec is placed at its alternate (normalized)
    coordinates, in order, ahead of all other tiles. *)
Lemma oversized_batch_uses_alternate (W H : Z) (fixed : list FixedTile.t)
    (rs : RandomSource) :
  inputsInRange W H fixed = true ->
  validArrayLength W = true -> validArrayLength H = true ->
  drawsNonneg rs ->
  (forall f, In f fixed -> 0 <= p_row (positionOn W H f false)) ->
  (exists f, In f fixed /\ pastUsableSpan W H (positionOn W H f false)) ->
  (forall f, In f fixed -> fitsUsableSpan W H (positionOn W H f true)) ->
  ForallOrdPairs
    (fun f g => rectsDisjoint (positionOn W H f true) (positionOn W H g true))
    fixed ->
  exists this rest,
    constructor W H fixed = Ok this
    /\ determinePlacementStrategy this = Ok alternative
    /\ generate W H fixed rs = Ok (map (fixedTileOn W H true) fixed ++ rest)
    /\ Forall (fun t => isFixedTile t = false) rest.
Proof.
  intros _ HvW HvH Hdraws Hprim (fbad & Hbad_in & Hbad) Hfit Hdisj.
  destruct (proj2 (resetGrid_returns (mkGenerator [] W H fixed))) as [this Hc].
  { simpl. auto. }
  pose proof (constructor_config W H fixed this Hc) as Hcfg.
  assert (Hinit : sameConfig W H fixed (mkGenerator [] W H fixed)) by (repeat split).
  destruct (resetGrid_Ok W H fixed _ _ Hinit Hc) as [HI0 Hfree0].
  assert (Hlen0 : length (grid this) = Z.to_nat (gridHeight this)).
  { destruct Hcfg as (_ & -> & _). apply HI0. }
  assert (Hs : determinePlacementStrategy this = Ok alternative).
  { rewrite (determinePlacementStrategy_unfold W H fixed this Hcfg).
    destruct (every_returns
                (fun f => isValidPosition this (positionOn W H f false)) fixed)
      as [b1 Hb1].
    { intros f Hf. apply isValidPlacement_returns; [exact Hlen0 | apply Hprim, Hf]. }
    rewrite Hb1. cbn [bind]. destruct b1.
    - exfalso. pose proof (proj1 (every_true _ _) Hb1 fbad Hbad_in) as Hv.
      exact (isValidPosition_past W H fixed this _ Hcfg Hbad Hv).
    - assert (Hb2 : every (fun f => isValidPosition this (positionOn W H f true)) fixed
                    = Ok true).
      { apply every_true. intros f Hf.
        apply (isValidPosition_free W H fixed this []);
          [exact HI0 | apply Hfit, Hf | intros; reflexivity]. }
      rewrite Hb2. reflexivity. }
  destruct (placeFixedLoop_all W H fixed true fixed this [] HI0 Hfit)
    as (this1 & Hloop & HI1); [intros; reflexivity | exact Hdisj |].
  simpl in Hloop, HI1.
  destruct (placeRandomLoop_returns W H fixed rs MAX_PLACEMENT_ATTEMPTS 0
              this1 _ HI1) as [st2 Hst2].
  { intros i. apply Hdraws. }
  destruct (placeRandomLoop_spec W H fixed rs _ _ _ _ _ HI1 Hst2)
    as [HI2 (attempts & _ & Heq2)].
  destruct (fillEmptyCells_returns W H fixed (fst st2) rs (snd st2) HI2) as [st3 Hst3].
  destruct (fillEmptyCells_spec W H fixed _ _ _ _ HI2 Hst3)
    as (_ & _ & filled & _ & Heq3).
  exists this, (map (randomTile rs) attempts ++ map (fillTile rs) filled).
  split; [exact Hc|]. split; [exact Hs|]. split.
  - unfold generate. unfold constructor. rewrite Hc. cbn [bind].
    unfold generatePattern. rewrite (resetGrid_idem _ _ Hc). cbn [bind].
    rewrite Hs. cbn [bind placeFixedTiles].
    destruct Hcfg as (_ & _ & ->). rewrite Hloop. cbn [bind fst snd].
    unfold placeRandomTiles. rewrite Hst2. cbn [bind]. rewrite Hst3. cbn [bind].
    rewrite Heq3, Heq2, <- app_assoc. reflexivity.
  - apply Forall_app. split; apply Forall_forall; intros t Ht;
      apply list_elem_of_In, in_map_iff in Ht; destruct Ht as (x & <- & _); reflexivity.
Qed.

(** The home page on a 6 by 8 grid: the "About" tile does not fit at its
    primary column, and the three tiles go to rows 1, 3 and 5. *)
Lemma oversized_batch_home_page :
  exists this rest,
    constructor 6 8 (allFixedTiles home) = Ok this
    /\ determinePlacementStrategy this = Ok alternative
    /\ generate 6 8 (allFixedTiles home) (constantSource 0.1 0 0)
       = Ok (map (fixedTileOn 6 8 true) (allFixedTiles home) ++ rest)
    /\ Forall (fun t => isFixedTile t = false) rest.
Proof.
  apply (oversized_batch_uses_alternate 6 8 (allFixedTiles home)
           (constantSource 0.1 0 0)).
  - reflexivity.
  - reflexivity.
  - reflexivity.
  - intros i. cbn. lia.
  - intros f [<-|[<-|[<-|[]]]]; cbn; lia.
  - exists (FixedTile.mk 1 6 2 1 10 (Some "About"%string) None
                         (Some 3) (Some 1) None None (Some 1.3%float)).
    split; [simpl; auto|]. right. cbn. lia.
  - intros f [<-|[<-|[<-|[]]]]; unfold fitsUsableSpan; cbn; lia.
  - repeat constructor; intros r c H1 H2;
      apply rectCells_In in H1, H2; cbn in H1, H2; lia.
Qed.

(** ** Coordinates below zero *)

(** Whenever a pass returns, no cell at all is covered by two tiles and
    every cell of the grid is covered by exactly one. *)
Lemma generate_covers_once (W H : Z) (fixed : list FixedTile.t)
    (rs : RandomSource) (tiles : list Tile.t) :
  generate W H fixed rs = Ok tiles ->
  (forall r c, (coverCount tiles r c <= 1)%nat)
  /\ (forall r c, 0 <= r < H -> 0 <= c < W -> coverCount tiles r c = 1%nat).
Proof.
  intros Hg.
  destruct (generate_spec W H fixed rs tiles Hg)
    as (this0 & s & final & _ & _ & _ & [_ (_ & Hcov & _)] & Hfull & _).
  split.
  - intros r c. rewrite Hcov. destruct (occupied (grid final) r c); simpl; lia.
  - intros r c Hr Hc. rewrite Hcov, (Hfull r c Hr Hc). reflexivity.
Qed.

(** On a grid with one row per grid row, [canPlaceTile] at a non-negative
    origin returns, and says yes exactly for an unoccupied rectangle inside
    the grid. *)
Lemma canPlaceTile_spec_nonneg (this : MosaicGenerator) (row col width height : Z) :
  length (grid this) = Z.to_nat (gridHeight this) ->
  0 <= row -> 0 <= col ->
  exists b, canPlaceTile this row col width height = Ok b
            /\ (b = true <->
                row + height <= gridHeight this /\ col + width <= gridWidth this
                /\ forall r c, In (r, c) (rectCells row col width height) ->
                               occupied (grid this) r c = false).
Proof.
  intros Hlen Hrow Hcol.
  destruct (canPlaceTile_returns this row col width height Hlen Hrow) as [b Hb].
  exists b. split; [exact Hb|]. split.
  - intros ->. apply canPlaceTile_true in Hb. destruct Hb as (H1 & H2 & H3).
    split; [exact H1|]. split; [exact H2|]. intros r c Hin. apply (H3 r c Hin).
  - intros (H1 & H2 & H3).
    assert (Ht : canPlaceTile this row col width height = Ok true).
    { apply canPlaceTile_true. split; [exact H1|]. split; [exact H2|].
      intros r c Hin. split; [|apply (H3 r c Hin)].
      apply rectCells_In in Hin. unfold hasRow. rewrite Hlen. lia. }
    congruence.
Qed.

(** C1 (failing input): on a 3 by 3 grid with [offGridSpec] the pass
    returns ten cells' worth of tiles for a grid of nine cells; the first tile
    lies outside the grid. *)
Lemma C1_off_grid_tile_counted :
  exists tiles,
    generate 3 3 [offGridSpec] sweepSource = Ok tiles
    /\ totalCells tiles = 10
    /\ 3 * 3 = 9
    /\ head tiles = Some (fixedTileOn 3 3 false offGridSpec)
    /\ covers (fixedTileOn 3 3 false offGridSpec) 0 (-3) = true.
Proof.
  eexists. split; [vm_compute; reflexivity|].
  repeat split; vm_compute; reflexivity.
Qed.

(** C2 (failing input): on a 3 by 3 grid the spec [offGridSpec] is
    normalized to column [-3], passes both checks and is returned at that
    column. *)
Lemma C2_negative_column_returned :
  exists tiles t,
    generate 3 3 [offGridSpec] sweepSource = Ok tiles
    /\ In t tiles
    /\ Tile.row t = 0 /\ Tile.col t = -3
    /\ inGrid 3 3 t = false.
Proof.
  eexists. exists (fixedTileOn 3 3 false offGridSpec).
  split; [vm_compute; reflexivity|].
  split; [left; reflexivity|]. repeat split.
Qed.

(** C4 (failing inputs): on a fresh 2 by 2 grid [canPlaceTile] says yes to
    the cell at column [-1], which is outside the grid, and throws at row
    [-1]. *)
Lemma C4_lower_bounds_unchecked :
  exists this,
    constructor 2 2 [] = Ok this
    /\ canPlaceTile this 0 (-1) 1 1 = Ok true
    /\ canPlaceTile this (-1) 0 1 1 = Throw TypeError.
Proof.
  eexists. split; [vm_compute; reflexivity|].
  split; vm_compute; reflexivity.
Qed.

(** C5 (failing input): with [fallbackBatch] on a 5 by 3 grid the strategy
    is [fallback], the essential tile is normalized to row [-3], and the pass
    throws instead of returning a list without fixed tiles. *)
Lemma C5_fallback_throws (rs : RandomSource) :
  (exists this, constructor 5 3 fallbackBatch = Ok this
                /\ determinePlacementStrategy this = Ok fallback)
  /\ p_row (positionOn 5 3 (FixedTile.mk (-5) 0 1 1 9 (Some "Charlie Beutter"%string)
                                         None None None None None None) false) = -3
  /\ generate 5 3 fallbackBatch rs = Throw TypeError.
Proof.
  split; [|split].
  - eexists. split; vm_compute; reflexivity.
  - reflexivity.
  - vm_compute. reflexivity.
Qed.


(** ** The partition of the grid when no normalized origin is negative *)

Section Partition.

Variables (W H : Z) (fixed : list FixedTile.t).

Lemma length_rectCells (row col width height : Z) :
  length (rectCells row col width height)
  = (Z.to_nat height * Z.to_nat width)%nat.
Proof.
  unfold rectCells. rewrite <- (length_seqZ row height), <- (length_seqZ col width).
  induction (seqZ row height) as [|r rows IH]; simpl; [reflexivity|].
  rewrite length_app, length_map, IH. reflexivity.
Qed.

Lemma NoDup_rectCells (row col width height : Z) :
  NoDup (rectCells row col width height).
Proof.
  pose proof (rectCells_sorted row col width height) as Hs.
  induction Hs as [|cell cells Hs IH Hlt]; constructor; [|exact IH].
  intros Hin. rewrite Forall_forall in Hlt. specialize (Hlt cell Hin).
  unfold rowMajorLt in Hlt. lia.
Qed.

Lemma NoDup_filter_bool {A : Type} (f : A -> bool) (l : list A) :
  NoDup l -> NoDup (List.filter f l).
Proof.
  induction 1 as [|x l Hx Hl IH]; simpl; [constructor|].
  destruct (f x); [|exact IH]. constructor; [|exact IH].
  rewrite list_elem_of_In, filter_In, <- list_elem_of_In. tauto.
Qed.

(** A tile inside the grid covers as many grid cells as its rectangle has. *)
Lemma countIn_grid (t : Tile.t) :
  inGrid W H t = true ->
  Z.of_nat (countIn t (rectCells 0 0 W H)) = cellCount t.
Proof.
  unfold inGrid. rewrite !andb_true_iff, !Z.leb_le. intros [[[Hr Hc] Hrh] Hcw].
  unfold countIn, cellCount.
  assert (Hperm : List.filter (fun cell => covers t (fst cell) (snd cell))
                              (rectCells 0 0 W H)
                  ≡ₚ rectCells (Tile.row t) (Tile.col t) (Tile.width t) (Tile.height t)).
  { apply NoDup_Permutation.
    - apply NoDup_filter_bool, NoDup_rectCells.
    - apply NoDup_rectCells.
    - intros [r c]. rewrite !list_elem_of_In, filter_In. simpl.
      rewrite covers_rectCells, !rectCells_In. lia. }
  rewrite (Permutation_length Hperm), length_rectCells. lia.
Qed.

Lemma coverCount_cons (t : Tile.t) (tiles : list Tile.t) (r c : Z) :
  coverCount (t :: tiles) r c
  = (Nat.b2n (covers t r c) + coverCount tiles r c)%nat.
Proof. unfold coverCount. simpl. destruct (covers t r c); reflexivity. Qed.

(** Counting covered cells tile by tile or cell by cell gives the same
    total. *)
Lemma count_by_tile_or_cell (tiles : list Tile.t) (cells : list (Z * Z)) :
  fold_right (fun t acc => Z.of_nat (countIn t cells) + acc) 0 tiles
  = fold_right (fun cell acc =>
                  Z.of_nat (coverCount tiles (fst cell) (snd cell)) + acc) 0 cells.
Proof.
  induction tiles as [|t tiles IH]; simpl.
  - induction cells as [|cell cells IHc]; simpl; [reflexivity | exact IHc].
  - rewrite IH. clear IH. unfold countIn.
    induction cells as [|cell cells IHc]; simpl; [reflexivity|].
    rewrite coverCount_cons, <- IHc.
    destruct (covers t (fst cell) (snd cell)); simpl length; simpl Nat.b2n; lia.
Qed.

(** Tiles inside the grid that cover every grid cell exactly once have
    [W * H] cells in total. *)
Lemma totalCells_partition (tiles : list Tile.t) :
  0 <= W -> 0 <= H ->
  Forall (fun t => inGrid W H t = true) tiles ->
  (forall r c, 0 <= r < H -> 0 <= c < W -> coverCount tiles r c = 1%nat) ->
  totalCells tiles = W * H.
Proof.
  intros HW HH Hin Hone.
  assert (E1 : totalCells tiles
               = fold_right (fun t acc => Z.of_nat (countIn t (rectCells 0 0 W H)) + acc)
                            0 tiles).
  { clear Hone. unfold totalCells.
    induction Hin as [|t tiles Ht Hin IH]; simpl; [reflexivity|].
    rewrite IH, (countIn_grid t Ht). reflexivity. }
  rewrite E1, count_by_tile_or_cell.
  assert (E2 : forall cells,
             (forall r c, In (r, c) cells -> 0 <= r < H /\ 0 <= c < W) ->
             fold_right (fun cell acc =>
                           Z.of_nat (coverCount tiles (fst cell) (snd cell)) + acc)
                        0 cells
             = Z.of_nat (length cells)).
  { induction cells as [|[r c] cells IH]; intros Hcells; simpl fold_right;
      [reflexivity|].
    rewrite IH by (intros r' c' Hc; apply Hcells; right; exact Hc).
    simpl fst; simpl snd.
    destruct (Hcells r c (or_introl eq_refl)) as [Hr Hc].
    rewrite (Hone r c Hr Hc). simpl length. lia. }
  rewrite E2.
  - rewrite length_rectCells. lia.
  - intros r c Hc. apply rectCells_In in Hc. lia.
Qed.

(** With non-negative normalized origins and non-negative draws every
    returned tile lies inside the grid. *)
Lemma generate_inGrid (rs : RandomSource) (tiles : list Tile.t) :
  fixedOriginsNonneg W H fixed ->
  drawsNonneg rs ->
  generate W H fixed rs = Ok tiles ->
  Forall (fun t => inGrid W H t = true) tiles.
Proof.
  intros Hfx Hdraws Hg.
  destruct (generate_spec W H fixed rs tiles Hg)
    as (this0 & s & final & _ & _ & _ & [_ (_ & _ & Hbnd)] & _ & Hseg).
  destruct Hseg as (placed & attempts & filled & Hs1 & _ & Hs3 & _ & Heq).
  rewrite Forall_forall in Hbnd. apply Forall_forall. intros t Ht.
  pose proof (Hbnd t Ht) as Hb. unfold tileBound in Hb.
  assert (Hlow : 0 <= Tile.row t /\ 0 <= Tile.col t
                 /\ (prefix (Tile.id t) = fixed_ \/ prefix (Tile.id t) <> fixed_)).
  { rewrite Heq in Ht. rewrite !elem_of_app in Ht.
    destruct Ht as [Ht|[Ht|Ht]]; apply list_elem_of_In, in_map_iff in Ht;
      destruct Ht as (x & <- & Hx).
    - assert (Hf : In x fixed).
      { apply list_elem_of_In. eapply elem_of_sublist; [|exact Hs1].
        apply list_elem_of_In, Hx. }
      destruct (Hfx x (usesAlternative s) Hf) as [Hr Hc]. simpl. auto.
    - destruct (Hdraws x) as [Hr Hc]. simpl. split; [exact Hr|]. split; [exact Hc|].
      right. discriminate.
    - assert (Hc : In x (rectCells 0 0 W H)).
      { apply list_elem_of_In. eapply elem_of_sublist; [|exact Hs3].
        apply list_elem_of_In, Hx. }
      destruct x as [r c]. apply rectCells_In in Hc. simpl.
      split; [lia|]. split; [lia|]. right. discriminate. }
  destruct Hlow as (Hr & Hc & _).
  unfold inGrid. rewrite !andb_true_iff, !Z.leb_le.
  destruct (prefix (Tile.id t)); lia.
Qed.

(** The pass on well-formed input: it returns, every tile lies inside the
    grid, every cell is covered exactly once, and the cell counts add up to
    the area of the grid. *)
Lemma generate_partition (rs : RandomSource) :
  validArrayLength W = true -> validArrayLength H = true ->
  fixedOriginsNonneg W H fixed ->
  drawsNonneg rs ->
  exists tiles,
    generate W H fixed rs = Ok tiles
    /\ Forall (fun t => inGrid W H t = true) tiles
    /\ (forall r c, 0 <= r < H -> 0 <= c < W -> coverCount tiles r c = 1%nat)
    /\ (forall r c, (coverCount tiles r c <= 1)%nat)
    /\ totalCells tiles = W * H.
Proof.
  intros HvW HvH Hfx Hdraws.
  destruct (generate_returns W H fixed rs HvW HvH) as [tiles Hg];
    [|exact Hdraws|].
  { intros f Hf. split; apply (Hfx f _ Hf). }
  exists tiles. split; [exact Hg|].
  pose proof (generate_inGrid rs tiles Hfx Hdraws Hg) as Hin.
  destruct (generate_covers_once W H fixed rs tiles Hg) as [Hle Hone].
  split; [exact Hin|]. split; [exact Hone|]. split; [exact Hle|].
  unfold validArrayLength in HvW, HvH.
  apply andb_true_iff in HvW, HvH. rewrite Z.leb_le in HvW, HvH.
  apply totalCells_partition; tauto.
Qed.

End Partition.

(** ** Further properties of the generator *)

Lemma readCell_agree (g g' : list Row) (r c : Z) :
  length g = length g' ->
  occupied g r c = occupied g' r c ->
  readCell g r c = readCell g' r c.
Proof.
  intros Hlen Hocc. unfold readCell, occupied in *.
  destruct (rowAt g r) as [ro|] eqn:E; destruct (rowAt g' r) as [ro'|] eqn:E'.
  - rewrite Hocc. reflexivity.
  - apply rowAt_hasRow in E. apply rowAt_None in E'. exfalso. apply E'.
    unfold hasRow in *. rewrite <- Hlen. exact E.
  - apply rowAt_hasRow in E'. apply rowAt_None in E. exfalso. apply E.
    unfold hasRow in *. rewrite Hlen. exact E'.
  - reflexivity.
Qed.

Lemma anyOccupied_agree (g g' : list Row) (cells : list (Z * Z)) :
  length g = length g' ->
  (forall r c, In (r, c) cells -> occupied g r c = occupied g' r c) ->
  anyOccupied g cells = anyOccupied g' cells.
Proof.
  intros Hlen. induction cells as [|[r c] cells IH]; simpl; intros Hocc; [reflexivity|].
  rewrite (readCell_agree g g' r c Hlen) by (apply Hocc; auto).
  rewrite IH by (intros r' c' Hin; apply Hocc; auto). reflexivity.
Qed.

Lemma filter_map_keep {A : Type} (f : A -> Tile.t) (p : Tile.t -> bool) (l : list A) :
  (forall x, p (f x) = true) -> List.filter p (map f l) = map f l.
Proof.
  intros Hp. induction l as [|x l IH]; simpl; [reflexivity|].
  rewrite Hp, IH. reflexivity.
Qed.

Lemma filter_map_drop {A : Type} (f : A -> Tile.t) (p : Tile.t -> bool) (l : list A) :
  (forall x, p (f x) = false) -> List.filter p (map f l) = [].
Proof.
  intros Hp. induction l as [|x l IH]; simpl; [reflexivity|].
  rewrite Hp, IH. reflexivity.
Qed.

Lemma constructor_Inv (W H : Z) (fixed : list FixedTile.t) (this : MosaicGenerator) :
  constructor W H fixed = Ok this ->
  Inv W H fixed this [] /\ resetGrid this = Ok this.
Proof.
  intros Hc. split.
  - assert (Hinit : sameConfig W H fixed (mkGenerator [] W H fixed)) by (repeat split).
    apply (resetGrid_Ok W H fixed _ _ Hinit Hc).
  - apply (resetGrid_idem _ _ Hc).
Qed.

(** Once the fixed tiles are placed, the rest of the pass returns for
    non-negative draws and only appends tiles of the other kinds. *)
Lemma generate_after_fixed (W H : Z) (fixed : list FixedTile.t) (rs : RandomSource)
    (this this1 : MosaicGenerator) (s : Strategy) (fx : list Tile.t) :
  constructor W H fixed = Ok this ->
  determinePlacementStrategy this = Ok s ->
  placeFixedTiles this [] s = Ok (this1, fx) ->
  drawsNonneg rs ->
  exists rest, generate W H fixed rs = Ok (fx ++ rest)
               /\ Forall (fun t => isFixedTile t = false) rest.
Proof.
  intros Hc Hs Hfx Hdraws.
  destruct (constructor_Inv W H fixed this Hc) as [HI0 Hidem].
  destruct (placeFixedTiles_spec W H fixed _ _ _ _ HI0 Hfx) as [HI1 _].
  simpl in HI1.
  destruct (placeRandomLoop_returns W H fixed rs MAX_PLACEMENT_ATTEMPTS 0
              this1 fx HI1) as [st2 Hst2].
  { intros i. apply Hdraws. }
  destruct (placeRandomLoop_spec W H fixed rs _ _ _ _ _ HI1 Hst2)
    as [HI2 (attempts & _ & Heq2)].
  destruct (fillEmptyCells_returns W H fixed (fst st2) rs (snd st2) HI2) as [st3 Hst3].
  destruct (fillEmptyCells_spec W H fixed _ _ _ _ HI2 Hst3)
    as (_ & _ & filled & _ & Heq3).
  exists (map (randomTile rs) attempts ++ map (fillTile rs) filled). split.
  - unfold generate. rewrite Hc. cbn [bind].
    unfold generatePattern. rewrite Hidem. cbn [bind].
    rewrite Hs. cbn [bind]. rewrite Hfx. cbn [bind fst snd].
    unfold placeRandomTiles. rewrite Hst2. cbn [bind]. rewrite Hst3. cbn [bind].
    rewrite Heq3, Heq2, <- app_assoc. reflexivity.
  - apply Forall_app. split; apply Forall_forall; intros t Ht;
      apply list_elem_of_In, in_map_iff in Ht; destruct Ht as (x & <- & _); reflexivity.
Qed.

(** On the grid a constructor or a reset leaves, the fixed-tile check of a
    rectangle with a non-negative row is the pair of far-edge tests. *)
Lemma isValidPosition_fresh (W H : Z) (fixed : list FixedTile.t)
    (this : MosaicGenerator) (p : Position) :
  Inv W H fixed this [] ->
  0 <= p_row p ->
  isValidPosition this p = Ok (withinFarEdges W H p).
Proof.
  intros HI Hrow. pose proof HI as [(HW & HH & _) (Hlen & Hcov & _)].
  unfold withinFarEdges.
  destruct (Z.leb_spec (p_col p + p_width p) (W - 1)) as [Hc|Hc];
    destruct (Z.leb_spec (p_row p + p_height p) (H - 1)) as [Hr|Hr]; simpl.
  - apply isValidPlacement_true. rewrite HW, HH. split; [lia|]. split; [lia|].
    apply canPlaceTile_true. rewrite HW, HH. split; [lia|]. split; [lia|].
    intros r c Hin. apply rectCells_In in Hin. split.
    + unfold hasRow. rewrite Hlen. lia.
    + specialize (Hcov r c). simpl in Hcov.
      destruct (occupied (grid this) r c); [discriminate | reflexivity].
  - unfold isValidPosition, isValidPlacement. rewrite HW, HH.
    destruct (Z.leb_spec (p_col p + p_width p) (W - 1)); [|lia]. simpl.
    destruct (Z.leb_spec (p_row p + p_height p) (H - 1)); [lia|]. reflexivity.
  - unfold isValidPosition, isValidPlacement. rewrite HW.
    destruct (Z.leb_spec (p_col p + p_width p) (W - 1)); [lia|]. reflexivity.
  - unfold isValidPosition, isValidPlacement. rewrite HW.
    destruct (Z.leb_spec (p_col p + p_width p) (W - 1)); [lia|]. reflexivity.
Qed.

Lemma every_forallb {A : Type} (f : A -> result bool) (g : A -> bool) (l : list A) :
  (forall x, In x l -> f x = Ok (g x)) -> every f l = Ok (forallb g l).
Proof.
  induction l as [|x l IH]; simpl; intros Hfg; [reflexivity|].
  rewrite (Hfg x) by auto. cbn [bind].
  destruct (g x); simpl; [|reflexivity]. apply IH. intros y Hy. apply Hfg. auto.
Qed.

Lemma strategy_by_table (W H : Z) (fixed : list FixedTile.t) (this : MosaicGenerator) :
  constructor W H fixed = Ok this ->
  fixedRowsNonneg W H fixed ->
  determinePlacementStrategy this = Ok (strategyTable W H fixed).
Proof.
  intros Hc Hrows.
  destruct (constructor_Inv W H fixed this Hc) as [HI0 _].
  rewrite (determinePlacementStrategy_unfold W H fixed this (proj1 HI0)).
  rewrite (every_forallb _ (fun f => withinFarEdges W H (positionOn W H f false))).
  2: { intros f Hf. apply (isValidPosition_fresh W H fixed); [exact HI0|].
       apply (Hrows f Hf). }
  cbn [bind]. unfold strategyTable.
  destruct (forallb _ fixed); [reflexivity|].
  rewrite (every_forallb _ (fun f => withinFarEdges W H (positionOn W H f true))).
  2: { intros f Hf. apply (isValidPosition_fresh W H fixed); [exact HI0|].
       apply (Hrows f Hf). }
  cbn [bind]. destruct (forallb _ fixed); reflexivity.
Qed.

(** X1: for sizes and spec coordinates in the range of exact arithmetic,
    whenever a pass returns, every cell of the grid is covered by exactly one
    returned tile, and no cell, inside or outside the grid, is covered by
    two. *)
Theorem X1_every_cell_covered_once (W H : Z) (fixed : list FixedTile.t)
    (rs : RandomSource) (tiles : list Tile.t) :
  inputsInRange W H fixed = true ->
  generate W H fixed rs = Ok tiles ->
  (forall r c, 0 <= r < H -> 0 <= c < W -> coverCount tiles r c = 1%nat)
  /\ (forall r c, (coverCount tiles r c <= 1)%nat).
Proof.
  intros _ Hg. destruct (generate_covers_once W H fixed rs tiles Hg) as [Hle Hone].
  split; assumption.
Qed.

Lemma X1_every_cell_covered_once_witness :
  generate 7 4 [charlieExample] sweepSource
  = Ok (valueOf (generate 7 4 [charlieExample] sweepSource) [])
  /\ (forall r c, 0 <= r < 4 -> 0 <= c < 7 ->
        coverCount (valueOf (generate 7 4 [charlieExample] sweepSource) []) r c = 1%nat)
  /\ (forall r c,
        (coverCount (valueOf (generate 7 4 [charlieExample] sweepSource) []) r c <= 1)%nat).
Proof.
  assert (Hrun : generate 7 4 [charlieExample] sweepSource
                 = Ok (valueOf (generate 7 4 [charlieExample] sweepSource) []))
    by (vm_compute; reflexivity).
  split; [exact Hrun|].
  exact (X1_every_cell_covered_once 7 4 [charlieExample] sweepSource _
           eq_refl Hrun).
Defined.

(** X2: when the grid sizes are array lengths, no normalized origin of a
    fixed-tile spec is negative and the draws are non-negative, the pass
    returns, every returned tile lies inside the grid, and the cell counts of
    the returned tiles add up to [W * H]. *)
Theorem X2_partition_of_the_grid (W H : Z) (fixed : list FixedTile.t)
    (rs : RandomSource) :
  validArrayLength W = true -> validArrayLength H = true ->
  fixedOriginsNonneg W H fixed ->
  drawsNonneg rs ->
  exists tiles,
    generate W H fixed rs = Ok tiles
    /\ Forall (fun t => inGrid W H t = true) tiles
    /\ totalCells tiles = W * H.
Proof.
  intros HvW HvH Hfx Hdraws.
  destruct (generate_partition W H fixed rs HvW HvH Hfx Hdraws)
    as (tiles & Hg & Hin & _ & _ & Hsum).
  exists tiles. auto.
Qed.

Lemma X2_partition_of_the_grid_witness :
  exists tiles,
    generate 7 4 [charlieExample] (constantSource 0.1 0 0) = Ok tiles
    /\ Forall (fun t => inGrid 7 4 t = true) tiles
    /\ totalCells tiles = 7 * 4.
Proof.
  apply (X2_partition_of_the_grid 7 4 [charlieExample] (constantSource 0.1 0 0)).
  - reflexivity.
  - reflexivity.
  - intros f ua [<-|[]]. destruct ua; cbn; lia.
  - intros i. cbn. lia.
Defined.

(** X3: on a grid with one row per grid row, [canPlaceTile] at a
    non-negative origin returns a boolean, and that boolean is [true] exactly
    when the rectangle ends inside the grid and none of its cells is
    occupied. *)
Theorem X3_canPlaceTile_at_nonneg_origin (this : MosaicGenerator)
    (row col width height : Z) :
  length (grid this) = Z.to_nat (gridHeight this) ->
  0 <= row -> 0 <= col ->
  exists b, canPlaceTile this row col width height = Ok b
            /\ (b = true <->
                row + height <= gridHeight this /\ col + width <= gridWidth this
                /\ forall r c, row <= r < row + height -> col <= c < col + width ->
                               occupied (grid this) r c = false).
Proof.
  intros Hlen Hrow Hcol.
  destruct (canPlaceTile_spec_nonneg this row col width height Hlen Hrow Hcol)
    as (b & Hb & Hiff).
  exists b. split; [exact Hb|]. rewrite Hiff. split.
  - intros (H1 & H2 & H3). split; [exact H1|]. split; [exact H2|].
    intros r c Hr Hc. apply H3, rectCells_In. auto.
  - intros (H1 & H2 & H3). split; [exact H1|]. split; [exact H2|].
    intros r c Hin. apply rectCells_In in Hin. apply H3; tauto.
Qed.

Lemma X3_canPlaceTile_at_nonneg_origin_witness :
  exists b, canPlaceTile (mkGenerator [∅; ∅; ∅] 4 3 []) 1 2 2 1 = Ok b
            /\ (b = true <->
                1 + 1 <= 3 /\ 2 + 2 <= 4
                /\ forall r c, 1 <= r < 1 + 1 -> 2 <= c < 2 + 2 ->
                               occupied [∅; ∅; ∅] r c = false).
Proof.
  apply (X3_canPlaceTile_at_nonneg_origin (mkGenerator [∅; ∅; ∅] 4 3 []) 1 2 2 1).
  - reflexivity.
  - lia.
  - lia.
Defined.

(** X4: for sizes and rectangles in the range of exact arithmetic, after
    [placeTile] has marked a rectangle, [canPlaceTile] refuses every rectangle
    with a non-negative row that shares a cell with it, and answers as before
    for every rectangle that shares none. *)
Theorem X4_placed_tile_blocks_overlap (this this' : MosaicGenerator)
    (row col width height row2 col2 width2 height2 : Z) :
  rectInRange this row col width height = true ->
  rectInRange this row2 col2 width2 height2 = true ->
  length (grid this) = Z.to_nat (gridHeight this) ->
  placeTile this row col width height = Ok this' ->
  ((exists r c, In (r, c) (rectCells row col width height)
                /\ In (r, c) (rectCells row2 col2 width2 height2)) ->
   0 <= row2 ->
   canPlaceTile this' row2 col2 width2 height2 = Ok false)
  /\ ((forall r c, In (r, c) (rectCells row col width height) ->
                   ~ In (r, c) (rectCells row2 col2 width2 height2)) ->
      canPlaceTile this' row2 col2 width2 height2
      = canPlaceTile this row2 col2 width2 height2).
Proof.
  intros _ _ Hlen Hplace. apply placeTile_Ok in Hplace.
  destruct Hplace as (Hthis & Hlen' & Hocc). split.
  - intros (r & c & Hin1 & Hin2) Hrow2.
    destruct (canPlaceTile_returns this' row2 col2 width2 height2) as [b Hb].
    + rewrite Hthis. simpl. rewrite Hlen'. exact Hlen.
    + exact Hrow2.
    + destruct b; [|exact Hb]. apply canPlaceTile_true in Hb.
      destruct Hb as (_ & _ & Hfree). destruct (Hfree r c Hin2) as [_ Hf].
      assert (Ho : occupied (grid this') r c = true) by (apply Hocc; auto).
      congruence.
  - intros Hdisj. unfold canPlaceTile. rewrite Hthis at 1 2. simpl.
    destruct (_ || _); [reflexivity|].
    rewrite (anyOccupied_agree (grid this') (grid this)); [reflexivity | exact Hlen' |].
    intros r c Hin. destruct (occupied (grid this') r c) eqn:Eo.
    + apply Hocc in Eo. destruct Eo as [Eo|Ein]; [symmetry; exact Eo|].
      exfalso. exact (Hdisj r c Ein Hin).
    + destruct (occupied (grid this) r c) eqn:Eo'; [|reflexivity].
      assert (Ho : occupied (grid this') r c = true) by (apply Hocc; auto).
      congruence.
Qed.

Lemma X4_placed_tile_blocks_overlap_witness :
  placeTile (mkGenerator [∅; ∅; ∅] 4 3 []) 1 1 2 1
  = Ok (valueOf (placeTile (mkGenerator [∅; ∅; ∅] 4 3 []) 1 1 2 1)
                (mkGenerator [] 0 0 []))
  /\ canPlaceTile (valueOf (placeTile (mkGenerator [∅; ∅; ∅] 4 3 []) 1 1 2 1)
                           (mkGenerator [] 0 0 [])) 0 2 1 2 = Ok false
  /\ canPlaceTile (valueOf (placeTile (mkGenerator [∅; ∅; ∅] 4 3 []) 1 1 2 1)
                           (mkGenerator [] 0 0 [])) 2 0 3 1
     = canPlaceTile (mkGenerator [∅; ∅; ∅] 4 3 []) 2 0 3 1.
Proof.
  assert (Hrun : placeTile (mkGenerator [∅; ∅; ∅] 4 3 []) 1 1 2 1
                 = Ok (valueOf (placeTile (mkGenerator [∅; ∅; ∅] 4 3 []) 1 1 2 1)
                               (mkGenerator [] 0 0 [])))
    by (vm_compute; reflexivity).
  assert (Hlen : length (grid (mkGenerator [∅; ∅; ∅] 4 3 []))
                 = Z.to_nat (gridHeight (mkGenerator [∅; ∅; ∅] 4 3 [])))
    by reflexivity.
  split; [exact Hrun|]. split.
  - apply (proj1 (X4_placed_tile_blocks_overlap
                    (mkGenerator [∅; ∅; ∅] 4 3 []) _ 1 1 2 1 0 2 1 2
                    eq_refl eq_refl Hlen Hrun)).
    + exists 1, 2. split; apply rectCells_In; lia.
    + lia.
  - apply (proj2 (X4_placed_tile_blocks_overlap
                    (mkGenerator [∅; ∅; ∅] 4 3 []) _ 1 1 2 1 2 0 3 1
                    eq_refl eq_refl Hlen Hrun)).
    intros r c H1 H2. apply rectCells_In in H1, H2. lia.
Defined.

Lemma generatePattern_setGrid (this : MosaicGenerator) (g : list Row)
    (rs : RandomSource) :
  generatePattern (setGrid this g) rs = generatePattern this rs.
Proof. reflexivity. Qed.

(** X5: a pass leaves the generator ready for the next one: calling
    [generatePattern] again on the generator a pass returned gives, for any
    draws, what it gives on the generator the pass started from. *)
Theorem X5_next_pass_starts_clean (this this' : MosaicGenerator)
    (rs rs' : RandomSource) (tiles : list Tile.t) :
  generatePattern this rs = Ok (this', tiles) ->
  generatePattern this' rs' = generatePattern this rs'.
Proof.
  intros Hg.
  assert (Hcfg : sameConfig (gridWidth this) (gridHeight this) (fixedTiles this) this)
    by (repeat split).
  destruct (generatePattern_spec _ _ _ this rs _ Hcfg Hg)
    as (this0 & s & _ & _ & [(HW & HH & Hfx) _] & _).
  simpl in HW, HH, Hfx.
  assert (Hthis' : this' = setGrid this (grid this')).
  { destruct this', this. simpl in *. subst. reflexivity. }
  rewrite Hthis'. apply generatePattern_setGrid.
Qed.

Lemma X5_next_pass_starts_clean_witness :
  generatePattern (mkGenerator [] 7 4 [charlieExample]) sweepSource
  = Ok (valueOf (generatePattern (mkGenerator [] 7 4 [charlieExample]) sweepSource)
                (mkGenerator [] 0 0 [], []))
  /\ generatePattern
       (fst (valueOf (generatePattern (mkGenerator [] 7 4 [charlieExample]) sweepSource)
                     (mkGenerator [] 0 0 [], [])))
       (constantSource 0.1 0 0)
     = generatePattern (mkGenerator [] 7 4 [charlieExample]) (constantSource 0.1 0 0).
Proof.
  assert (Hrun : generatePattern (mkGenerator [] 7 4 [charlieExample]) sweepSource
                 = Ok (valueOf (generatePattern (mkGenerator [] 7 4 [charlieExample])
                                                sweepSource)
                               (mkGenerator [] 0 0 [], [])))
    by (vm_compute; reflexivity).
  split; [exact Hrun|].
  apply (X5_next_pass_starts_clean _ _ sweepSource (constantSource 0.1 0 0)
           (snd (valueOf (generatePattern (mkGenerator [] 7 4 [charlieExample])
                                          sweepSource)
                         (mkGenerator [] 0 0 [], [])))).
  rewrite Hrun at 1. vm_compute. reflexivity.
Defined.

(** X6: for sizes and spec coordinates in the range of exact arithmetic,
    when no normalized row of a fixed-tile spec is negative, the strategy is
    read off the far-edge tests of the single specs: [primary]
    when every primary rectangle passes them, else [alternative] when every
    alternate rectangle (the primary one of a spec without alternate) passes
    them, else [fallback].  Whether rectangles overlap one another plays no
    part. *)
Theorem X6_strategy_is_a_table (W H : Z) (fixed : list FixedTile.t)
    (this : MosaicGenerator) :
  inputsInRange W H fixed = true ->
  constructor W H fixed = Ok this ->
  fixedRowsNonneg W H fixed ->
  determinePlacementStrategy this
  = Ok (if forallb (fun f => withinFarEdges W H (positionOn W H f false)) fixed
        then primary
        else if forallb (fun f => withinFarEdges W H (positionOn W H f true)) fixed
             then alternative
             else fallback).
Proof. intros _ Hc Hrows. exact (strategy_by_table W H fixed this Hc Hrows). Qed.

Lemma X6_strategy_is_a_table_witness :
  constructor 6 8 (allFixedTiles home)
  = Ok (valueOf (constructor 6 8 (allFixedTiles home)) (mkGenerator [] 0 0 []))
  /\ determinePlacementStrategy
       (valueOf (constructor 6 8 (allFixedTiles home)) (mkGenerator [] 0 0 []))
     = Ok (if forallb (fun f => withinFarEdges 6 8 (positionOn 6 8 f false))
                      (allFixedTiles home)
           then primary
           else if forallb (fun f => withinFarEdges 6 8 (positionOn 6 8 f true))
                           (allFixedTiles home)
                then alternative
                else fallback).
Proof.
  assert (Hrun : constructor 6 8 (allFixedTiles home)
                 = Ok (valueOf (constructor 6 8 (allFixedTiles home))
                               (mkGenerator [] 0 0 [])))
    by (vm_compute; reflexivity).
  split; [exact Hrun|].
  apply (X6_strategy_is_a_table 6 8 (allFixedTiles home) _ eq_refl Hrun).
  intros f [<-|[<-|[<-|[]]]]; cbn; lia.
Defined.

(** X7: when every primary rectangle lies in the usable span and the
    primary rectangles are disjoint from one another, the strategy is
    [primary] and the returned list starts with every spec's tile at its
    primary (normalized) coordinates, in the order of the specs. *)
Theorem X7_primary_layout (W H : Z) (fixed : list FixedTile.t) (rs : RandomSource) :
  validArrayLength W = true -> validArrayLength H = true ->
  drawsNonneg rs ->
  (forall f, In f fixed -> fitsUsableSpan W H (positionOn W H f false)) ->
  ForallOrdPairs
    (fun f g => rectsDisjoint (positionOn W H f false) (positionOn W H g false))
    fixed ->
  exists this rest,
    constructor W H fixed = Ok this
    /\ determinePlacementStrategy this = Ok primary
    /\ generate W H fixed rs = Ok (map (fixedTileOn W H false) fixed ++ rest)
    /\ Forall (fun t => isFixedTile t = false) rest.
Proof.
  intros HvW HvH Hdraws Hfit Hdisj.
  destruct (proj2 (resetGrid_returns (mkGenerator [] W H fixed))) as [this Hc].
  { simpl. auto. }
  destruct (constructor_Inv W H fixed this Hc) as [HI0 _].
  assert (Hs : determinePlacementStrategy this = Ok primary).
  { rewrite (determinePlacementStrategy_unfold W H fixed this (proj1 HI0)).
    assert (Hb : every (fun f => isValidPosition this (positionOn W H f false)) fixed
                 = Ok true).
    { apply every_true. intros f Hf.
      apply (isValidPosition_free W H fixed this []);
        [exact HI0 | apply Hfit, Hf | intros; reflexivity]. }
    rewrite Hb. reflexivity. }
  destruct (placeFixedLoop_all W H fixed false fixed this [] HI0 Hfit)
    as (this1 & Hloop & _); [intros; reflexivity | exact Hdisj |].
  simpl in Hloop.
  destruct (generate_after_fixed W H fixed rs this this1 primary
              (map (fixedTileOn W H false) fixed) Hc Hs) as (rest & Hg & Hrest).
  { simpl. destruct (proj1 HI0) as (_ & _ & ->). exact Hloop. }
  { exact Hdraws. }
  exists this, rest. auto.
Qed.

Lemma X7_primary_layout_witness :
  exists this rest,
    constructor 12 3 (allFixedTiles home) = Ok this
    /\ determinePlacementStrategy this = Ok primary
    /\ generate 12 3 (allFixedTiles home) (constantSource 0.1 0 0)
       = Ok (map (fixedTileOn 12 3 false) (allFixedTiles home) ++ rest)
    /\ Forall (fun t => isFixedTile t = false) rest.
Proof.
  apply (X7_primary_layout 12 3 (allFixedTiles home) (constantSource 0.1 0 0)).
  - reflexivity.
  - reflexivity.
  - intros i. cbn. lia.
  - intros f [<-|[<-|[<-|[]]]]; unfold fitsUsableSpan; cbn; lia.
  - repeat constructor; intros r c H1 H2;
      apply rectCells_In in H1, H2; cbn in H1, H2; lia.
Defined.

(** X8: in a pass that returns under the [fallback] strategy, the returned
    list holds no fixed tile, or exactly one: the tile of the first spec whose
    text is "Charlie Beutter", at its primary (normalized) position. *)
Theorem X8_fallback_keeps_only_the_essential_tile (W H : Z)
    (fixed : list FixedTile.t) (rs : RandomSource) (this : MosaicGenerator)
    (tiles : list Tile.t) :
  constructor W H fixed = Ok this ->
  determinePlacementStrategy this = Ok fallback ->
  generate W H fixed rs = Ok tiles ->
  List.filter isFixedTile tiles = []
  \/ exists charlieTile,
       List.find isCharlie fixed = Some charlieTile
       /\ List.filter isFixedTile tiles = [fixedTileOn W H false charlieTile].
Proof.
  intros Hc Hs Hg.
  destruct (generate_spec W H fixed rs tiles Hg)
    as (this0 & s & final & Hc0 & Hs0 & _ & _ & _ & Hseg).
  rewrite Hc in Hc0. injection Hc0 as <-. rewrite Hs in Hs0. injection Hs0 as <-.
  destruct Hseg as (placed & attempts & filled & _ & _ & _ & Hfb & ->).
  rewrite !List.filter_app.
  rewrite (filter_map_keep (fixedTileOn W H (usesAlternative fallback)))
    by reflexivity.
  rewrite (filter_map_drop (randomTile rs)) by reflexivity.
  rewrite (filter_map_drop (fillTile rs)) by reflexivity.
  rewrite !app_nil_r.
  destruct (Hfb eq_refl) as [-> | (ch & Hfind & ->)].
  - left. reflexivity.
  - right. exists ch. split; [exact Hfind | reflexivity].
Qed.

Lemma X8_fallback_keeps_only_the_essential_tile_witness :
  List.filter isFixedTile
    (valueOf (generate 6 3 (allFixedTiles home) (constantSource 0.1 0 0)) []) = []
  \/ exists charlieTile,
       List.find isCharlie (allFixedTiles home) = Some charlieTile
       /\ List.filter isFixedTile
            (valueOf (generate 6 3 (allFixedTiles home) (constantSource 0.1 0 0)) [])
          = [fixedTileOn 6 3 false charlieTile].
Proof.
  apply (X8_fallback_keeps_only_the_essential_tile 6 3 (allFixedTiles home)
           (constantSource 0.1 0 0)
           (valueOf (constructor 6 3 (allFixedTiles home)) (mkGenerator [] 0 0 []))).
  - vm_compute. reflexivity.
  - vm_compute. reflexivity.
  - vm_compute. reflexivity.
Defined.

(** X9: for every draw, a NaN included, the sampler returns one of the
    eight palette entries; a sampled shape is between 1 and 3 cells wide and
    high and has at most 6 cells. *)
Theorem X9_sampler_returns_a_palette_entry (rand : float) :
  In (getRandomTileType rand) TILE_TYPES
  /\ 1 <= TileType.width (getRandomTileType rand) <= 3
  /\ 1 <= TileType.height (getRandomTileType rand) <= 3
  /\ TileType.width (getRandomTileType rand)
     * TileType.height (getRandomTileType rand) <= 6.
Proof.
  assert (Hin : In (getRandomTileType rand) TILE_TYPES).
  { unfold getRandomTileType.
    destruct (getRandomTileTypeFrom_spec TILE_TYPES rand)
      as [(k & t & Hk & -> & _) | [_ ->]].
    - cbn [default]. apply (proj1 (list_elem_of_In _ _)).
      apply list_elem_of_lookup. eauto.
    - simpl. auto. }
  split; [exact Hin|].
  simpl in Hin.
  repeat (destruct Hin as [<-|Hin]; [simpl; lia|]). destruct Hin.
Qed.

(** ** Clicks and rendering *)

Lemma isClickableTile_labels (tile : Tile.t) :
  isClickableTile tile
  = truthy (Tile.url tile)
    || (textIs tile "About" || (textIs tile "Projects"
        || textIs tile "Charlie Beutter")).
Proof.
  unfold isClickableTile, textIs. destruct (Tile.text tile) as [t|]; simpl.
  - rewrite orb_false_r. reflexivity.
  - reflexivity.
Qed.

Lemma truthy_Some (s : option string) :
  truthy s = true -> exists u, s = Some u /\ u <> ""%string.
Proof.
  destruct s as [u|]; simpl; [|discriminate].
  intros Hu. exists u. split; [reflexivity|]. intros ->. discriminate.
Qed.

(** X10: the click guard of [renderTile] and the handler agree: a tile is
    clickable exactly when its handler does something, so the guard never
    drops an effective click; and a navigation label wins over a url. *)
Theorem X10_clickable_iff_click_has_effect (tile : Tile.t) :
  (isClickableTile tile = true <-> handleTileClick tile <> NoEffect)
  /\ clickTile tile = handleTileClick tile
  /\ (forall u, handleTileClick tile = OpenUrl u ->
        Tile.url tile = Some u /\ u <> ""%string
        /\ textIs tile "About" = false /\ textIs tile "Projects" = false
        /\ textIs tile "Charlie Beutter" = false).
Proof.
  unfold clickTile. rewrite isClickableTile_labels. unfold handleTileClick.
  destruct (textIs tile "About") eqn:Ea.
  { rewrite !orb_true_r. repeat split; try discriminate. }
  destruct (textIs tile "Projects") eqn:Eb.
  { rewrite !orb_true_r. repeat split; try discriminate. }
  destruct (textIs tile "Charlie Beutter") eqn:Ec.
  { rewrite !orb_true_r. repeat split; try discriminate. }
  rewrite !orb_false_r.
  destruct (truthy (Tile.url tile)) eqn:Eu.
  - destruct (truthy_Some _ Eu) as (u & Hu & Hne). rewrite Hu. simpl.
    split; [split; [discriminate | reflexivity]|]. split; [reflexivity|].
    intros u' [= <-]. auto.
  - split; [split; [discriminate | intros Hne; exfalso; apply Hne; reflexivity]|].
    split; [reflexivity|]. discriminate.
Qed.

(** X11: in every returned list, a tile that is not a fixed tile is not
    clickable, its click handler does nothing, and it is animated on every
    render. *)
Theorem X11_filler_tiles_are_inert (W H : Z) (fixed : list FixedTile.t)
    (rs : RandomSource) (tiles : list Tile.t) :
  generate W H fixed rs = Ok tiles ->
  Forall (fun t => isFixedTile t = false ->
                   isClickableTile t = false
                   /\ handleTileClick t = NoEffect
                   /\ forall isInitialLoad, shouldAnimate isInitialLoad t = true)
         tiles.
Proof.
  intros Hg.
  destruct (generate_spec W H fixed rs tiles Hg)
    as (this0 & s & final & _ & _ & _ & _ & _ & Hseg).
  destruct Hseg as (placed & attempts & filled & _ & _ & _ & _ & ->).
  rewrite !Forall_app. split; [|split]; apply Forall_forall; intros t Ht;
    apply list_elem_of_In, in_map_iff in Ht; destruct Ht as (x & <- & _).
  - intros Hf. discriminate.
  - intros _. split; [reflexivity|]. split; [reflexivity|].
    intros b. unfold shouldAnimate. simpl. apply orb_true_r.
  - intros _. split; [reflexivity|]. split; [reflexivity|].
    intros b. unfold shouldAnimate. simpl. apply orb_true_r.
Qed.

Lemma X11_filler_tiles_are_inert_witness :
  generate 7 4 [charlieExample] sweepSource
  = Ok (valueOf (generate 7 4 [charlieExample] sweepSource) [])
  /\ Forall (fun t => isFixedTile t = false ->
                      isClickableTile t = false
                      /\ handleTileClick t = NoEffect
                      /\ forall isInitialLoad, shouldAnimate isInitialLoad t = true)
            (valueOf (generate 7 4 [charlieExample] sweepSource) []).
Proof.
  assert (Hrun : generate 7 4 [charlieExample] sweepSource
                 = Ok (valueOf (generate 7 4 [charlieExample] sweepSource) []))
    by (vm_compute; reflexivity).
  split; [exact Hrun|].
  exact (X11_filler_tiles_are_inert 7 4 [charlieExample] sweepSource _ Hrun).
Defined.

Lemma allFixedTiles_origins (W H : Z) (page : PageType) :
  fixedOriginsNonneg W H (allFixedTiles page).
Proof.
  intros f ua Hf. destruct page; simpl in Hf;
    destruct Hf as [<-|[<-|[<-|[]]]]; destruct ua; cbn; lia.
Qed.

(** X12: for every viewport of at most [2^31] pixels a side, every page
    and non-negative draws, the grid computed from the viewport is at least as
    large as the viewport and exceeds it by at most one cell a side, and
    [generateMosaic] returns tiles that lie inside that grid and whose cell
    counts add up to its area. *)
Theorem X12_every_viewport_gets_a_full_mosaic (innerWidth innerHeight : Z)
    (page : PageType) (rs : RandomSource) :
  0 <= innerWidth < 2 ^ 31 -> 0 <= innerHeight < 2 ^ 31 ->
  drawsNonneg rs ->
  exists W H tiles,
    calculateGridDimensions innerWidth innerHeight = (W, H)
    /\ (W - 1) * TILE_SIZE <= innerWidth < W * TILE_SIZE
    /\ (H - 1) * TILE_SIZE <= innerHeight < H * TILE_SIZE
    /\ generateMosaic (W, H) page rs = Ok tiles
    /\ Forall (fun t => inGrid W H t = true) tiles
    /\ totalCells tiles = W * H.
Proof.
  intros Hw Hh Hdraws. unfold calculateGridDimensions, TILE_SIZE.
  pose proof (Z.div_mod innerWidth 60 ltac:(lia)) as Ew.
  pose proof (Z.mod_pos_bound innerWidth 60 ltac:(lia)) as Bw.
  pose proof (Z.div_mod innerHeight 60 ltac:(lia)) as Eh.
  pose proof (Z.mod_pos_bound innerHeight 60 ltac:(lia)) as Bh.
  destruct (generate_partition (innerWidth / 60 + 1) (innerHeight / 60 + 1)
              (allFixedTiles page) rs) as (tiles & Hg & Hin & _ & _ & Hsum).
  - unfold validArrayLength. apply andb_true_iff. rewrite Z.leb_le, Z.ltb_lt. lia.
  - unfold validArrayLength. apply andb_true_iff. rewrite Z.leb_le, Z.ltb_lt. lia.
  - apply allFixedTiles_origins.
  - exact Hdraws.
  - exists (innerWidth / 60 + 1), (innerHeight / 60 + 1), tiles.
    split; [reflexivity|]. split; [lia|]. split; [lia|]. auto.
Qed.

Lemma X12_every_viewport_gets_a_full_mosaic_witness :
  exists W H tiles,
    calculateGridDimensions 1280 720 = (W, H)
    /\ (W - 1) * TILE_SIZE <= 1280 < W * TILE_SIZE
    /\ (H - 1) * TILE_SIZE <= 720 < H * TILE_SIZE
    /\ generateMosaic (W, H) about (constantSource 0.1 0 0) = Ok tiles
    /\ Forall (fun t => inGrid W H t = true) tiles
    /\ totalCells tiles = W * H.
Proof.
  apply (X12_every_viewport_gets_a_full_mosaic 1280 720 about (constantSource 0.1 0 0)).
  - lia.
  - lia.
  - intros i. cbn. lia.
Defined.

Lemma allFixedTiles_rows (W H : Z) (page : PageType) :
  fixedRowsNonneg W H (allFixedTiles page).
Proof.
  intros f Hf. split; apply (allFixedTiles_origins W H page f _ Hf).
Qed.

Ltac split_leb :=
  repeat match goal with
         | |- context [?a <=? ?b] => destruct (Z.leb_spec a b); simpl
         end.

(** X13: the strategy of the shipped pages by grid size.  The home page is
    laid out at primary positions from 12 columns and 3 rows on, the other
    pages from 15 columns and 3 rows on; below that, the alternate positions
    are used from 6 (home) or 7 (other pages) columns and 7 rows on; in every
    other grid the strategy is the fallback. *)
Theorem X13_page_breakpoints (page : PageType) (W H : Z) (this : MosaicGenerator) :
  constructor W H (allFixedTiles page) = Ok this ->
  determinePlacementStrategy this
  = Ok (if ((match page with home => 12 | _ => 15 end) <=? W) && (3 <=? H)
        then primary
        else if ((match page with home => 6 | _ => 7 end) <=? W) && (7 <=? H)
             then alternative
             else fallback).
Proof.
  intros Hc.
  rewrite (strategy_by_table W H (allFixedTiles page) this Hc
             (allFixedTiles_rows W H page)).
  f_equal. unfold strategyTable, withinFarEdges.
  destruct page; cbn; split_leb; try reflexivity; lia.
Qed.

Lemma X13_page_breakpoints_witness :
  determinePlacementStrategy
    (valueOf (constructor 9 8 (allFixedTiles projects)) (mkGenerator [] 0 0 []))
  = Ok (if (15 <=? 9) && (3 <=? 8) then primary
        else if (7 <=? 9) && (7 <=? 8) then alternative else fallback).
Proof.
  apply (X13_page_breakpoints projects 9 8). vm_compute. reflexivity.
Defined.

(** The stages a returned list went through. *)
Lemma generate_phases (W H : Z) (fixed : list FixedTile.t) (rs : RandomSource)
    (tiles : list Tile.t) :
  generate W H fixed rs = Ok tiles ->
  exists this s this1 fx rest,
    constructor W H fixed = Ok this
    /\ determinePlacementStrategy this = Ok s
    /\ placeFixedTiles this [] s = Ok (this1, fx)
    /\ tiles = fx ++ rest
    /\ Forall (fun t => isFixedTile t = false) rest.
Proof.
  unfold generate. intros Hg.
  apply bind_Ok in Hg. destruct Hg as (this & Hc & Hg).
  apply bind_Ok in Hg. destruct Hg as ([final tiles'] & Hp & [= <-]).
  destruct (constructor_Inv W H fixed this Hc) as [HI0 Hidem].
  unfold generatePattern in Hp. rewrite Hidem in Hp. cbn [bind] in Hp.
  apply bind_Ok in Hp. destruct Hp as (s & Hs & Hp).
  apply bind_Ok in Hp. destruct Hp as ([this1 fx] & Hfx & Hp).
  apply bind_Ok in Hp. destruct Hp as (st2 & Hrandom & Hfill).
  cbn [fst snd] in Hrandom.
  destruct (placeFixedTiles_spec W H fixed _ _ _ _ HI0 Hfx) as [HI1 _].
  destruct (placeRandomLoop_spec W H fixed rs _ _ _ _ _ HI1 Hrandom)
    as [HI2 (attempts & _ & Heq2)].
  destruct (fillEmptyCells_spec W H fixed _ _ _ _ HI2 Hfill)
    as (_ & _ & filled & _ & Heq3).
  exists this, s, this1, fx, (map (randomTile rs) attempts ++ map (fillTile rs) filled).
  split; [exact Hc|]. split; [exact Hs|]. split; [exact Hfx|]. split.
  - simpl in Heq3, Heq2. rewrite Heq3, Heq2, <- app_assoc. reflexivity.
  - apply Forall_app. split; apply Forall_forall; intros t Ht;
      apply list_elem_of_In, in_map_iff in Ht; destruct Ht as (x & <- & _); reflexivity.
Qed.

(** When the first spec is the essential tile and both its rectangles lie
    in the usable span, it is placed first under every strategy. *)
Lemma essential_tile_first (W H : Z) (f : FixedTile.t) (others : list FixedTile.t)
    (rs : RandomSource) (tiles : list Tile.t) :
  generate W H (f :: others) rs = Ok tiles ->
  isCharlie f = true ->
  fitsUsableSpan W H (positionOn W H f false) ->
  fitsUsableSpan W H (positionOn W H f true) ->
  exists useAlternative rest, tiles = fixedTileOn W H useAlternative f :: rest.
Proof.
  intros Hg Hch Hfit0 Hfit1.
  destruct (generate_phases W H (f :: others) rs tiles Hg)
    as (this & s & this1 & fx & rest & Hc & Hs & Hfx & -> & _).
  destruct (constructor_Inv W H (f :: others) this Hc) as [HI0 _].
  pose proof (proj1 HI0) as (_ & _ & Hfixed).
  assert (Hstep : forall ua st,
             fitsUsableSpan W H (positionOn W H f ua) ->
             placeFixedTile this [] f ua = Ok st ->
             Inv W H (f :: others) (fst st) (snd st)
             /\ snd st = [fixedTileOn W H ua f]).
  { intros ua st Hfit Hst.
    destruct (placeFixedTile_spec W H (f :: others) _ _ _ _ _ HI0 Hst) as [HI1 Hcase].
    split; [exact HI1|].
    destruct Hcase as [[Hno _] | [_ Hsnd]]; [|exact Hsnd].
    rewrite (isValidPosition_free W H (f :: others) this [] _ HI0 Hfit) in Hno
      by (intros; reflexivity).
    discriminate. }
  assert (Hloop : forall ua,
             fitsUsableSpan W H (positionOn W H f ua) ->
             placeFixedLoop this [] ua (f :: others) = Ok (this1, fx) ->
             exists rest', fx = fixedTileOn W H ua f :: rest').
  { intros ua Hfit Hl. cbn [placeFixedLoop] in Hl.
    apply bind_Ok in Hl. destruct Hl as (sta & Hsta & Hl).
    destruct (Hstep ua sta Hfit Hsta) as [HI1 Hsnd].
    destruct (placeFixedLoop_spec W H (f :: others) ua others _ _ _ HI1 Hl)
      as [_ (placed & _ & Heq)].
    simpl in Heq. rewrite Hsnd in Heq. rewrite Heq. simpl. eauto. }
  destruct s; simpl in Hfx; rewrite ?Hfixed in Hfx.
  - destruct (Hloop false Hfit0 Hfx) as [rest' ->]. exists false, (rest' ++ rest).
    reflexivity.
  - destruct (Hloop true Hfit1 Hfx) as [rest' ->]. exists true, (rest' ++ rest).
    reflexivity.
  - unfold placeEssentialTiles in Hfx. rewrite Hfixed in Hfx. simpl in Hfx.
    rewrite Hch in Hfx. destruct (Hstep false _ Hfit0 Hfx) as [_ Hsnd].
    simpl in Hsnd. subst fx. exists false, rest. reflexivity.
Qed.

(** X14: when the first fixed-tile spec is the essential tile and both its
    primary and its alternate rectangle lie in the usable span, every returned
    list starts with its tile, whatever strategy the other specs force. *)
Theorem X14_essential_tile_leads_the_list (W H : Z) (f : FixedTile.t)
    (others : list FixedTile.t) (rs : RandomSource) (tiles : list Tile.t) :
  generate W H (f :: others) rs = Ok tiles ->
  isCharlie f = true ->
  fitsUsableSpan W H (positionOn W H f false) ->
  fitsUsableSpan W H (positionOn W H f true) ->
  exists rest,
    tiles = fixedTileOn W H false f :: rest
    \/ tiles = fixedTileOn W H true f :: rest.
Proof.
  intros Hg Hch Hfit0 Hfit1.
  destruct (essential_tile_first W H f others rs tiles Hg Hch Hfit0 Hfit1)
    as ([|] & rest & ->); exists rest; auto.
Qed.

Lemma X14_essential_tile_leads_the_list_witness :
  exists rest,
    valueOf (generate 6 3 (allFixedTiles home) (constantSource 0.1 0 0)) []
    = fixedTileOn 6 3 false charlieExample :: rest
    \/ valueOf (generate 6 3 (allFixedTiles home) (constantSource 0.1 0 0)) []
       = fixedTileOn 6 3 true charlieExample :: rest.
Proof.
  apply (X14_essential_tile_leads_the_list 6 3 charlieExample
           (PAGE_SPECIFIC_TILES home) (constantSource 0.1 0 0)).
  - vm_compute. reflexivity.
  - reflexivity.
  - unfold fitsUsableSpan. cbn. lia.
  - unfold fitsUsableSpan. cbn. lia.
Defined.

(** X15: on every page, the home tile "Charlie Beutter" is the first
    returned tile, at row 1 and column 1, and its click navigates home,
    whenever the grid has at least 6 columns and 3 rows; in a smaller grid the
    returned list holds no fixed tile at all. *)
Theorem X15_home_tile_on_every_page (W H : Z) (page : PageType)
    (rs : RandomSource) (tiles : list Tile.t) :
  generateMosaic (W, H) page rs = Ok tiles ->
  (6 <= W -> 3 <= H ->
   exists rest, tiles = charlieTile :: rest
                /\ Tile.row charlieTile = 1 /\ Tile.col charlieTile = 1
                /\ clickTile charlieTile = Navigate home)
  /\ (W < 6 \/ H < 3 -> List.filter isFixedTile tiles = []).
Proof.
  unfold generateMosaic. simpl fst. simpl snd. intros Hg. split.
  - intros HW HH.
    assert (Hlist : allFixedTiles page = charlieExample :: PAGE_SPECIFIC_TILES page)
      by reflexivity.
    rewrite Hlist in Hg.
    destruct (essential_tile_first W H charlieExample _ rs tiles Hg)
      as (ua & rest & ->).
    + reflexivity.
    + unfold fitsUsableSpan. cbn. lia.
    + unfold fitsUsableSpan. cbn. lia.
    + exists rest. split; [destruct ua; reflexivity|]. repeat split.
  - intros Hsmall.
    destruct (generate_spec W H (allFixedTiles page) rs tiles Hg)
      as (this0 & s & final & Hc & Hs & _ & [_ (_ & _ & Hbnd)] & _ & Hseg).
    rewrite (strategy_by_table W H (allFixedTiles page) this0 Hc
               (allFixedTiles_rows W H page)) in Hs.
    assert (Hfb : s = fallback).
    { injection Hs as <-. unfold strategyTable, withinFarEdges.
      destruct page; cbn; split_leb; try reflexivity; lia. }
    clear Hs. subst s.
    destruct Hseg as (placed & attempts & filled & _ & _ & _ & Hcase & Heq).
    destruct (Hcase eq_refl) as [-> | (ch & Hfind & ->)].
    + rewrite Heq. simpl. rewrite List.filter_app.
      rewrite (filter_map_drop (randomTile rs)) by reflexivity.
      rewrite (filter_map_drop (fillTile rs)) by reflexivity. reflexivity.
    + exfalso. assert (Hch : ch = charlieExample).
      { destruct page; simpl in Hfind; injection Hfind as <-; reflexivity. }
      subst ch. rewrite Heq in Hbnd. apply Forall_app in Hbnd.
      destruct Hbnd as [Hb _]. apply Forall_cons in Hb. destruct Hb as [Hb _].
      unfold tileBound in Hb. cbn in Hb. lia.
Qed.

Lemma X15_home_tile_on_every_page_witness :
  (6 <= 9 -> 3 <= 8 ->
   exists rest,
     valueOf (generateMosaic (9, 8) projects (constantSource 0.1 0 0)) []
     = charlieTile :: rest
     /\ Tile.row charlieTile = 1 /\ Tile.col charlieTile = 1
     /\ clickTile charlieTile = Navigate home)
  /\ (9 < 6 \/ 8 < 3 ->
      List.filter isFixedTile
        (valueOf (generateMosaic (9, 8) projects (constantSource 0.1 0 0)) []) = []).
Proof.
  apply (X15_home_tile_on_every_page 9 8 projects (constantSource 0.1 0 0)).
  vm_compute. reflexivity.
Defined.

(** * The earlier generator *)

Section LegacyPass.

Variables (W H : Z) (fixed : list FixedTile.t).

Lemma legacy_coverCount (tiles : list Legacy.Tile.t) (r c : Z) :
  Legacy.coverCount tiles r c = coverCount (map asTile tiles) r c.
Proof.
  unfold Legacy.coverCount, coverCount.
  induction tiles as [|t tiles IH]; simpl; [reflexivity|].
  change (Legacy.covers t r c) with (covers (asTile t) r c).
  destruct (covers (asTile t) r c); simpl; congruence.
Qed.

Lemma legacy_place (this this' : MosaicGenerator) (tiles : list Legacy.Tile.t)
    (t : Legacy.Tile.t) :
  Inv W H fixed this (map asTile tiles) ->
  canPlaceTile this (Legacy.Tile.row t) (Legacy.Tile.col t)
               (Legacy.Tile.width t) (Legacy.Tile.height t) = Ok true ->
  placeTile this (Legacy.Tile.row t) (Legacy.Tile.col t)
            (Legacy.Tile.width t) (Legacy.Tile.height t) = Ok this' ->
  tileBound W H (asTile t) ->
  Inv W H fixed this' (map asTile (tiles ++ [t])).
Proof.
  intros HI Hcan Hplace Hb. rewrite map_app. simpl.
  apply (place_preserves_Inv W H fixed this this' _ (asTile t)); assumption.
Qed.

(** One step of the fixed-tile loop at a rectangle that passed the test. *)
Lemma legacy_place_fixed (this : MosaicGenerator) (tiles : list Legacy.Tile.t)
    (f : FixedTile.t) (row col : Z) :
  Inv W H fixed this (map asTile tiles) ->
  Legacy.fits this row col (FixedTile.width f) (FixedTile.height f) = Ok true ->
  exists this',
    placeTile this row col (FixedTile.width f) (FixedTile.height f) = Ok this'
    /\ Inv W H fixed this' (map asTile (tiles ++ [Legacy.fixedTileAt f row col])).
Proof.
  intros HI Hfit. apply isValidPlacement_true in Hfit.
  destruct Hfit as (Hc & Hr & Hcan).
  destruct (placeTile_after_check _ _ _ _ _ Hcan) as [this' Hplace].
  exists this'. split; [exact Hplace|].
  apply (legacy_place this this' tiles (Legacy.fixedTileAt f row col) HI Hcan Hplace).
  destruct HI as [(HW & HH & _) _]. unfold tileBound. simpl. lia.
Qed.

Lemma legacy_placeFixed_spec (this : MosaicGenerator) (tiles : list Legacy.Tile.t)
    (f : FixedTile.t) (st : MosaicGenerator * list Legacy.Tile.t) :
  Inv W H fixed this (map asTile tiles) ->
  Legacy.placeFixed this tiles f = Ok st ->
  Inv W H fixed (fst st) (map asTile (snd st))
  /\ (snd st = tiles
      \/ exists row col, snd st = tiles ++ [Legacy.fixedTileAt f row col]).
Proof.
  intros HI Hp. unfold Legacy.placeFixed in Hp. cbv zeta in Hp.
  apply bind_Ok in Hp. destruct Hp as (ok & Hfit & Hp). destruct ok.
  - destruct (legacy_place_fixed this tiles f _ _ HI Hfit) as (this' & Hplace & HI').
    rewrite Hplace in Hp. cbn [bind] in Hp. injection Hp as <-. simpl.
    split; [exact HI' | right; eauto].
  - destruct (FixedTile.altRow f) as [ar|]; [|injection Hp as <-; simpl; auto].
    destruct (FixedTile.altCol f) as [ac|]; [|injection Hp as <-; simpl; auto].
    apply bind_Ok in Hp. destruct Hp as (okAlt & HfitAlt & Hp). destruct okAlt.
    + destruct (legacy_place_fixed this tiles f _ _ HI HfitAlt)
        as (this' & Hplace & HI').
      rewrite Hplace in Hp. cbn [bind] in Hp. injection Hp as <-. simpl.
      split; [exact HI' | right; eauto].
    + injection Hp as <-. simpl. auto.
Qed.

Lemma legacy_fixedLoop_spec (rest : list FixedTile.t) :
  forall (this : MosaicGenerator) (tiles : list Legacy.Tile.t)
         (st : MosaicGenerator * list Legacy.Tile.t),
  Inv W H fixed this (map asTile tiles) ->
  Legacy.fixedLoop this tiles rest = Ok st ->
  Inv W H fixed (fst st) (map asTile (snd st))
  /\ exists placed, snd st = tiles ++ placed
       /\ Forall (fun t => Legacy.fixedPrefix (Legacy.Tile.id t) = true) placed.
Proof.
  induction rest as [|f rest IH]; simpl; intros this tiles st HI Hloop.
  - injection Hloop as <-. split; [exact HI|]. exists []. rewrite app_nil_r. auto.
  - apply bind_Ok in Hloop. destruct Hloop as (st1 & Hstep & Hloop).
    destruct (legacy_placeFixed_spec _ _ _ _ HI Hstep) as [HI1 Hcase].
    destruct (IH _ _ _ HI1 Hloop) as [HI2 (placed & Heq & Hall)].
    split; [exact HI2|].
    destruct Hcase as [E | (row & col & E)]; rewrite E in Heq.
    + exists placed. auto.
    + exists (Legacy.fixedTileAt f row col :: placed).
      rewrite Heq, <- app_assoc. split; [reflexivity|].
      constructor; [reflexivity | exact Hall].
Qed.

(** The test of the loop as a table over the tiles placed so far. *)
Lemma legacy_rectFree (this : MosaicGenerator) (tiles : list Legacy.Tile.t)
    (p : Position) :
  Inv W H fixed this (map asTile tiles) ->
  Legacy.rectFree tiles p = true
  <-> forall r c, In (r, c) (cellsOf p) -> occupied (grid this) r c = false.
Proof.
  intros [_ (_ & Hcov & _)]. unfold Legacy.rectFree, cellsOf.
  rewrite forallb_forall. split.
  - intros Hall r c Hin. specialize (Hall (r, c) Hin). simpl in Hall.
    apply Nat.eqb_eq in Hall. rewrite legacy_coverCount, Hcov in Hall.
    destruct (occupied (grid this) r c); [discriminate | reflexivity].
  - intros Hall [r c] Hin. simpl. apply Nat.eqb_eq.
    rewrite legacy_coverCount, Hcov, (Hall r c Hin). reflexivity.
Qed.

Lemma legacy_fits_free (this : MosaicGenerator) (tiles : list Legacy.Tile.t)
    (p : Position) :
  Inv W H fixed this (map asTile tiles) ->
  0 <= p_row p ->
  Legacy.fits this (p_row p) (p_col p) (p_width p) (p_height p)
  = Ok (Legacy.fitsFree W H tiles p).
Proof.
  intros HI Hrow. pose proof HI as [(HW & HH & _) (Hlen & _)].
  destruct (isValidPlacement_returns this (p_row p) (p_col p) (p_width p) (p_height p))
    as [b Hb]; [congruence | exact Hrow |].
  change (isValidPlacement this (p_row p) (p_col p) (p_width p) (p_height p))
    with (Legacy.fits this (p_row p) (p_col p) (p_width p) (p_height p)) in Hb.
  rewrite Hb. f_equal. apply eq_true_iff_eq. split.
  - intros ->. apply isValidPlacement_true in Hb. destruct Hb as (Hc & Hr & Hcan).
    apply canPlaceTile_true in Hcan. destruct Hcan as (_ & _ & Hfree).
    unfold Legacy.fitsFree. rewrite !andb_true_iff, !Z.leb_le.
    split; [lia|]. apply (legacy_rectFree this tiles p HI).
    intros r c Hin. apply (Hfree r c Hin).
  - unfold Legacy.fitsFree. rewrite !andb_true_iff, !Z.leb_le.
    intros [[Hc Hr] Hfree].
    assert (Ht : isValidPlacement this (p_row p) (p_col p) (p_width p) (p_height p)
                 = Ok true).
    { apply isValidPlacement_true. rewrite HW, HH.
      split; [exact Hc|]. split; [exact Hr|].
      apply canPlaceTile_true. rewrite HW, HH. split; [lia|]. split; [lia|].
      intros r c Hin. split.
      - apply rectCells_In in Hin. unfold hasRow. rewrite Hlen. lia.
      - apply (proj1 (legacy_rectFree this tiles p HI) Hfree r c Hin). }
    change (isValidPlacement this (p_row p) (p_col p) (p_width p) (p_height p))
      with (Legacy.fits this (p_row p) (p_col p) (p_width p) (p_height p)) in Ht.
    congruence.
Qed.

(** With no negative row to read, one step of the loop is one step of the
    table. *)
Lemma legacy_placeFixed_layout (this : MosaicGenerator) (tiles : list Legacy.Tile.t)
    (f : FixedTile.t) :
  Inv W H fixed this (map asTile tiles) ->
  0 <= p_row (Legacy.primaryOf W H f) ->
  (forall q, Legacy.alternateOf W H f = Some q -> 0 <= p_row q) ->
  exists this',
    Legacy.placeFixed this tiles f = Ok (this', Legacy.layoutStep W H tiles f)
    /\ Inv W H fixed this' (map asTile (Legacy.layoutStep W H tiles f)).
Proof.
  intros HI Hrow Halt. pose proof HI as [(HW & HH & _) _].
  unfold Legacy.placeFixed, Legacy.layoutStep. cbv zeta. rewrite HW, HH.
  pose proof (legacy_fits_free this tiles (Legacy.primaryOf W H f) HI Hrow) as Hfit.
  simpl in Hfit. rewrite Hfit. cbn [bind].
  destruct (Legacy.fitsFree W H tiles (Legacy.primaryOf W H f)).
  - destruct (legacy_place_fixed this tiles f _ _ HI Hfit) as (this' & Hplace & HI').
    rewrite Hplace. cbn [bind]. exists this'. split; [reflexivity | exact HI'].
  - unfold Legacy.alternateOf in *.
    destruct (FixedTile.altRow f) as [ar|]; [|exists this; auto].
    destruct (FixedTile.altCol f) as [ac|]; [|exists this; auto].
    pose proof (legacy_fits_free this tiles _ HI (Halt _ eq_refl)) as HfitAlt.
    simpl in HfitAlt. rewrite HfitAlt. cbn [bind].
    match goal with |- context [Legacy.fitsFree W H tiles ?q] =>
      destruct (Legacy.fitsFree W H tiles q) end.
    + destruct (legacy_place_fixed this tiles f _ _ HI HfitAlt)
        as (this' & Hplace & HI').
      rewrite Hplace. cbn [bind]. exists this'. split; [reflexivity | exact HI'].
    + exists this. auto.
Qed.

Lemma legacy_fixedLoop_layout (rest : list FixedTile.t) :
  forall (this : MosaicGenerator) (tiles : list Legacy.Tile.t),
  Inv W H fixed this (map asTile tiles) ->
  Legacy.rowsNonneg W H rest ->
  exists this',
    Legacy.fixedLoop this tiles rest
    = Ok (this', fold_left (Legacy.layoutStep W H) rest tiles)
    /\ Inv W H fixed this' (map asTile (fold_left (Legacy.layoutStep W H) rest tiles)).
Proof.
  induction rest as [|f rest IH]; simpl; intros this tiles HI Hrows.
  - exists this. auto.
  - destruct (Hrows f (or_introl eq_refl)) as [Hp Ha].
    destruct (legacy_placeFixed_layout this tiles f HI Hp Ha) as (this1 & Hstep & HI1).
    rewrite Hstep. cbn [bind fst snd]. apply IH; [exact HI1|].
    intros g Hg. apply Hrows. right. exact Hg.
Qed.

Lemma legacy_randomTile_bound (this : MosaicGenerator) (rs : RandomSource) (a : nat) :
  sameConfig W H fixed this ->
  canPlaceTile this (Legacy.Tile.row (Legacy.randomTile rs a))
               (Legacy.Tile.col (Legacy.randomTile rs a))
               (Legacy.Tile.width (Legacy.randomTile rs a))
               (Legacy.Tile.height (Legacy.randomTile rs a)) = Ok true ->
  tileBound W H (asTile (Legacy.randomTile rs a)).
Proof.
  intros (HW & HH & _) Hcan. apply canPlaceTile_true in Hcan.
  unfold tileBound. simpl in *. lia.
Qed.

Lemma legacy_placeRandom_spec (this : MosaicGenerator) (rs : RandomSource)
    (tiles : list Legacy.Tile.t) (a : nat)
    (st : MosaicGenerator * list Legacy.Tile.t) :
  Inv W H fixed this (map asTile tiles) ->
  Legacy.placeRandom this rs tiles a = Ok st ->
  Inv W H fixed (fst st) (map asTile (snd st))
  /\ (snd st = tiles \/ snd st = tiles ++ [Legacy.randomTile rs a]).
Proof.
  intros HI Hp. unfold Legacy.placeRandom in Hp. cbv zeta in Hp.
  apply bind_Ok in Hp. destruct Hp as (ok & Hcan & Hp). destruct ok.
  - apply bind_Ok in Hp. destruct Hp as (this' & Hplace & [= <-]). simpl.
    split; [|right; reflexivity].
    apply (legacy_place this this' tiles (Legacy.randomTile rs a) HI Hcan Hplace).
    eapply legacy_randomTile_bound; [exact (proj1 HI) | exact Hcan].
  - injection Hp as <-. split; [exact HI | left; reflexivity].
Qed.

Lemma legacy_placeRandom_returns (this : MosaicGenerator) (rs : RandomSource)
    (tiles : list Legacy.Tile.t) (a : nat) :
  Inv W H fixed this (map asTile tiles) ->
  0 <= rowDraw rs a ->
  returns (Legacy.placeRandom this rs tiles a).
Proof.
  intros [(HW & HH & _) (Hlen & _)] Hrow. unfold Legacy.placeRandom.
  destruct (canPlaceTile_returns this (Legacy.Tile.row (Legacy.randomTile rs a))
              (Legacy.Tile.col (Legacy.randomTile rs a))
              (Legacy.Tile.width (Legacy.randomTile rs a))
              (Legacy.Tile.height (Legacy.randomTile rs a))) as [ok Hok];
    [congruence | exact Hrow |].
  cbv zeta. rewrite Hok. cbn [bind]. destruct ok; [|eexists; reflexivity].
  destruct (placeTile_after_check _ _ _ _ _ Hok) as [this' Hthis'].
  rewrite Hthis'. eexists; reflexivity.
Qed.

Lemma legacy_randomLoop_spec (rs : RandomSource) (n : nat) :
  forall (a : nat) (this : MosaicGenerator) (tiles : list Legacy.Tile.t)
         (st : MosaicGenerator * list Legacy.Tile.t),
  Inv W H fixed this (map asTile tiles) ->
  Legacy.randomLoop n a this rs tiles = Ok st ->
  Inv W H fixed (fst st) (map asTile (snd st))
  /\ exists attempts, attempts `sublist_of` seq a n
                      /\ snd st = tiles ++ map (Legacy.randomTile rs) attempts.
Proof.
  induction n as [|n IH]; simpl; intros a this tiles st HI Hloop.
  - injection Hloop as <-. split; [exact HI|]. exists []. simpl.
    rewrite app_nil_r. split; [constructor | reflexivity].
  - apply bind_Ok in Hloop. destruct Hloop as (st1 & Hstep & Hloop).
    destruct (legacy_placeRandom_spec _ _ _ _ _ HI Hstep) as [HI1 Hcase].
    destruct (IH _ _ _ _ HI1 Hloop) as [HI2 (attempts & Hsub & Heq)].
    split; [exact HI2|].
    destruct Hcase as [E | E]; rewrite E in Heq.
    + exists attempts. split; [apply sublist_cons; exact Hsub | exact Heq].
    + exists (a :: attempts). split; [apply sublist_skip; exact Hsub|].
      rewrite Heq, <- app_assoc. reflexivity.
Qed.

Lemma legacy_randomLoop_returns (rs : RandomSource) (n : nat) :
  forall (a : nat) (this : MosaicGenerator) (tiles : list Legacy.Tile.t),
  Inv W H fixed this (map asTile tiles) ->
  (forall i, 0 <= rowDraw rs i) ->
  returns (Legacy.randomLoop n a this rs tiles).
Proof.
  induction n as [|n IH]; simpl; intros a this tiles HI Hrows.
  - eexists; reflexivity.
  - destruct (legacy_placeRandom_returns this rs tiles a HI (Hrows a)) as [st1 Hst1].
    rewrite Hst1. simpl.
    apply IH; [|exact Hrows]. eapply legacy_placeRandom_spec; eauto.
Qed.

Lemma legacy_covers_fillTile (rs : RandomSource) (r0 c0 r c : Z) :
  covers (asTile (Legacy.fillTile rs (r0, c0))) r c = (r =? r0) && (c =? c0).
Proof.
  apply eq_true_iff_eq. unfold covers. simpl.
  rewrite !andb_true_iff, !Z.leb_le, !Z.ltb_lt, !Z.eqb_eq. lia.
Qed.

Lemma legacy_fillLoop_spec (rs : RandomSource) (cells : list (Z * Z)) :
  forall (g : list Row) (tiles : list Legacy.Tile.t)
         (st : list Row * list Legacy.Tile.t),
  GridInv W H g (map asTile tiles) ->
  (forall r c, In (r, c) cells -> 0 <= r /\ 0 <= c /\ r + 1 <= H /\ c + 1 <= W) ->
  Legacy.fillLoop g rs tiles cells = Ok st ->
  GridInv W H (fst st) (map asTile (snd st))
  /\ (forall r c, occupied g r c = true -> occupied (fst st) r c = true)
  /\ (forall r c, In (r, c) cells -> occupied (fst st) r c = true)
  /\ exists filled, filled `sublist_of` cells
                    /\ snd st = tiles ++ map (Legacy.fillTile rs) filled.
Proof.
  induction cells as [|[r0 c0] cells IH]; simpl; intros g tiles st HG Hin Hloop.
  - injection Hloop as <-. simpl. split; [exact HG|]. split; [auto|].
    split; [intros r c []|]. exists []. simpl. rewrite app_nil_r.
    split; [constructor | reflexivity].
  - apply bind_Ok in Hloop. destruct Hloop as (occ & Hread & Hloop).
    apply readCell_Ok in Hread. destruct Hread as [Hrow ->].
    assert (Hin' : forall r c, In (r, c) cells
                               -> 0 <= r /\ 0 <= c /\ r + 1 <= H /\ c + 1 <= W)
      by (intros r c Hc; apply Hin; auto).
    destruct (occupied g r0 c0) eqn:Eo.
    + destruct (IH _ _ _ HG Hin' Hloop) as (HG' & Hmono & Hall & filled & Hsub & Heq).
      split; [exact HG'|]. split; [exact Hmono|]. split.
      * intros r c [[= <- <-]|Hc]; [apply Hmono; exact Eo | apply Hall; exact Hc].
      * exists filled. split; [apply sublist_cons; exact Hsub | exact Heq].
    + apply bind_Ok in Hloop. destruct Hloop as (g1 & Hw & Hloop).
      apply writeCell_Ok in Hw. destruct Hw as (_ & Hlen1 & Hocc1).
      assert (HG1 : GridInv W H g1
                      (map asTile (tiles ++ [Legacy.fillTile rs (r0, c0)]))).
      { destruct HG as (Hlen & Hcov & Hbnd). rewrite map_app.
        split; [congruence|]. split.
        - intros r c. cbn [map].
          rewrite coverCount_snoc, Hcov, Hocc1, legacy_covers_fillTile.
          destruct ((r =? r0) && (c =? c0)) eqn:Ecell.
          + apply andb_true_iff in Ecell. rewrite !Z.eqb_eq in Ecell.
            destruct Ecell as [-> ->]. rewrite Eo. reflexivity.
          + rewrite orb_false_r. simpl. lia.
        - apply Forall_app. split; [exact Hbnd|]. constructor; [|constructor].
          unfold tileBound. simpl. destruct (Hin r0 c0); [auto | lia]. }
      destruct (IH _ _ _ HG1 Hin' Hloop) as (HG' & Hmono & Hall & filled & Hsub & Heq).
      split; [exact HG'|]. split; [|split].
      * intros r c Ho. apply Hmono. rewrite Hocc1, Ho. reflexivity.
      * intros r c [[= <- <-]|Hc]; [|apply Hall; exact Hc].
        apply Hmono. rewrite Hocc1, !Z.eqb_refl, orb_true_r. reflexivity.
      * exists ((r0, c0) :: filled). split; [apply sublist_skip; exact Hsub|].
        rewrite Heq, <- app_assoc. reflexivity.
Qed.

Lemma legacy_fillLoop_returns (rs : RandomSource) (cells : list (Z * Z)) :
  forall (g : list Row) (tiles : list Legacy.Tile.t),
  (forall r c, In (r, c) cells -> hasRow g r) ->
  returns (Legacy.fillLoop g rs tiles cells).
Proof.
  induction cells as [|[r0 c0] cells IH]; simpl; intros g tiles Hrows.
  - eexists; reflexivity.
  - rewrite (readCell_hasRow g r0 c0) by (apply (Hrows r0 c0); auto). cbn [bind].
    destruct (occupied g r0 c0).
    + apply IH. intros r c Hc. apply (Hrows r c). auto.
    + destruct (writeCell_hasRow g r0 c0) as [g1 Hw]; [apply (Hrows r0 c0); auto|].
      rewrite Hw. cbn [bind]. apply IH. intros r c Hc.
      apply writeCell_Ok in Hw. destruct Hw as (_ & Hlen & _).
      unfold hasRow. rewrite Hlen. apply (Hrows r c). auto.
Qed.

End LegacyPass.

Lemma rectCells_head (row col width height : Z) :
  0 < width -> 0 < height ->
  exists rest, rectCells row col width height = (row, col) :: rest.
Proof.
  intros Hw Hh. unfold rectCells.
  rewrite (seqZ_cons row height Hh). cbn [flat_map].
  rewrite (seqZ_cons col width Hw). cbn [map app]. eauto.
Qed.

(** A non-empty rectangle that starts above the grid and passes the two
    far-edge tests makes [canPlaceTile] read a row that does not exist. *)
Lemma canPlaceTile_negative_row (this : MosaicGenerator) (row col width height : Z) :
  row < 0 -> 0 < width -> 0 < height ->
  canPlaceTile this row col width height
  = if (row + height >? gridHeight this) || (col + width >? gridWidth this)
    then Ok false else Throw TypeError.
Proof.
  intros Hrow Hw Hh. unfold canPlaceTile.
  destruct ((row + height >? gridHeight this) || (col + width >? gridWidth this));
    [reflexivity|].
  destruct (rectCells_head row col width height Hw Hh) as [rest ->].
  cbn [anyOccupied]. unfold readCell, rowAt.
  rewrite (proj2 (Z.ltb_lt row 0) Hrow). reflexivity.
Qed.

Lemma legacy_fits_past (this : MosaicGenerator) (p : Position) :
  pastUsableSpan (gridWidth this) (gridHeight this) p ->
  Legacy.fits this (p_row p) (p_col p) (p_width p) (p_height p) = Ok false.
Proof.
  unfold pastUsableSpan, Legacy.fits. intros Hpast.
  destruct (Z.leb_spec (p_col p + p_width p) (gridWidth this - 1)); simpl;
    [|reflexivity].
  destruct (Z.leb_spec (p_row p + p_height p) (gridHeight this - 1)); simpl;
    [lia | reflexivity].
Qed.

(** A spec whose rectangles all reach past the usable span is skipped
    without a look at the grid. *)
Lemma legacy_placeFixed_skipped (W H : Z) (this : MosaicGenerator)
    (tiles : list Legacy.Tile.t) (f : FixedTile.t) :
  gridWidth this = W -> gridHeight this = H ->
  pastUsableSpan W H (Legacy.primaryOf W H f) ->
  (forall q, Legacy.alternateOf W H f = Some q -> pastUsableSpan W H q) ->
  Legacy.placeFixed this tiles f = Ok (this, tiles).
Proof.
  intros HW HH Hp Ha. unfold Legacy.placeFixed. cbv zeta. rewrite HW, HH.
  rewrite <- HW, <- HH in Hp.
  pose proof (legacy_fits_past this _ Hp) as E. simpl in E.
  rewrite HW, HH in E. rewrite E. cbn [bind].
  unfold Legacy.alternateOf in Ha.
  destruct (FixedTile.altRow f) as [ar|]; [|reflexivity].
  destruct (FixedTile.altCol f) as [ac|]; [|reflexivity].
  specialize (Ha _ eq_refl). rewrite <- HW, <- HH in Ha.
  pose proof (legacy_fits_past this _ Ha) as E'. simpl in E'.
  rewrite HW, HH in E'. rewrite E'. reflexivity.
Qed.

Section LegacyReturned.

Variables (W H : Z) (fixed : list FixedTile.t).

(** Once the fixed tiles are placed, the rest of the earlier pass returns
    for non-negative draws and appends tiles without the [fixed] prefix. *)
Lemma legacy_after_fixed (rs : RandomSource) (this0 this1 : MosaicGenerator)
    (fx : list Legacy.Tile.t) :
  constructor W H fixed = Ok this0 ->
  Legacy.fixedLoop this0 [] fixed = Ok (this1, fx) ->
  drawsNonneg rs ->
  exists rest,
    Legacy.generate W H fixed rs = Ok (fx ++ rest)
    /\ Forall (fun t => Legacy.fixedPrefix (Legacy.Tile.id t) = false) rest.
Proof.
  intros Hc Hfx Hdraws.
  destruct (constructor_Inv W H fixed this0 Hc) as [HI0 Hidem].
  pose proof (proj1 HI0) as (_ & _ & Hfixed).
  destruct (legacy_fixedLoop_spec W H fixed fixed this0 [] _ HI0 Hfx) as [HI1 _].
  simpl in HI1.
  destruct (legacy_randomLoop_returns W H fixed rs 1000 0 this1 fx HI1) as [st2 Hst2].
  { intros i. apply Hdraws. }
  destruct (legacy_randomLoop_spec W H fixed rs _ _ _ _ _ HI1 Hst2)
    as [HI2 (attempts & _ & Heq2)].
  pose proof HI2 as [(HW2 & HH2 & _) (Hlen2 & _)].
  destruct (legacy_fillLoop_returns rs
              (rectCells 0 0 (gridWidth (fst st2)) (gridHeight (fst st2)))
              (grid (fst st2)) (snd st2)) as [st3 Hst3].
  { intros r c Hin. apply rectCells_In in Hin. unfold hasRow. rewrite Hlen2. lia. }
  assert (Hcells : forall r c,
             In (r, c) (rectCells 0 0 (gridWidth (fst st2)) (gridHeight (fst st2)))
             -> 0 <= r /\ 0 <= c /\ r + 1 <= H /\ c + 1 <= W).
  { intros r c Hin. apply rectCells_In in Hin. lia. }
  destruct (legacy_fillLoop_spec W H rs _ _ _ _ (proj2 HI2) Hcells Hst3)
    as (_ & _ & _ & filled & _ & Heq3).
  exists (map (Legacy.randomTile rs) attempts ++ map (Legacy.fillTile rs) filled).
  split.
  - unfold Legacy.generate. rewrite Hc. cbn [bind].
    unfold Legacy.generatePattern. rewrite Hidem. cbn [bind]. rewrite Hfixed.
    rewrite Hfx. cbn [bind fst snd]. rewrite Hst2. cbn [bind]. rewrite Hst3.
    cbn [bind snd]. rewrite Heq3, Heq2, <- app_assoc. reflexivity.
  - apply Forall_app. split; apply Forall_forall; intros t Ht;
      apply list_elem_of_In, in_map_iff in Ht; destruct Ht as (x & <- & _); reflexivity.
Qed.

(** What the earlier pass establishes whenever it returns. *)
Lemma legacy_generate_spec (rs : RandomSource) (tiles : list Legacy.Tile.t) :
  Legacy.generate W H fixed rs = Ok tiles ->
  exists final,
    Inv W H fixed final (map asTile tiles)
    /\ (forall r c, 0 <= r < H -> 0 <= c < W -> occupied (grid final) r c = true).
Proof.
  unfold Legacy.generate. intros Hg.
  apply bind_Ok in Hg. destruct Hg as (this0 & Hc & Hg).
  apply bind_Ok in Hg. destruct Hg as ([final tiles'] & Hp & [= <-]).
  pose proof (constructor_config W H fixed this0 Hc) as Hcfg.
  unfold Legacy.generatePattern in Hp.
  apply bind_Ok in Hp. destruct Hp as (this1 & Hreset & Hp).
  apply bind_Ok in Hp. destruct Hp as (st1 & Hfixed & Hp).
  apply bind_Ok in Hp. destruct Hp as (st2 & Hrandom & Hp).
  apply bind_Ok in Hp. destruct Hp as (st3 & Hfill & [= <- <-]).
  destruct (resetGrid_Ok W H fixed _ _ Hcfg Hreset) as [HI0 _].
  destruct (legacy_fixedLoop_spec W H fixed _ _ [] _ HI0 Hfixed) as [HI1 _].
  destruct (legacy_randomLoop_spec W H fixed rs _ _ _ _ _ HI1 Hrandom) as [HI2 _].
  pose proof HI2 as [Hcfg2 HG2]. pose proof Hcfg2 as (HW2 & HH2 & _).
  rewrite HW2, HH2 in Hfill.
  assert (Hcells : forall r c, In (r, c) (rectCells 0 0 W H)
                               -> 0 <= r /\ 0 <= c /\ r + 1 <= H /\ c + 1 <= W).
  { intros r c Hin. apply rectCells_In in Hin. lia. }
  destruct (legacy_fillLoop_spec W H rs _ _ _ _ HG2 Hcells Hfill)
    as (HG3 & _ & Hall & _).
  exists (setGrid (fst st2) (fst st3)). split.
  - split; [apply sameConfig_setGrid; exact Hcfg2 | exact HG3].
  - intros r c Hr Hcc. simpl. apply Hall, rectCells_In. lia.
Qed.

End LegacyReturned.

(** X16: for sizes and spec coordinates in the range of exact arithmetic,
    whenever the earlier generator's pass returns, no cell is covered by two
    of the returned tiles, every cell of the grid is covered by exactly one,
    and no tile reaches past the far edges: a tile with the [fixed] id prefix
    stays one cell short of them, any other tile stays within them. *)
Theorem X16_legacy_pass_tiles_the_grid (W H : Z) (fixed : list FixedTile.t)
    (rs : RandomSource) (tiles : list Legacy.Tile.t) :
  inputsInRange W H fixed = true ->
  Legacy.generate W H fixed rs = Ok tiles ->
  (forall r c, (Legacy.coverCount tiles r c <= 1)%nat)
  /\ (forall r c, 0 <= r < H -> 0 <= c < W -> Legacy.coverCount tiles r c = 1%nat)
  /\ Forall (fun t =>
               let margin := if Legacy.fixedPrefix (Legacy.Tile.id t) then 1 else 0 in
               Legacy.Tile.row t + Legacy.Tile.height t <= H - margin
               /\ Legacy.Tile.col t + Legacy.Tile.width t <= W - margin) tiles.
Proof.
  intros _ Hg.
  destruct (legacy_generate_spec W H fixed rs tiles Hg)
    as (final & [_ (_ & Hcov & Hbnd)] & Hfull).
  split; [|split].
  - intros r c. rewrite legacy_coverCount, Hcov.
    destruct (occupied (grid final) r c); simpl; lia.
  - intros r c Hr Hc. rewrite legacy_coverCount, Hcov, (Hfull r c Hr Hc). reflexivity.
  - apply Forall_forall. intros t Ht. rewrite Forall_forall in Hbnd.
    assert (Hin : asTile t ∈ map asTile tiles).
    { apply list_elem_of_In, in_map, list_elem_of_In, Ht. }
    specialize (Hbnd _ Hin). unfold tileBound in Hbnd. simpl in Hbnd.
    destruct (Legacy.fixedPrefix (Legacy.Tile.id t)); simpl; lia.
Qed.

Lemma X16_legacy_pass_tiles_the_grid_witness :
  let tiles := valueOf (Legacy.generate 8 5 Legacy.FIXED_TILES sweepSource) [] in
  (forall r c, (Legacy.coverCount tiles r c <= 1)%nat)
  /\ (forall r c, 0 <= r < 5 -> 0 <= c < 8 -> Legacy.coverCount tiles r c = 1%nat)
  /\ Forall (fun t =>
               let margin := if Legacy.fixedPrefix (Legacy.Tile.id t) then 1 else 0 in
               Legacy.Tile.row t + Legacy.Tile.height t <= 5 - margin
               /\ Legacy.Tile.col t + Legacy.Tile.width t <= 8 - margin) tiles.
Proof.
  assert (Hrun : Legacy.generate 8 5 Legacy.FIXED_TILES sweepSource
                 = Ok (valueOf (Legacy.generate 8 5 Legacy.FIXED_TILES sweepSource) []))
    by (vm_compute; reflexivity).
  exact (X16_legacy_pass_tiles_the_grid 8 5 Legacy.FIXED_TILES sweepSource _
           eq_refl Hrun).
Defined.

(** On a grid of valid sizes, with no negative normalized row among the
    specs and non-negative draws, the earlier pass returns and its list starts
    with the tiles of the table [Legacy.layout]. *)
Lemma legacy_generate_layout (W H : Z) (fixed : list FixedTile.t)
    (rs : RandomSource) :
  validArrayLength W = true -> validArrayLength H = true ->
  Legacy.rowsNonneg W H fixed ->
  drawsNonneg rs ->
  exists rest,
    Legacy.generate W H fixed rs = Ok (Legacy.layout W H fixed ++ rest)
    /\ Forall (fun t => Legacy.fixedPrefix (Legacy.Tile.id t) = false) rest.
Proof.
  intros HvW HvH Hrows Hdraws.
  destruct (proj2 (resetGrid_returns (mkGenerator [] W H fixed))) as [this0 Hc].
  { simpl. auto. }
  change (constructor W H fixed = Ok this0) in Hc.
  destruct (constructor_Inv W H fixed this0 Hc) as [HI0 _].
  destruct (legacy_fixedLoop_layout W H fixed fixed this0 [] HI0 Hrows)
    as (this1 & Hloop & _).
  apply (legacy_after_fixed W H fixed rs this0 this1 _ Hc Hloop Hdraws).
Qed.

(** X17: on a grid of valid sizes with spec coordinates in the range of
    exact arithmetic, when no normalized row of a spec is negative and the
    draws are non-negative, the earlier pass returns; its
    list starts with the fixed tiles, which are the ones the table
    [Legacy.layout] gives from the sizes and the specs alone, and no tile
    after them carries the [fixed] prefix. *)
Theorem X17_legacy_pass_returns (W H : Z) (fixed : list FixedTile.t)
    (rs : RandomSource) :
  inputsInRange W H fixed = true ->
  validArrayLength W = true -> validArrayLength H = true ->
  Legacy.rowsNonneg W H fixed ->
  drawsNonneg rs ->
  exists rest,
    Legacy.generate W H fixed rs = Ok (Legacy.layout W H fixed ++ rest)
    /\ Forall (fun t => Legacy.fixedPrefix (Legacy.Tile.id t) = false) rest.
Proof. intros _. exact (legacy_generate_layout W H fixed rs). Qed.

Lemma X17_legacy_pass_returns_witness :
  exists rest,
    Legacy.generate 7 4 [overlapA; overlapB] (constantSource 0.1 0 0)
    = Ok (Legacy.layout 7 4 [overlapA; overlapB] ++ rest)
    /\ Forall (fun t => Legacy.fixedPrefix (Legacy.Tile.id t) = false) rest.
Proof.
  apply (X17_legacy_pass_returns 7 4 [overlapA; overlapB] (constantSource 0.1 0 0)).
  - reflexivity.
  - reflexivity.
  - reflexivity.
  - intros f [<-|[<-|[]]]; cbn;
      (split; [lia | intros p Hp; injection Hp as <-; cbn; lia]).
  - intros i. cbn. lia.
Defined.

(** ** The table of the fixed tiles *)

Lemma layout_cons (W H : Z) (f : FixedTile.t) (rest : list FixedTile.t)
    (tiles tiles' out : list Legacy.Tile.t) :
  Legacy.layoutStep W H tiles f = tiles' ->
  fold_left (Legacy.layoutStep W H) rest tiles' = out ->
  fold_left (Legacy.layoutStep W H) (f :: rest) tiles = out.
Proof. intros <- <-. reflexivity. Qed.

Lemma fitsFree_true (W H : Z) (tiles : list Legacy.Tile.t) (p : Position) :
  p_col p + p_width p <= W - 1 -> p_row p + p_height p <= H - 1 ->
  Legacy.rectFree tiles p = true ->
  Legacy.fitsFree W H tiles p = true.
Proof.
  intros Hc Hr Hf. unfold Legacy.fitsFree.
  rewrite (proj2 (Z.leb_le _ _) Hc), (proj2 (Z.leb_le _ _) Hr), Hf. reflexivity.
Qed.

Lemma fitsFree_false (W H : Z) (tiles : list Legacy.Tile.t) (p : Position) :
  pastUsableSpan W H p \/ Legacy.rectFree tiles p = false ->
  Legacy.fitsFree W H tiles p = false.
Proof.
  unfold Legacy.fitsFree, pastUsableSpan. intros [[Hr|Hc]|Hf].
  - rewrite (proj2 (Z.leb_gt (p_row p + p_height p) (H - 1))) by lia.
    apply andb_false_intro1, andb_false_intro2. reflexivity.
  - rewrite (proj2 (Z.leb_gt (p_col p + p_width p) (W - 1))) by lia. reflexivity.
  - rewrite Hf. apply andb_false_r.
Qed.

Lemma layoutStep_primary (W H : Z) (tiles tiles' : list Legacy.Tile.t)
    (f : FixedTile.t) :
  Legacy.fitsFree W H tiles (Legacy.primaryOf W H f) = true ->
  tiles ++ [Legacy.tileAt f (Legacy.primaryOf W H f)] = tiles' ->
  Legacy.layoutStep W H tiles f = tiles'.
Proof. unfold Legacy.layoutStep. intros -> <-. reflexivity. Qed.

Lemma layoutStep_alternate (W H : Z) (tiles tiles' : list Legacy.Tile.t)
    (f : FixedTile.t) (q : Position) :
  Legacy.fitsFree W H tiles (Legacy.primaryOf W H f) = false ->
  Legacy.alternateOf W H f = Some q ->
  Legacy.fitsFree W H tiles q = true ->
  tiles ++ [Legacy.tileAt f q] = tiles' ->
  Legacy.layoutStep W H tiles f = tiles'.
Proof. unfold Legacy.layoutStep. intros -> -> -> <-. reflexivity. Qed.

Lemma layoutStep_dropped (W H : Z) (tiles : list Legacy.Tile.t) (f : FixedTile.t) :
  Legacy.fitsFree W H tiles (Legacy.primaryOf W H f) = false ->
  (forall q, Legacy.alternateOf W H f = Some q -> Legacy.fitsFree W H tiles q = false) ->
  Legacy.layoutStep W H tiles f = tiles.
Proof.
  unfold Legacy.layoutStep. intros -> Ha.
  destruct (Legacy.alternateOf W H f) as [q|]; [|reflexivity].
  rewrite (Ha q eq_refl). reflexivity.
Qed.

Lemma rectFree_unit (tiles : list Legacy.Tile.t) (p : Position) :
  p_width p = 1 -> p_height p = 1 ->
  Legacy.rectFree tiles p
  = forallb (fun t => negb (Legacy.covers t (p_row p) (p_col p))) tiles.
Proof.
  intros Hw Hh. unfold Legacy.rectFree. rewrite Hw, Hh.
  destruct (rectCells_head (p_row p) (p_col p) 1 1) as [rest E]; [lia | lia |].
  assert (Hlen : length (rectCells (p_row p) (p_col p) 1 1) = 1%nat)
    by (rewrite length_rectCells; reflexivity).
  rewrite E in Hlen. destruct rest; [|discriminate]. rewrite E.
  cbn [forallb fst snd]. rewrite andb_true_r. unfold Legacy.coverCount.
  induction tiles as [|t tiles IH]; [reflexivity|]. cbn [List.filter forallb].
  destruct (Legacy.covers t (p_row p) (p_col p)); [reflexivity|]. exact IH.
Qed.

Ltac decide_cmp :=
  repeat match goal with
    | |- context [?a <=? ?b] =>
        first [ rewrite (proj2 (Z.leb_le a b)) by lia
              | rewrite (proj2 (Z.leb_gt a b)) by lia ]
    | |- context [?a <? ?b] =>
        first [ rewrite (proj2 (Z.ltb_lt a b)) by lia
              | rewrite (proj2 (Z.ltb_ge a b)) by lia ]
    | |- context [?a =? ?b] =>
        first [ rewrite (proj2 (Z.eqb_eq a b)) by lia
              | rewrite (proj2 (Z.eqb_neq a b)) by lia ]
    end.

Ltac rect_value :=
  first [ solve [vm_compute; reflexivity]
        | rewrite rectFree_unit by reflexivity; unfold Legacy.covers; cbn;
          repeat (progress decide_cmp; cbn); reflexivity ].

Ltac fits_true :=
  apply fitsFree_true; [cbn; lia | cbn; lia | rect_value].

Ltac fits_false :=
  apply fitsFree_false;
  first [ left; left; cbn; lia | left; right; cbn; lia | right; rect_value ].

Ltac layout_step :=
  eapply layout_cons;
  [ first
      [ apply layoutStep_primary; [fits_true | cbn; reflexivity]
      | eapply layoutStep_alternate; [fits_false | reflexivity | | ];
        [fits_true | cbn; reflexivity]
      | apply layoutStep_dropped;
        [fits_false | intros q Hq; cbn in Hq; first [discriminate
                                                   | injection Hq as <-; fits_false]] ]
  | ].

Ltac layout_case :=
  unfold Legacy.tilesAt, Legacy.shippedOrigins, Legacy.layout, Legacy.FIXED_TILES;
  cbn [combine flat_map fst snd];
  decide_cmp; cbn [andb negb app];
  do 5 layout_step;
  unfold Legacy.tileAt, Legacy.fixedTileAt, Legacy.primaryOf; cbn;
  repeat (f_equal; try lia).

(** On two rows or more, the table of the five shipped specs is
    [Legacy.shippedOrigins]. *)
Lemma shipped_layout (W H : Z) :
  2 <= H ->
  Legacy.layout W H Legacy.FIXED_TILES
  = Legacy.tilesAt Legacy.FIXED_TILES (Legacy.shippedOrigins W H).
Proof.
  intros HH.
  assert (HWc : W < 3 \/ W = 3 \/ 4 <= W < 6 \/ 6 <= W < 9 \/ 9 <= W < 15
                \/ 15 <= W < 18 \/ 18 <= W) by lia.
  assert (HHc : H = 2 \/ H = 3 \/ H = 4 \/ H = 5 \/ 6 <= H) by lia.
  destruct HWc as [HW|[HW|[HW|[HW|[HW|[HW|HW]]]]]];
    destruct HHc as [HHc|[HHc|[HHc|[HHc|HHc]]]]; layout_case.
Qed.

Lemma shipped_rowsNonneg (W H : Z) :
  2 <= H -> Legacy.rowsNonneg W H Legacy.FIXED_TILES.
Proof.
  intros HH f Hf. unfold Legacy.FIXED_TILES in Hf. simpl in Hf.
  destruct Hf as [<-|[<-|[<-|[<-|[<-|[]]]]]]; cbn;
    (split; [lia | intros p Hp; try discriminate; injection Hp as <-; cbn; lia]).
Qed.

(** X18: the five shipped specs of the earlier page on a grid of two rows
    or more, for non-negative draws: the pass returns, and the fixed tiles at
    the head of its list are those of [Legacy.shippedOrigins].  The name tile
    needs six columns and three rows; the repository link falls back to row 3
    on a grid four to eight columns wide and at least five rows high; the
    version label, anchored one row above the last, is dropped where that row
    is taken (three rows and six columns or more; five rows and four to eight
    columns). *)
Theorem X18_legacy_shipped_layout (W H : Z) (rs : RandomSource) :
  0 <= W < 2 ^ 32 -> 2 <= H < 2 ^ 32 ->
  drawsNonneg rs ->
  exists rest,
    Legacy.generate W H Legacy.FIXED_TILES rs
    = Ok (Legacy.tilesAt Legacy.FIXED_TILES (Legacy.shippedOrigins W H) ++ rest)
    /\ Forall (fun t => Legacy.fixedPrefix (Legacy.Tile.id t) = false) rest.
Proof.
  intros HW HH Hdraws. rewrite <- (shipped_layout W H) by lia.
  apply legacy_generate_layout.
  - unfold validArrayLength. apply andb_true_iff. rewrite Z.leb_le, Z.ltb_lt. lia.
  - unfold validArrayLength. apply andb_true_iff. rewrite Z.leb_le, Z.ltb_lt. lia.
  - apply shipped_rowsNonneg. lia.
  - exact Hdraws.
Qed.

Lemma X18_legacy_shipped_layout_witness :
  exists rest,
    Legacy.generate 8 5 Legacy.FIXED_TILES (constantSource 0.1 0 0)
    = Ok (Legacy.tilesAt Legacy.FIXED_TILES (Legacy.shippedOrigins 8 5) ++ rest)
    /\ Forall (fun t => Legacy.fixedPrefix (Legacy.Tile.id t) = false) rest.
Proof.
  apply (X18_legacy_shipped_layout 8 5 (constantSource 0.1 0 0)).
  - lia.
  - lia.
  - intros i. cbn. lia.
Defined.

(** ** A row above the grid *)

Lemma legacy_placeFixed_negative_row (W H : Z) (this : MosaicGenerator)
    (tiles : list Legacy.Tile.t) (f : FixedTile.t) :
  gridWidth this = W -> gridHeight this = H ->
  p_row (Legacy.primaryOf W H f) < 0 ->
  0 < FixedTile.width f -> 0 < FixedTile.height f ->
  p_col (Legacy.primaryOf W H f) + FixedTile.width f <= W - 1 ->
  p_row (Legacy.primaryOf W H f) + FixedTile.height f <= H - 1 ->
  Legacy.placeFixed this tiles f = Throw TypeError.
Proof.
  intros HW HH Hrow Hw Hh Hc Hr. unfold Legacy.placeFixed, Legacy.fits. cbv zeta.
  rewrite HW, HH. cbn [Legacy.primaryOf p_row p_col] in Hrow, Hc, Hr.
  rewrite (proj2 (Z.leb_le _ _) Hc), (proj2 (Z.leb_le _ _) Hr). cbn [negb].
  rewrite canPlaceTile_negative_row by assumption. rewrite HW, HH.
  rewrite !Z.gtb_ltb.
  rewrite (proj2 (Z.ltb_ge H _)), (proj2 (Z.ltb_ge W _)) by lia.
  reflexivity.
Qed.

Lemma legacy_generate_throws (W H : Z) (fixed : list FixedTile.t)
    (rs : RandomSource) (this0 : MosaicGenerator) (e : JsError) :
  constructor W H fixed = Ok this0 ->
  Legacy.fixedLoop this0 [] fixed = Throw e ->
  Legacy.generate W H fixed rs = Throw e.
Proof.
  intros Hc Hloop.
  destruct (constructor_Inv W H fixed this0 Hc) as [[(_ & _ & Hfx) _] Hidem].
  unfold Legacy.generate. rewrite Hc. cbn [bind].
  unfold Legacy.generatePattern. rewrite Hidem. cbn [bind].
  rewrite Hfx, Hloop. reflexivity.
Qed.

Ltac skip_spec W this0 HW HH :=
  rewrite (legacy_placeFixed_skipped W 1 this0 [] _ HW HH)
    by first [ left; cbn; lia
             | right; cbn; lia
             | intros q Hq; cbn in Hq;
               first [ discriminate
                     | injection Hq as <-; first [left; cbn; lia | right; cbn; lia] ] ];
  cbn [bind fst snd].

(** One row and three columns or more: the version label of the shipped
    specs is anchored on row -1, passes the far-edge tests and makes the
    loop read a row that does not exist. *)
Lemma shipped_one_row_throws (W : Z) (rs : RandomSource) :
  3 <= W < 2 ^ 32 ->
  Legacy.generate W 1 Legacy.FIXED_TILES rs = Throw TypeError.
Proof.
  intros HW3.
  destruct (proj2 (resetGrid_returns (mkGenerator [] W 1 Legacy.FIXED_TILES)))
    as [this0 Hc].
  { simpl. split; [reflexivity|]. right. unfold validArrayLength.
    apply andb_true_iff. rewrite Z.leb_le, Z.ltb_lt. lia. }
  change (constructor W 1 Legacy.FIXED_TILES = Ok this0) in Hc.
  destruct (constructor_config W 1 Legacy.FIXED_TILES this0 Hc) as (HW & HH & _).
  apply (legacy_generate_throws W 1 Legacy.FIXED_TILES rs this0 TypeError Hc).
  unfold Legacy.FIXED_TILES. cbn [Legacy.fixedLoop].
  do 4 skip_spec W this0 HW HH.
  rewrite (legacy_placeFixed_negative_row W 1 this0 [] _ HW HH) by (cbn; lia).
  reflexivity.
Qed.

(** One row and fewer than three columns: every shipped spec fails a
    far-edge test, so no row is read. *)
Lemma shipped_one_row_narrow (W : Z) (rs : RandomSource) :
  0 <= W < 3 -> drawsNonneg rs ->
  returns (Legacy.generate W 1 Legacy.FIXED_TILES rs).
Proof.
  intros HW3 Hdraws.
  destruct (proj2 (resetGrid_returns (mkGenerator [] W 1 Legacy.FIXED_TILES)))
    as [this0 Hc].
  { simpl. split; [reflexivity|]. right. unfold validArrayLength.
    apply andb_true_iff. rewrite Z.leb_le, Z.ltb_lt. lia. }
  change (constructor W 1 Legacy.FIXED_TILES = Ok this0) in Hc.
  destruct (constructor_config W 1 Legacy.FIXED_TILES this0 Hc) as (HW & HH & _).
  assert (Hloop : Legacy.fixedLoop this0 [] Legacy.FIXED_TILES = Ok (this0, [])).
  { unfold Legacy.FIXED_TILES. cbn [Legacy.fixedLoop].
    do 5 skip_spec W this0 HW HH. reflexivity. }
  destruct (legacy_after_fixed W 1 Legacy.FIXED_TILES rs this0 this0 [] Hc Hloop Hdraws)
    as (rest & Hg & _).
  exists ([] ++ rest). exact Hg.
Qed.

(** X19: the earlier page on a viewport of at most [2^31] pixels a side,
    with non-negative draws.  In a window less than 60 pixels high and at
    least 120 pixels wide, [generateMosaic] ends in a [TypeError]; in every
    other window it returns. *)
Theorem X19_legacy_short_window_throws (innerWidth innerHeight : Z)
    (rs : RandomSource) :
  0 <= innerWidth < 2 ^ 31 -> 0 <= innerHeight < 2 ^ 31 ->
  drawsNonneg rs ->
  if (innerHeight <? 60) && (120 <=? innerWidth)
  then Legacy.generateMosaic
         (Legacy.calculateGridDimensions innerWidth innerHeight) rs
       = Throw TypeError
  else returns (Legacy.generateMosaic
                  (Legacy.calculateGridDimensions innerWidth innerHeight) rs).
Proof.
  intros Hw Hh Hdraws.
  unfold Legacy.generateMosaic, Legacy.calculateGridDimensions. cbn [fst snd].
  pose proof (Z.div_mod innerWidth 60 ltac:(lia)) as Ew.
  pose proof (Z.mod_pos_bound innerWidth 60 ltac:(lia)) as Bw.
  pose proof (Z.div_mod innerHeight 60 ltac:(lia)) as Eh.
  pose proof (Z.mod_pos_bound innerHeight 60 ltac:(lia)) as Bh.
  destruct (Z.ltb_spec innerHeight 60) as [Hshort|Htall]; cbn [andb].
  - replace (innerHeight / 60 + 1) with 1 by lia.
    destruct (Z.leb_spec 120 innerWidth) as [Hwide|Hnarrow].
    + apply shipped_one_row_throws. lia.
    + apply shipped_one_row_narrow; [lia | exact Hdraws].
  - destruct (legacy_generate_layout (innerWidth / 60 + 1) (innerHeight / 60 + 1)
                Legacy.FIXED_TILES rs) as (rest & Hg & _).
    + unfold validArrayLength. apply andb_true_iff. rewrite Z.leb_le, Z.ltb_lt. lia.
    + unfold validArrayLength. apply andb_true_iff. rewrite Z.leb_le, Z.ltb_lt. lia.
    + apply shipped_rowsNonneg. lia.
    + exact Hdraws.
    + eexists. exact Hg.
Qed.

Lemma X19_legacy_short_window_throws_witness :
  Legacy.generateMosaic (Legacy.calculateGridDimensions 800 50)
                        (constantSource 0.1 0 0)
  = Throw TypeError.
Proof.
  assert (Hdraws : drawsNonneg (constantSource 0.1 0 0)) by (intros i; cbn; lia).
  exact (X19_legacy_short_window_throws 800 50 (constantSource 0.1 0 0)
           ltac:(lia) ltac:(lia) Hdraws).
Defined.

(** ** A blocked tile moves to its alternate position *)

Section LegacySteps.

Variables (W H : Z) (fixed : list FixedTile.t).

Lemma legacy_placeFixed_primary (this : MosaicGenerator)
    (tiles : list Legacy.Tile.t) (f : FixedTile.t) :
  Inv W H fixed this (map asTile tiles) ->
  0 <= p_row (Legacy.primaryOf W H f) ->
  Legacy.fitsFree W H tiles (Legacy.primaryOf W H f) = true ->
  exists this',
    Legacy.placeFixed this tiles f
    = Ok (this', tiles ++ [Legacy.tileAt f (Legacy.primaryOf W H f)])
    /\ Inv W H fixed this'
           (map asTile (tiles ++ [Legacy.tileAt f (Legacy.primaryOf W H f)])).
Proof.
  intros HI Hrow Hfree. pose proof HI as [(HW & HH & _) _].
  pose proof (legacy_fits_free W H fixed this tiles _ HI Hrow) as Hfit.
  rewrite Hfree in Hfit. simpl in Hfit.
  destruct (legacy_place_fixed W H fixed this tiles f _ _ HI Hfit)
    as (this' & Hplace & HI').
  exists this'. split; [|exact HI'].
  unfold Legacy.placeFixed. cbv zeta. rewrite HW, HH, Hfit. cbn [bind].
  rewrite Hplace. reflexivity.
Qed.

Lemma legacy_placeFixed_alternate (this : MosaicGenerator)
    (tiles : list Legacy.Tile.t) (f : FixedTile.t) (q : Position) :
  Inv W H fixed this (map asTile tiles) ->
  0 <= p_row (Legacy.primaryOf W H f) ->
  Legacy.fitsFree W H tiles (Legacy.primaryOf W H f) = false ->
  Legacy.alternateOf W H f = Some q ->
  0 <= p_row q ->
  Legacy.fitsFree W H tiles q = true ->
  exists this',
    Legacy.placeFixed this tiles f = Ok (this', tiles ++ [Legacy.tileAt f q])
    /\ Inv W H fixed this' (map asTile (tiles ++ [Legacy.tileAt f q])).
Proof.
  intros HI Hrow Hfree Halt Hrowq Hfreeq. pose proof HI as [(HW & HH & _) _].
  pose proof (legacy_fits_free W H fixed this tiles _ HI Hrow) as Hfit.
  rewrite Hfree in Hfit. simpl in Hfit.
  pose proof (legacy_fits_free W H fixed this tiles q HI Hrowq) as Hfitq.
  rewrite Hfreeq in Hfitq.
  unfold Legacy.alternateOf in Halt. unfold Legacy.placeFixed. cbv zeta.
  rewrite HW, HH, Hfit. cbn [bind].
  destruct (FixedTile.altRow f) as [ar|]; [|discriminate].
  destruct (FixedTile.altCol f) as [ac|]; [|discriminate].
  injection Halt as <-. simpl in Hfitq.
  destruct (legacy_place_fixed W H fixed this tiles f _ _ HI Hfitq)
    as (this' & Hplace & HI').
  exists this'. split; [|exact HI'].
  rewrite Hfitq. cbn [bind]. rewrite Hplace. reflexivity.
Qed.

End LegacySteps.

Lemma rectFree_nil (p : Position) : Legacy.rectFree [] p = true.
Proof. unfold Legacy.rectFree. apply forallb_forall. reflexivity. Qed.

Lemma rectFree_single (t : Legacy.Tile.t) (p : Position) :
  Legacy.rectFree [t] p = true
  <-> forall r c, In (r, c) (cellsOf p) -> Legacy.covers t r c = false.
Proof.
  unfold Legacy.rectFree, cellsOf. rewrite forallb_forall. split.
  - intros Hall r c Hin. specialize (Hall (r, c) Hin).
    unfold Legacy.coverCount in Hall. cbn [List.filter fst snd] in Hall.
    destruct (Legacy.covers t r c); [discriminate | reflexivity].
  - intros Hall [r c] Hin. unfold Legacy.coverCount. cbn [List.filter fst snd].
    rewrite (Hall r c Hin). reflexivity.
Qed.

Lemma covers_tileAt_primary (W H : Z) (f : FixedTile.t) (r c : Z) :
  Legacy.covers (Legacy.tileAt f (Legacy.primaryOf W H f)) r c = true
  <-> In (r, c) (cellsOf (Legacy.primaryOf W H f)).
Proof.
  exact (covers_rectCells (asTile (Legacy.tileAt f (Legacy.primaryOf W H f))) r c).
Qed.

(** X20: the earlier loop decides tile by tile.  On a grid of valid sizes
    with non-negative draws, when the primary rectangle of the first of two
    specs lies in the usable span, the primary rectangle of the second shares
    a cell with it, and the second declares an alternate rectangle that lies
    in the usable span away from the first tile, the pass returns with the
    first tile at its primary position and the second at its alternate one,
    followed by tiles without the [fixed] prefix. *)
Theorem X20_legacy_blocked_tile_moves_to_alternate (W H : Z) (f g : FixedTile.t)
    (q : Position) (rs : RandomSource) :
  validArrayLength W = true -> validArrayLength H = true ->
  drawsNonneg rs ->
  fitsUsableSpan W H (Legacy.primaryOf W H f) ->
  0 <= p_row (Legacy.primaryOf W H g) ->
  rectsOverlap (Legacy.primaryOf W H f) (Legacy.primaryOf W H g) ->
  Legacy.alternateOf W H g = Some q ->
  fitsUsableSpan W H q ->
  rectsDisjoint (Legacy.primaryOf W H f) q ->
  exists rest,
    Legacy.generate W H [f; g] rs
    = Ok (Legacy.tileAt f (Legacy.primaryOf W H f) :: Legacy.tileAt g q :: rest)
    /\ Forall (fun t => Legacy.fixedPrefix (Legacy.Tile.id t) = false) rest.
Proof.
  intros HvW HvH Hdraws Hf Hrowg Hover Halt Hq Hdisj.
  destruct (proj2 (resetGrid_returns (mkGenerator [] W H [f; g]))) as [this0 Hc].
  { simpl. auto. }
  change (constructor W H [f; g] = Ok this0) in Hc.
  destruct (constructor_Inv W H [f; g] this0 Hc) as [HI0 _].
  destruct Hf as (Hf1 & Hf2 & Hf3 & Hf4). destruct Hq as (Hq1 & Hq2 & Hq3 & Hq4).
  destruct (legacy_placeFixed_primary W H [f; g] this0 [] f HI0 Hf1)
    as (this1 & Hstep1 & HI1).
  { apply fitsFree_true; [exact Hf4 | exact Hf3 | apply rectFree_nil]. }
  cbn [app] in Hstep1, HI1.
  destruct (legacy_placeFixed_alternate W H [f; g] this1 _ g q HI1 Hrowg)
    as (this2 & Hstep2 & _).
  { apply fitsFree_false. right.
    destruct (Legacy.rectFree [Legacy.tileAt f (Legacy.primaryOf W H f)]
                (Legacy.primaryOf W H g)) eqn:E; [|reflexivity].
    destruct Hover as (r & c & Hin1 & Hin2).
    pose proof (proj1 (rectFree_single _ _) E r c Hin2) as Hno.
    apply covers_tileAt_primary in Hin1. congruence. }
  { exact Halt. }
  { exact Hq1. }
  { apply fitsFree_true; [exact Hq4 | exact Hq3 |].
    apply rectFree_single. intros r c Hin.
    destruct (Legacy.covers (Legacy.tileAt f (Legacy.primaryOf W H f)) r c) eqn:E;
      [|reflexivity].
    apply covers_tileAt_primary in E. exfalso. apply (Hdisj r c E Hin). }
  cbn [app] in Hstep2.
  assert (Hloop : Legacy.fixedLoop this0 [] [f; g]
                  = Ok (this2, [Legacy.tileAt f (Legacy.primaryOf W H f);
                                Legacy.tileAt g q])).
  { cbn [Legacy.fixedLoop]. rewrite Hstep1. cbn [bind fst snd].
    rewrite Hstep2. reflexivity. }
  destruct (legacy_after_fixed W H [f; g] rs this0 this2 _ Hc Hloop Hdraws)
    as (rest & Hg & Hrest).
  exists rest. split; [exact Hg | exact Hrest].
Qed.

Lemma X20_legacy_blocked_tile_moves_to_alternate_witness :
  exists rest,
    Legacy.generate 8 7 [overlapA; overlapB] (constantSource 0.1 0 0)
    = Ok (Legacy.tileAt overlapA (Legacy.primaryOf 8 7 overlapA)
          :: Legacy.tileAt overlapB (mkPosition 5 1 2 1) :: rest)
    /\ Forall (fun t => Legacy.fixedPrefix (Legacy.Tile.id t) = false) rest.
Proof.
  apply (X20_legacy_blocked_tile_moves_to_alternate 8 7 overlapA overlapB
           (mkPosition 5 1 2 1) (constantSource 0.1 0 0)).
  - reflexivity.
  - reflexivity.
  - intros i. cbn. lia.
  - cbv. repeat split; discriminate.
  - cbn. lia.
  - exists 1, 2. split; apply rectCells_In; cbn; lia.
  - reflexivity.
  - cbv. repeat split; discriminate.
  - intros r c Hin Hin'. apply rectCells_In in Hin. apply rectCells_In in Hin'.
    cbn in Hin, Hin'. lia.
Defined.

(** X21: for sizes and a rectangle in the range of exact arithmetic, a
    non-empty rectangle that starts above the grid is never accepted by
    [canPlaceTile]: it is refused when it reaches past a far edge, and the
    check ends in a [TypeError] otherwise. *)
Theorem X21_canPlaceTile_row_above_grid (this : MosaicGenerator)
    (row col width height : Z) :
  rectInRange this row col width height = true ->
  row < 0 -> 0 < width -> 0 < height ->
  canPlaceTile this row col width height
  = if (row + height >? gridHeight this) || (col + width >? gridWidth this)
    then Ok false else Throw TypeError.
Proof. intros _. exact (canPlaceTile_negative_row this row col width height). Qed.

Lemma X21_canPlaceTile_row_above_grid_witness :
  canPlaceTile (mkGenerator [∅; ∅; ∅] 4 3 []) (-1) 0 1 1 = Throw TypeError.
Proof.
  exact (X21_canPlaceTile_row_above_grid (mkGenerator [∅; ∅; ∅] 4 3 []) (-1) 0 1 1
           eq_refl ltac:(lia) ltac:(lia) ltac:(lia)).
Defined.
